(** * Scrap Yard: a shallow embedding of the replicated catalog,
      the signaling client, the file-transfer protocol, the local content
      store and the local HTTP interceptor, with the properties of the
      specification stated and settled against the code.

    Layout: the embedding (one module per source file or concern) comes
    first, the lemmas and theorems follow.

    Conventions.
    - A JavaScript string is a [string] (a sequence of 8-bit characters); a
      [Uint8Array] is a [list byte].
    - A JavaScript [Map] with string keys is a [gmap string _].
    - A function that may throw returns an [option] or a sum; a function that
      mutates module-level state takes the state and returns the new one.
    - Time is a count of milliseconds; a timer is a record in the state that
      an explicit step fires. *)

From Stdlib Require Import ZArith NArith Lia Ascii String List DecimalString.
From Stdlib.Strings Require Import Byte.
From stdpp Require Import gmap strings list fin_maps sorting.

Open Scope string_scope.
Open Scope list_scope.

(** Bytes can be compared and counted, so that byte strings can be keys. *)
#[global] Instance byte_eq_dec : EqDecision byte := Byte.byte_eq_dec.
#[global] Instance byte_countable : Countable byte :=
  inj_countable Byte.to_N Byte.of_N Byte.of_to_N.

(* ===================================================================== *)
(** * Platform: [btoa], [atob] and the byte/string conversions          *)
(* ===================================================================== *)

Module Base64.

(** The sextet [n] (0..63) as a character of the base64 alphabet
    [A-Z a-z 0-9 + /]. *)
Definition b64_char (n : N) : ascii :=
  if (n <? 26)%N then ascii_of_N (n + 65)
  else if (n <? 52)%N then ascii_of_N (n + 71)
  else if (n <? 62)%N then ascii_of_N (n - 4)
  else if (n =? 62)%N then ascii_of_N 43
  else ascii_of_N 47.

(** The sextet of a character of the alphabet, [None] for any other
    character. *)
Definition b64_index (c : ascii) : option N :=
  let n := N_of_ascii c in
  if ((65 <=? n) && (n <=? 90))%N then Some (n - 65)%N
  else if ((97 <=? n) && (n <=? 122))%N then Some (n - 71)%N
  else if ((48 <=? n) && (n <=? 57))%N then Some (n + 4)%N
  else if (n =? 43)%N then Some 62%N
  else if (n =? 47)%N then Some 63%N
  else None.

Definition pad_char : ascii := ascii_of_N 61.

(** Three octets give four sextets; a last group of one or two octets gives
    two or three sextets and is padded with [=] to four characters. *)
Fixpoint encode_octets (l : list N) : list ascii :=
  match l with
  | [] => []
  | [a] =>
      [b64_char (a / 4); b64_char ((a mod 4) * 16); pad_char; pad_char]
  | [a; b] =>
      [b64_char (a / 4); b64_char ((a mod 4) * 16 + b / 16);
       b64_char ((b mod 16) * 4); pad_char]
  | a :: b :: c :: rest =>
      b64_char (a / 4) :: b64_char ((a mod 4) * 16 + b / 16)
      :: b64_char ((b mod 16) * 4 + c / 64) :: b64_char (c mod 64)
      :: encode_octets rest
  end%N.

(** [btoa(binary)]: every character of a [string] has a code below 256, so
    the call never throws here. *)
Definition btoa (binary : string) : string :=
  string_of_list_ascii
    (encode_octets (map N_of_ascii (list_ascii_of_string binary))).

(** ASCII whitespace: TAB, LF, FF, CR and SPACE. *)
Definition is_ascii_whitespace (c : ascii) : bool :=
  let n := N_of_ascii c in
  ((n =? 9) || (n =? 10) || (n =? 12) || (n =? 13) || (n =? 32))%N.

(** "If data ends with one or two [=], remove them." *)
Definition strip_padding (d : list ascii) : list ascii :=
  match rev d with
  | p :: q :: r =>
      if Ascii.eqb p pad_char then
        if Ascii.eqb q pad_char then rev r else rev (q :: r)
      else d
  | [p] => if Ascii.eqb p pad_char then [] else d
  | [] => d
  end.

(** Four sextets give three octets; a last group of two or three sextets
    gives one or two octets, the left-over bits being dropped. *)
Fixpoint decode_sextets (l : list N) : list N :=
  match l with
  | a :: b :: c :: d :: rest =>
      (a * 4 + b / 16) :: ((b mod 16) * 16 + c / 4) :: ((c mod 4) * 64 + d)
      :: decode_sextets rest
  | [a; b; c] => [a * 4 + b / 16; (b mod 16) * 16 + c / 4]
  | [a; b] => [a * 4 + b / 16]
  | _ => []
  end%N.

(** The sextets of a list of characters, [None] as soon as one character is
    outside the alphabet. *)
Fixpoint sextets_of (d : list ascii) : option (list N) :=
  match d with
  | [] => Some []
  | c :: r =>
      match b64_index c, sextets_of r with
      | Some n, Some ns => Some (n :: ns)
      | _, _ => None
      end
  end.

(** [atob(data)], the forgiving base64 decoding of the platform: [None] is
    the [InvalidCharacterError] it throws. *)
Definition atob (data : string) : option string :=
  let d := filter (fun c => negb (is_ascii_whitespace c))
                  (list_ascii_of_string data) in
  let d := if (length d mod 4 =? 0)%nat then strip_padding d else d in
  if (length d mod 4 =? 1)%nat then None
  else
    match sextets_of d with
    | Some ns => Some (string_of_list_ascii (map ascii_of_N (decode_sextets ns)))
    | None => None
    end.

(** ledger.js, [uint8ToBase64]: the loop appends
    [String.fromCharCode(bytes[i])] for every byte, then calls [btoa]. *)
Definition uint8ToBase64 (bytes : list byte) : string :=
  btoa (string_of_list_ascii (map ascii_of_byte bytes)).

(** ledger.js, [base64ToUint8]: [atob], then [bytes[i] = binary.charCodeAt(i)]. *)
Definition base64ToUint8 (base64 : string) : option (list byte) :=
  match atob base64 with
  | Some binary => Some (map byte_of_ascii (list_ascii_of_string binary))
  | None => None
  end.

(** ** What the lemmas on the encoder speak of *)

(** The sextets the encoder produces, before they are turned into
    characters and padded. *)
Fixpoint body (l : list N) : list N :=
  match l with
  | [] => []
  | [a] => [a / 4; (a mod 4) * 16]
  | [a; b] => [a / 4; (a mod 4) * 16 + b / 16; (b mod 16) * 4]
  | a :: b :: c :: rest =>
      a / 4 :: (a mod 4) * 16 + b / 16 :: (b mod 16) * 4 + c / 64 :: c mod 64
      :: body rest
  end%N.

(** The padding the encoder appends. *)
Definition padding (l : list N) : list ascii :=
  match (length l mod 3)%nat with
  | 1%nat => [pad_char; pad_char]
  | 2%nat => [pad_char]
  | _ => []
  end.

Definition octet (n : N) : Prop := (n < 256)%N.
Definition sextet (n : N) : Prop := (n < 64)%N.

End Base64.

(* ===================================================================== *)
(** * The CRDT relational store                                          *)
(* ===================================================================== *)

Module CRStore.

(** A value of a column: NULL, an integer or a text. *)
Inductive Value :=
| VNull
| VInt (n : Z)
| VText (s : string).

#[global] Instance value_eq_dec : EqDecision Value.
Proof. solve_decision. Defined.

(** A change record, as a row of [crsql_changes]: [pk] and [site_id] are
    byte strings here. *)
Record Change := mkChange {
  table : string;
  pk : list byte;
  cid : string;
  val : Value;
  col_version : Z;
  db_version : Z;
  site_id : list byte;
  cl : Z;
  seq : Z
}.

(** Modelled from the spec: the store itself, cr-sqlite, is an external
    library; ledger.js only sends it SQL. The model follows sections 3 and
    4.A: a table is a map of registers, one per row and column; concurrent
    writes of a column are resolved last-writer-wins on the column version
    and the causal clock of the change, ties being broken the same way on
    every replica (by the value, then by the originating site); a deleted
    row leaves a tombstone; [version()] advances on every tracked write.

    [cells] holds, per table, primary key and column, the change that is
    current; the tombstone of a row is the cell of the column [-1]. *)
Record DB := mkDB {
  cells : gmap (string * list byte * string) Change;
  version : Z;
  site : list byte
}.

(** The cell of a change: its table, primary key and column. *)
Definition key_of (c : Change) : string * list byte * string :=
  (table c, pk c, cid c).

(** Modelled from the spec: the column under which the tombstone of a row
    is kept. *)
Definition tombstone : string := "-1".

#[global] Instance Change_eq_dec : EqDecision Change.
Proof. solve_decision. Defined.

(** Modelled from the spec: [open] of the store, which is not in the
    sources; an empty store with its site id. *)
Definition open (site : list byte) : DB := mkDB ∅ 0 site.

(** ** The order that decides which of two writes of a column is last *)

Definition lex (c1 c2 : comparison) : comparison :=
  match c1 with
  | Eq => c2
  | _ => c1
  end.

Definition value_compare (a b : Value) : comparison :=
  match a, b with
  | VNull, VNull => Eq
  | VNull, _ => Lt
  | _, VNull => Gt
  | VInt x, VInt y => Z.compare x y
  | VInt _, VText _ => Lt
  | VText _, VInt _ => Gt
  | VText s, VText t => String.compare s t
  end.

Fixpoint bytes_compare (a b : list byte) : comparison :=
  match a, b with
  | [], [] => Eq
  | [], _ :: _ => Lt
  | _ :: _, [] => Gt
  | x :: a', y :: b' =>
      lex (N.compare (Byte.to_N x) (Byte.to_N y)) (bytes_compare a' b')
  end.

(** Modelled from the spec: what last-writer-wins looks at, which the
    sources do not hold; the column version, the causal clock, and then the
    value and the site to break ties. *)
Definition Stamp : Type := Z * Z * Value * list byte.

Definition stamp (c : Change) : Stamp :=
  (col_version c, cl c, val c, site_id c).

(** Modelled from the spec: the order of two writes of a column, missing
    from the sources; lexicographic on the stamp. *)
Definition stamp_compare (s t : Stamp) : comparison :=
  let '(v1, c1, x1, s1) := s in
  let '(v2, c2, x2, s2) := t in
  lex (Z.compare v1 v2)
    (lex (Z.compare c1 c2) (lex (value_compare x1 x2) (bytes_compare s1 s2))).

(** Modelled from the spec: the last writer, missing from the sources;
    the write with the strictly greater stamp. *)
Definition newer (s old : Stamp) : bool :=
  match stamp_compare s old with
  | Gt => true
  | _ => false
  end.

(** ** Merging a change: [INSERT INTO crsql_changes] *)

(** Modelled from the spec: the merge of a change by the store, which is
    not in the sources. The change becomes the current one of its cell when
    the cell is empty or holds an older write; it is then stamped with the
    next local version. Otherwise nothing changes, so that merging is
    idempotent. *)
Definition merge_change (db : DB) (c : Change) : DB :=
  let install :=
    mkDB (<[key_of c :=
              mkChange (table c) (pk c) (cid c) (val c) (col_version c)
                       (version db + 1) (site_id c) (cl c) (seq c)]> (cells db))
         (version db + 1) (site db) in
  match cells db !! key_of c with
  | Some old => if newer (stamp c) (stamp old) then install else db
  | None => install
  end.

(** ** Reading *)

(** The order of [crsql_changes]: by version, then by sequence number. *)
Definition change_le (c d : Change) : Prop :=
  (db_version c < db_version d)%Z
  ∨ (db_version c = db_version d ∧ (seq c ≤ seq d)%Z).

#[global] Instance change_le_dec c d : Decision (change_le c d).
Proof. unfold change_le. apply _. Defined.

(** Modelled from the spec: [changes-since] of the store, not in the
    sources; [SELECT ... FROM crsql_changes WHERE db_version > ?] gives the
    current changes above the version, in the order of the store. *)
Definition select_changes (db : DB) (since : Z) : list Change :=
  merge_sort change_le
    (filter (fun c => (since < db_version c)%Z) (map snd (map_to_list (cells db)))).

(** Modelled from the spec: [version()] of the store, not in the sources;
    [SELECT crsql_db_version()]. *)
Definition crsql_db_version (db : DB) : Z := version db.

(** Modelled from the spec: the rows of a table, as [SELECT * FROM table]
    of the store, which is not in the sources, shows them; for every
    primary key without a tombstone, the values of its columns. *)
Definition rows_of (values : gmap (string * list byte * string) Value) (t : string)
    : gmap (list byte) (gmap string Value) :=
  map_fold
    (fun k v rows =>
       let '(t', pk, cid) := k in
       if decide (t' = t ∧ cid ≠ tombstone ∧ values !! (t, pk, tombstone) = None)
       then partial_alter (fun r => Some (<[cid := v]> (default ∅ r))) pk rows
       else rows)
    ∅ values.

(** Modelled from the spec: the rows of table [t] in a store. *)
Definition table_rows (db : DB) (t : string) : gmap (list byte) (gmap string Value) :=
  rows_of (val <$> cells db) t.

(** ** Local writes: the statements of the catalog on a replicated table *)

Inductive Write :=
| Insert (t : string) (pk : list byte) (cols : list (string * Value))
| Update (t : string) (pk : list byte) (cols : list (string * Value))
| Delete (t : string) (pk : list byte).

(** Modelled from the spec: a tracked local write of one column, done by
    the store, which is not in the sources; the column version goes up by
    one, the change carries the new local version and the local site. *)
Definition write_cell (v : Z) (site : list byte) (t : string) (pk : list byte)
    (cells : gmap (string * list byte * string) Change) (n : Z)
    (col : string * Value) : gmap (string * list byte * string) Change :=
  let k := (t, pk, fst col) in
  let col_version :=
    match cells !! k with
    | Some old => (col_version old + 1)%Z
    | None => 1%Z
    end in
  <[k := mkChange t pk (fst col) (snd col) col_version v site 1 n]> cells.

(** Modelled from the spec: the tracked write of the columns of one
    statement, numbered in sequence. *)
Fixpoint write_cells (v : Z) (site : list byte) (t : string) (pk : list byte)
    (cells : gmap (string * list byte * string) Change) (n : Z)
    (cols : list (string * Value)) : gmap (string * list byte * string) Change :=
  match cols with
  | [] => cells
  | col :: rest =>
      write_cells v site t pk (write_cell v site t pk cells n col) (n + 1) rest
  end.

(** Modelled from the spec: the row is in the table. *)
Definition is_visible (db : DB) (t : string) (pk : list byte) : bool :=
  bool_decide (is_Some (table_rows db t !! pk)).

(** Modelled from the spec: the row has left a tombstone. *)
Definition is_deleted (db : DB) (t : string) (pk : list byte) : bool :=
  bool_decide (is_Some (cells db !! (t, pk, tombstone))).

(** Modelled from the spec: the statements INSERT, UPDATE and DELETE as
    the store, which is not in the sources, tracks them. An INSERT of a
    primary key that is or was in the table fails and changes nothing (ids
    are unique and never used again); an UPDATE or DELETE of a row that is
    not in the table changes nothing. *)
Definition local_write (db : DB) (w : Write) : DB :=
  let v := (version db + 1)%Z in
  match w with
  | Insert t pk cols =>
      if is_visible db t pk || is_deleted db t pk then db
      else mkDB (write_cells v (site db) t pk (cells db) 0 cols) v (site db)
  | Update t pk cols =>
      if is_visible db t pk
      then mkDB (write_cells v (site db) t pk (cells db) 0 cols) v (site db)
      else db
  | Delete t pk =>
      if is_visible db t pk
      then mkDB (write_cell v (site db) t pk (cells db) 0 (tombstone, VNull)) v (site db)
      else db
  end.

(** A finite sequence of local writes. *)
Definition local_writes (db : DB) (ws : list Write) : DB :=
  fold_left local_write ws db.

(** ** What the lemmas on merging speak of *)

(** The stamps of the cells of a store: what replicas have to agree on. *)
Definition stamps (db : DB) : gmap (string * list byte * string) Stamp :=
  stamp <$> cells db.

(** The later of two stamps, the first one on a tie. *)
Definition pick (old s : Stamp) : Stamp := if newer s old then s else old.

(** A cell after a merge, from the cell before and the incoming one. *)
Definition omerge (x y : option Stamp) : option Stamp :=
  match x, y with
  | Some old, Some s => Some (pick old s)
  | Some old, None => Some old
  | None, _ => y
  end.

(** Every cell is stored under its own key and carries a version of the
    store, which starts at 1. *)
Definition well_formed (db : DB) : Prop :=
  (0 ≤ version db)%Z
  ∧ ∀ k c, cells db !! k = Some c → k = key_of c ∧ (0 < db_version c)%Z.

End CRStore.

(* ===================================================================== *)
(** * ledger.js, [CRSQLiteDB]: changes in and out of the store           *)
(* ===================================================================== *)

Module Ledger.
Import Base64 CRStore.

(** A change record as [getChanges] returns it and as it travels: [pk] and
    [site_id] are base64 strings. *)
Record WireChange := mkWire {
  w_table : string;
  w_pk : string;
  w_cid : string;
  w_val : Value;
  w_col_version : Z;
  w_db_version : Z;
  w_site_id : string;
  w_cl : Z;
  w_seq : Z
}.

Inductive Error :=
| InvalidCharacter   (* thrown by [atob] *)
| ExecFailed.        (* thrown by [db.exec] *)

#[global] Instance Error_eq_dec : EqDecision Error.
Proof. solve_decision. Defined.

(** [{...row, pk: uint8ToBase64(row.pk), site_id: uint8ToBase64(row.site_id)}] *)
Definition encode_change (row : Change) : WireChange :=
  mkWire (table row) (uint8ToBase64 (pk row)) (cid row) (val row)
         (col_version row) (db_version row) (uint8ToBase64 (site_id row))
         (cl row) (seq row).

(** The parameters of the INSERT for [change], when both fields decode. *)
Definition decode_change (change : WireChange) : option Change :=
  match base64ToUint8 (w_pk change) with
  | None => None
  | Some pk =>
      match base64ToUint8 (w_site_id change) with
      | None => None
      | Some siteId =>
          Some (mkChange (w_table change) pk (w_cid change) (w_val change)
                  (w_col_version change) (w_db_version change) siteId
                  (w_cl change) (w_seq change))
      end
  end.

Section Engine.
(** The store behind [this.db]: [crsql_insert] is
    [INSERT INTO crsql_changes], with [None] when [exec] throws;
    [crsql_select] is the SELECT of [getChanges]; [crsql_version] is
    [SELECT crsql_db_version()]. *)
Context {Store : Type}.
Variable crsql_insert : Store → Change → option Store.
Variable crsql_select : Store → Z → list Change.
Variable crsql_version : Store → Z.

(** The object: the store and the field [dbVersion]. *)
Record CRSQLiteDB := mkCRSQLiteDB {
  db : Store;
  dbVersion : Z
}.

(** [refreshVersion()] *)
Definition refreshVersion (this : CRSQLiteDB) : CRSQLiteDB :=
  mkCRSQLiteDB (db this) (crsql_version (db this)).

(** [getVersion()] *)
Definition getVersion (this : CRSQLiteDB) : Z := dbVersion this.

(** [getChanges(sinceVersion)] *)
Definition getChanges (this : CRSQLiteDB) (sinceVersion : Z)
    : CRSQLiteDB * list WireChange :=
  let this := refreshVersion this in
  (this, map encode_change (crsql_select (db this) sinceVersion)).

(** The loop of [applyChanges]: every [exec] is a statement of its own,
    no transaction is open; the store is returned as the loop leaves it,
    with the error if one was thrown. *)
Fixpoint applyLoop (store : Store) (changes : list WireChange)
    : Store * option Error :=
  match changes with
  | [] => (store, None)
  | change :: rest =>
      match decode_change change with
      | None => (store, Some InvalidCharacter)
      | Some row =>
          match crsql_insert store row with
          | None => (store, Some ExecFailed)
          | Some store' => applyLoop store' rest
          end
      end
  end.

(** [applyChanges(changes)]: [refreshVersion] runs after the loop, and
    not at all when the loop throws. *)
Definition applyChanges (this : CRSQLiteDB) (changes : list WireChange)
    : CRSQLiteDB * option Error :=
  match applyLoop (db this) changes with
  | (store, None) => (refreshVersion (mkCRSQLiteDB store (dbVersion this)), None)
  | (store, Some e) => (mkCRSQLiteDB store (dbVersion this), Some e)
  end.

(** What committing a whole batch would be: every record decoded and
    merged, or nothing. *)
Fixpoint commit (store : Store) (changes : list WireChange) : option Store :=
  match changes with
  | [] => Some store
  | change :: rest =>
      match decode_change change with
      | None => None
      | Some row =>
          match crsql_insert store row with
          | None => None
          | Some store' => commit store' rest
          end
      end
  end.

End Engine.

Arguments CRSQLiteDB : clear implicits.
Arguments mkCRSQLiteDB {Store}.

(** The engine on the store of [CRStore], whose INSERT does not fail. *)
Definition insert (store : DB) (row : Change) : option DB :=
  Some (merge_change store row).

Definition get_changes (this : CRSQLiteDB DB) (sinceVersion : Z) :=
  getChanges select_changes crsql_db_version this sinceVersion.

Definition apply_changes (this : CRSQLiteDB DB) (changes : list WireChange) :=
  applyChanges insert crsql_db_version this changes.

(** Two replicas exchange all their changes, in one direction per round. *)
Inductive Direction := AtoB | BtoA.

Definition exchange (ab : CRSQLiteDB DB * CRSQLiteDB DB) (dir : Direction)
    : CRSQLiteDB DB * CRSQLiteDB DB :=
  let '(a, b) := ab in
  match dir with
  | AtoB =>
      let '(a', changes) := get_changes a 0 in
      (a', fst (apply_changes b changes))
  | BtoA =>
      let '(b', changes) := get_changes b 0 in
      (fst (apply_changes a changes), b')
  end.

Definition exchanges (rounds : list Direction)
    (ab : CRSQLiteDB DB * CRSQLiteDB DB) : CRSQLiteDB DB * CRSQLiteDB DB :=
  fold_left exchange rounds ab.

(** A replica: its store opened, then its local writes. *)
Definition replica (site : list byte) (writes : list Write) : CRSQLiteDB DB :=
  let store := local_writes (open site) writes in
  mkCRSQLiteDB store (crsql_db_version store).

End Ledger.

(* ===================================================================== *)
(** * persistence.js: the local content store                            *)
(* ===================================================================== *)

Module Persistence.

(** A record of the object store [site_files]; [content] is the blob's
    bytes and [cachedAt] the time of the write. *)
Record FileRec := mkFile {
  f_key : string;
  f_siteId : string;
  f_path : string;
  f_contentType : string;
  f_content : list byte;
  f_size : N;
  f_cachedAt : Z
}.

#[global] Instance FileRec_eq_dec : EqDecision FileRec.
Proof. solve_decision. Defined.

(** The primary key [`${siteId}/${path}`]. *)
Definition file_key (siteId path : string) : string :=
  siteId +:+ "/" +:+ path.

(** [store.put(file)]: the object store keeps its records in the order of
    their keys; a record with the same key is overwritten. *)
Fixpoint put (f : FileRec) (db : list FileRec) : list FileRec :=
  match db with
  | [] => [f]
  | g :: rest =>
      match String.compare (f_key f) (f_key g) with
      | Eq => f :: rest
      | Lt => f :: g :: rest
      | Gt => g :: put f rest
      end
  end.

Definition storeFile (db : list FileRec) (siteId path : string)
    (content : list byte) (contentType : string) (now : Z) : list FileRec :=
  put {| f_key := file_key siteId path; f_siteId := siteId; f_path := path;
         f_contentType := contentType; f_content := content;
         f_size := N.of_nat (length content); f_cachedAt := now |} db.

(** [store.get(key)] *)
Definition getFile (db : list FileRec) (siteId path : string) : option FileRec :=
  find (fun f => String.eqb (f_key f) (file_key siteId path)) db.

(** [store.index('siteId').getAll(siteId)] *)
Definition getFilesForSite (db : list FileRec) (siteId : string) : list FileRec :=
  filter (fun f => f_siteId f = siteId) db.

End Persistence.

(* ===================================================================== *)
(** * transfer.js: the file-transfer protocol                            *)
(* ===================================================================== *)

Module Transfer.
Import Base64 Persistence.

Definition CHUNK_SIZE : N := 64 * 1024.

Record FileMeta := mkMeta {
  m_path : string;
  m_size : N;
  m_contentType : string
}.

#[global] Instance FileMeta_eq_dec : EqDecision FileMeta.
Proof. solve_decision. Defined.

(** The messages of the channel [file-transfer], discriminated by [type]. *)
Inductive Msg : Type :=
| FileListRequest (siteId : string)
| FileList (siteId : string) (files : list FileMeta)
| FileRequest (siteId path : string)
| FileStart (siteId path contentType : string) (size : N)
| FileChunk (siteId path data : string)
| FileEnd (siteId path : string)
| Unknown (type : string).

#[global] Instance Msg_eq_dec : EqDecision Msg.
Proof. solve_decision. Defined.

(** A value of [incomingTransfers]. *)
Record Transfer := mkTransfer {
  t_siteId : string;
  t_path : string;
  t_contentType : string;
  t_totalSize : N;
  t_receivedSize : N;
  t_chunks : list (list byte)
}.

#[global] Instance Transfer_eq_dec : EqDecision Transfer.
Proof. solve_decision. Defined.

(** How a promise was settled; a promise absent from [settled] is pending. *)
Inductive Settlement :=
| ResolvedFiles (files : list FileMeta)
| ResolvedTrue
| Rejected (message : string).

#[global] Instance Settlement_eq_dec : EqDecision Settlement.
Proof. solve_decision. Defined.

(** A callback registered with [setTimeout] by a request: the key it looks
    up, the promise its closure rejects and the message of the error. *)
Record Timer := mkTimer {
  tm_due : Z;
  tm_key : string;
  tm_promise : nat;
  tm_message : string
}.

#[global] Instance Timer_eq_dec : EqDecision Timer.
Proof. solve_decision. Defined.

(** The module-level state of transfer.js together with what it reaches:
    - [pendingRequests] maps a key to the promise whose [{resolve, reject}]
      pair is stored under it;
    - [sent] lists the calls of [sendTransferMessage], oldest first;
    - [progress] lists the calls of [notifyProgress], oldest first;
    - [files] is the object store of persistence.js. *)
Record State := mkState {
  pendingRequests : gmap string nat;
  incomingTransfers : gmap string Transfer;
  settled : gmap nat Settlement;
  nextPromise : nat;
  timers : list Timer;
  clock : Z;
  sent : list (string * Msg);
  progress : list (string * string * N * N);
  files : list FileRec
}.

Definition initial : State :=
  {| pendingRequests := ∅; incomingTransfers := ∅; settled := ∅;
     nextPromise := 0; timers := []; clock := 0; sent := [];
     progress := []; files := [] |}.

Definition with_pending (f : gmap string nat → gmap string nat) (st : State) : State :=
  mkState (f (pendingRequests st)) (incomingTransfers st) (settled st)
          (nextPromise st) (timers st) (clock st) (sent st) (progress st) (files st).

Definition with_incoming (f : gmap string Transfer → gmap string Transfer)
    (st : State) : State :=
  mkState (pendingRequests st) (f (incomingTransfers st)) (settled st)
          (nextPromise st) (timers st) (clock st) (sent st) (progress st) (files st).

Definition with_timers (f : list Timer → list Timer) (st : State) : State :=
  mkState (pendingRequests st) (incomingTransfers st) (settled st)
          (nextPromise st) (f (timers st)) (clock st) (sent st) (progress st) (files st).

Definition with_clock (now : Z) (st : State) : State :=
  mkState (pendingRequests st) (incomingTransfers st) (settled st)
          (nextPromise st) (timers st) now (sent st) (progress st) (files st).

Definition with_files (f : list FileRec → list FileRec) (st : State) : State :=
  mkState (pendingRequests st) (incomingTransfers st) (settled st)
          (nextPromise st) (timers st) (clock st) (sent st) (progress st) (f (files st)).

(** [sendTransferMessage(peerId, data)] *)
Definition sendTransferMessage (peerId : string) (data : Msg) (st : State) : State :=
  mkState (pendingRequests st) (incomingTransfers st) (settled st)
          (nextPromise st) (timers st) (clock st) (sent st ++ [(peerId, data)])
          (progress st) (files st).

(** [notifyProgress(siteId, path, received, total)] *)
Definition notifyProgress (siteId path : string) (received total : N)
    (st : State) : State :=
  mkState (pendingRequests st) (incomingTransfers st) (settled st)
          (nextPromise st) (timers st) (clock st) (sent st)
          (progress st ++ [(siteId, path, received, total)]) (files st).

(** [resolve(v)] and [reject(e)] of promise [p]: settling a promise that is
    already settled does nothing. *)
Definition settle (p : nat) (o : Settlement) (st : State) : State :=
  match settled st !! p with
  | Some _ => st
  | None =>
      mkState (pendingRequests st) (incomingTransfers st) (<[p := o]> (settled st))
              (nextPromise st) (timers st) (clock st) (sent st) (progress st)
              (files st)
  end.

(** The keys of the two maps, as the template strings build them. *)
Definition transferKey (peerId siteId path : string) : string :=
  peerId +:+ ":" +:+ siteId +:+ ":" +:+ path.
Definition listKey (siteId : string) : string := "list:" +:+ siteId.
Definition fileKey (siteId path : string) : string :=
  "file:" +:+ siteId +:+ ":" +:+ path.

(** [handleFileChunk]: [inr e] is the state left behind when [e] is thrown. *)
Definition handleFileChunk (fromPeerId siteId path data : string) (st : State)
    : State + (string * State) :=
  let key := transferKey fromPeerId siteId path in
  match incomingTransfers st !! key with
  | Some transfer =>
      match base64ToUint8 data with
      | Some bytes =>
          let transfer' :=
            {| t_siteId := t_siteId transfer; t_path := t_path transfer;
               t_contentType := t_contentType transfer;
               t_totalSize := t_totalSize transfer;
               t_receivedSize := t_receivedSize transfer + N.of_nat (length bytes);
               t_chunks := t_chunks transfer ++ [bytes] |} in
          inl (notifyProgress (t_siteId transfer') (t_path transfer')
                 (t_receivedSize transfer') (t_totalSize transfer')
                 (with_incoming (insert key transfer') st))
      | None => inr ("InvalidCharacterError", st)
      end
  | None => inl st
  end.

(** [finalizeIncomingFile] *)
Definition finalizeIncomingFile (fromPeerId siteId path : string) (st : State)
    : State :=
  let key := transferKey fromPeerId siteId path in
  match incomingTransfers st !! key with
  | Some transfer =>
      let blob := concat (t_chunks transfer) in
      let st := with_files (fun db =>
                  storeFile db siteId path blob (t_contentType transfer) (clock st)) st in
      let st := with_incoming (delete key) st in
      let fileKey := fileKey siteId path in
      match pendingRequests st !! fileKey with
      | Some fileRequest =>
          with_pending (delete fileKey) (settle fileRequest ResolvedTrue st)
      | None => st
      end
  | None => st
  end.

(** [sendFileList] *)
Definition sendFileList (peerId siteId : string) (st : State) : State :=
  let fileList :=
    map (fun f => {| m_path := f_path f; m_size := f_size f;
                     m_contentType := f_contentType f |})
        (getFilesForSite (files st) siteId) in
  sendTransferMessage peerId (FileList siteId fileList) st.

(** [bytes.slice(start, end)] for [0 <= start]. *)
Definition slice (bytes : list byte) (start stop : N) : list byte :=
  take (N.to_nat (stop - start)) (drop (N.to_nat start) bytes).

(** The loop of [sendFile]: one [file-chunk] per iteration, [offset]
    advancing by [CHUNK_SIZE] while it is below [bytes.length]. The loop
    runs at most [bytes.length] times, which is the fuel [sendFile] gives. *)
Fixpoint sendChunks (fuel : nat) (siteId path : string) (bytes : list byte)
    (offset : N) : list Msg :=
  match fuel with
  | O => []
  | S fuel' =>
      if (offset <? N.of_nat (length bytes))%N then
        let chunk := slice bytes offset (offset + CHUNK_SIZE) in
        FileChunk siteId path (uint8ToBase64 chunk)
        :: sendChunks fuel' siteId path bytes (offset + CHUNK_SIZE)
      else []
  end.

(** The messages [sendFile] hands to [sendTransferMessage], in order; none
    when the file is unknown. *)
Definition sendFileMessages (db : list FileRec) (siteId path : string) : list Msg :=
  match find (fun f => String.eqb (f_path f) path) (getFilesForSite db siteId) with
  | None => []
  | Some file =>
      let bytes := f_content file in
      FileStart siteId path (f_contentType file) (f_size file)
      :: sendChunks (length bytes) siteId path bytes 0
      ++ [FileEnd siteId path]
  end.

(** [sendFile]; the 10 ms pauses between the chunks are not part of the
    state. *)
Definition sendFile (peerId siteId path : string) (st : State) : State :=
  fold_left (fun st m => sendTransferMessage peerId m st)
            (sendFileMessages (files st) siteId path) st.

(** [handleTransferMessage] *)
Definition handleTransferMessage (fromPeerId : string) (msg : Msg) (st : State)
    : State + (string * State) :=
  match msg with
  | FileListRequest siteId => inl (sendFileList fromPeerId siteId st)
  | FileList siteId files =>
      match pendingRequests st !! listKey siteId with
      | Some listRequest =>
          inl (with_pending (delete (listKey siteId))
                 (settle listRequest (ResolvedFiles files) st))
      | None => inl st
      end
  | FileRequest siteId path => inl (sendFile fromPeerId siteId path st)
  | FileStart siteId path contentType size =>
      inl (with_incoming
             (insert (transferKey fromPeerId siteId path)
                {| t_siteId := siteId; t_path := path;
                   t_contentType := contentType; t_totalSize := size;
                   t_receivedSize := 0; t_chunks := [] |}) st)
  | FileChunk siteId path data => handleFileChunk fromPeerId siteId path data st
  | FileEnd siteId path => inl (finalizeIncomingFile fromPeerId siteId path st)
  | Unknown _ => inl st
  end.

(** The promise executor of [requestFileList]: the new promise is the one
    numbered [nextPromise]. *)
Definition requestFileList (peerId siteId : string) (st : State) : State * nat :=
  let p := nextPromise st in
  let st := mkState (<[listKey siteId := p]> (pendingRequests st))
              (incomingTransfers st) (settled st) (S p) (timers st) (clock st)
              (sent st) (progress st) (files st) in
  let st := sendTransferMessage peerId (FileListRequest siteId) st in
  (with_timers (fun ts => ts ++ [{| tm_due := clock st + 30000;
                                    tm_key := listKey siteId; tm_promise := p;
                                    tm_message := "Request timed out" |}]) st, p).

(** The promise executor in the loop of [importSiteFromPeer], for the file
    [path]. *)
Definition requestFile (peerId siteId path : string) (st : State) : State * nat :=
  let p := nextPromise st in
  let key := fileKey siteId path in
  let st := mkState (<[key := p]> (pendingRequests st))
              (incomingTransfers st) (settled st) (S p) (timers st) (clock st)
              (sent st) (progress st) (files st) in
  let st := sendTransferMessage peerId (FileRequest siteId path) st in
  (with_timers (fun ts => ts ++ [{| tm_due := clock st + 60000;
                                    tm_key := key; tm_promise := p;
                                    tm_message := "File transfer timed out: " +:+ path |}])
     st, p).

(** The callback of a request's [setTimeout]. *)
Definition fireTimer (t : Timer) (st : State) : State :=
  match pendingRequests st !! tm_key t with
  | Some _ =>
      settle (tm_promise t) (Rejected (tm_message t))
             (with_pending (delete (tm_key t)) st)
  | None => st
  end.

(** The timer to run next at time [now]: the one due first, the one
    registered first among those due together. *)
Fixpoint next_due (now : Z) (ts : list Timer) : option Timer :=
  match ts with
  | [] => None
  | t :: r =>
      match next_due now r with
      | Some u => if (tm_due u <? tm_due t)%Z then Some u else Some t
      | None => if (tm_due t <=? now)%Z then Some t else None
      end
  end.

Fixpoint run_timers (fuel : nat) (now : Z) (st : State) : State :=
  match fuel with
  | O => st
  | S fuel' =>
      match next_due now (timers st) with
      | None => st
      | Some t =>
          run_timers fuel' now
            (fireTimer t
               (with_timers (filter (fun u => tm_promise u ≠ tm_promise t)) st))
      end
  end.

(** Time passes until [now]: every timer due by then runs, in order. Each
    timer runs once, so the number of timers is fuel enough. *)
Definition advance (now : Z) (st : State) : State :=
  run_timers (length (timers st)) now (with_clock (Z.max (clock st) now) st).

(** How far a call of [importSiteFromPeer] has got: it awaits the file list,
    or the file [file] with [rest] still to request, or it has returned
    [true], or it has thrown the error of a rejected request. *)
Inductive Import :=
| AwaitList (peerId siteId : string) (request : nat)
| AwaitFile (peerId siteId : string) (file : FileMeta) (rest : list FileMeta)
            (completedFiles totalFiles : nat) (request : nat)
| Returned
| Thrown (message : string).

#[global] Instance Import_eq_dec : EqDecision Import.
Proof. solve_decision. Defined.

(** The head of the loop of [importSiteFromPeer]: with no file left the
    call returns; otherwise [onProgress] is called and the next file is
    requested. The calls of [onProgress] are collected in a list. *)
Definition requestNext (peerId siteId : string) (files : list FileMeta)
    (completedFiles totalFiles : nat) (st : State)
    (onProgress : list (nat * nat * string))
    : State * list (nat * nat * string) * Import :=
  match files with
  | [] => (st, onProgress, Returned)
  | file :: rest =>
      let '(st, p) := requestFile peerId siteId (m_path file) st in
      (st, onProgress ++ [(completedFiles, totalFiles, m_path file)],
       AwaitFile peerId siteId file rest completedFiles totalFiles p)
  end.

(** [importSiteFromPeer(peerId, siteId, onProgress)], up to its first
    [await]. *)
Definition importSiteFromPeer (peerId siteId : string) (st : State) : State * Import :=
  let '(st, p) := requestFileList peerId siteId st in
  (st, AwaitList peerId siteId p).

(** The call goes on once the promise it awaits is settled, and stays where
    it is while the promise is pending. *)
Definition resume (i : Import) (st : State) (onProgress : list (nat * nat * string))
    : State * list (nat * nat * string) * Import :=
  match i with
  | AwaitList peerId siteId p =>
      match settled st !! p with
      | Some (ResolvedFiles files) =>
          requestNext peerId siteId files 0 (length files) st onProgress
      | Some (Rejected message) => (st, onProgress, Thrown message)
      | _ => (st, onProgress, i)
      end
  | AwaitFile peerId siteId file rest completedFiles totalFiles p =>
      match settled st !! p with
      | Some (Rejected message) => (st, onProgress, Thrown message)
      | Some _ =>
          requestNext peerId siteId rest (S completedFiles) totalFiles st
            (onProgress ++ [(S completedFiles, totalFiles, m_path file)])
      | None => (st, onProgress, i)
      end
  | Returned | Thrown _ => (st, onProgress, i)
  end.

(** The messages a node has sent to [peerId] after the first [n]. *)
Definition outbox (peerId : string) (n : nat) (st : State) : list Msg :=
  map snd (filter (fun m => fst m = peerId) (drop n (sent st))).

(** A node receives messages from [fromPeerId], one after the other. *)
Definition receive (fromPeerId : string) (msgs : list Msg) (st : State) : State :=
  fold_left (fun st m =>
               match handleTransferMessage fromPeerId m st with
               | inl st' => st'
               | inr (_, st') => st'
               end) msgs st.

(** The events of the ledger. [initTransfer] registers one callback, with
    [ledger.onCustomMessage]; it calls [handleTransferMessage] for the
    channel [file-transfer]. The events [peer-join], [peer-ready],
    [peer-leave] and [sync] have no listener in transfer.js. *)
Inductive LedgerEvent :=
| CustomMessage (fromPeerId channel : string) (data : Msg)
| PeerJoin (peerId : string)
| PeerReady (peerId : string)
| PeerLeave (peerId : string)
| Sync (count : nat) (peerId : string).

Definition onLedgerEvent (ev : LedgerEvent) (st : State) : State + (string * State) :=
  match ev with
  | CustomMessage fromPeerId channel data =>
      if String.eqb channel "file-transfer"
      then handleTransferMessage fromPeerId data st
      else inl st
  | PeerJoin _ | PeerReady _ | PeerLeave _ | Sync _ _ => inl st
  end.

(** The state after an event, whether or not the handler threw. *)
Definition state_after (r : State + (string * State)) : State :=
  match r with
  | inl st => st
  | inr (_, st) => st
  end.


(** The string has no [:], as a node id in hexadecimal and a UUID have
    none. *)
Fixpoint colon_free (s : string) : bool :=
  match s with
  | EmptyString => true
  | String c r => negb (Ascii.eqb c ":") && colon_free r
  end.


End Transfer.

(* ===================================================================== *)
(** * ledger.js, [SignalingClient]: the reconnecting socket              *)
(* ===================================================================== *)

Module Signaling.

(** The events the client emits to its subscribers. *)
Inductive Event :=
| Disconnected
| Reconnecting (attempt : Z)
| Reconnected.

#[global] Instance Event_eq_dec : EqDecision Event.
Proof. solve_decision. Defined.

(** What a method does besides changing the fields: it emits an event,
    registers with [setTimeout] the callback that reconnects, sends the
    [join] message, or settles the promise of [connect]. *)
Inductive Effect :=
| Emit (e : Event)
| SetTimeout (delay : Z)
| SendJoin
| ResolveConnect
| RejectConnect.

Record Client := mkClient {
  reconnectAttempts : Z;
  shouldReconnect : bool;
  isInitialConnect : bool
}.

Definition maxReconnectAttempts : Z := 10.
Definition baseDelay : Z := 1000.
Definition maxDelay : Z := 30000.

(** A new client: [reconnectAttempts = 0], [shouldReconnect = true],
    [isInitialConnect = true]. *)
Definition new_client : Client := mkClient 0 true true.

(** [connect()], up to the creation of the socket. *)
Definition connect (c : Client) : Client :=
  mkClient (reconnectAttempts c) true (isInitialConnect c).

(** The listener [onOpen] of [connect]. *)
Definition onOpen (c : Client) : Client * list Effect :=
  (mkClient 0 (shouldReconnect c) false,
   (if isInitialConnect c then [] else [Emit Reconnected])
   ++ [SendJoin; ResolveConnect]).

(** The listener [onError] of [connect]. *)
Definition onError (c : Client) : list Effect :=
  if isInitialConnect c then [RejectConnect] else [].

(** [handleDisconnect()], the handler of the socket's [close]. *)
Definition handleDisconnect (c : Client) : Client * list Effect :=
  if negb (shouldReconnect c) then (c, [Emit Disconnected])
  else if (reconnectAttempts c <? maxReconnectAttempts)%Z then
    let c' := mkClient (reconnectAttempts c + 1) (shouldReconnect c)
                       (isInitialConnect c) in
    let delay := Z.min (baseDelay * 2 ^ (reconnectAttempts c' - 1)) maxDelay in
    (c', [Emit (Reconnecting (reconnectAttempts c')); SetTimeout delay])
  else (c, [Emit Disconnected]).

(** [disconnect()] *)
Definition disconnect (c : Client) : Client :=
  mkClient (reconnectAttempts c) false (isInitialConnect c).

(** The callback given to [setTimeout] runs [connect()] when
    [shouldReconnect] holds; here the new socket fails to open, so that its
    [error] and [close] events follow. *)
Definition failedReconnect (c : Client) : Client * list Effect :=
  if shouldReconnect c then
    let c := connect c in
    let '(c', effects) := handleDisconnect c in
    (c', onError c ++ effects)
  else (c, []).

(** [k] reconnections in a row that fail, with the effects of each. *)
Fixpoint retries (k : nat) (c : Client) : Client * list (list Effect) :=
  match k with
  | O => (c, [])
  | S k' =>
      let '(c', e) := failedReconnect c in
      let '(c'', es) := retries k' c' in
      (c'', e :: es)
  end.

(** The effects of [n] closes in a row: the close of the open socket, then
    [n - 1] reconnections that fail. *)
Definition closes (n : nat) (c : Client) : Client * list (list Effect) :=
  match n with
  | O => (c, [])
  | S m =>
      let '(c1, first) := handleDisconnect c in
      let '(c2, rest) := retries m c1 in
      (c2, first :: rest)
  end.

End Signaling.

(* ===================================================================== *)
(** * catalog.js: the catalog API                                        *)
(* ===================================================================== *)

Module Catalog.

(** A row of the table [sites]: TEXT columns are strings, INTEGER columns
    are integers. *)
Record Site := mkSite {
  id : string;
  name : string;
  url : string;
  description : string;
  thumbnail : string;
  owner_id : string;
  content_hash : string;
  file_count : Z;
  file_size : Z;
  added_at : string;
  updated_at : string
}.

(** The argument of [addSite]: every property may be missing. *)
Record SiteInput := mkInput {
  i_name : option string;
  i_url : option string;
  i_description : option string;
  i_thumbnail : option string;
  i_contentHash : option string;
  i_fileCount : option Z;
  i_fileSize : option Z
}.

(** The ledger once [initCatalog] has run: the node id and the rows of
    [sites] by primary key. The module variable [ledger] is [null] before
    that, which is [None] here. *)
Record Ledger := mkLedger {
  nodeId : string;
  sites : gmap string Site
}.

Inductive Error :=
| NotInitialized      (* Error('Catalog not initialized') *)
| SiteNotFound        (* Error('Site not found') *)
| ConstraintFailed.   (* the INSERT throws: the primary key is taken *)

(** [v || ''] for a string: [undefined] and [''] are the falsy ones. *)
Definition or_string (v : option string) (d : string) : string :=
  match v with
  | Some s => if String.eqb s "" then d else s
  | None => d
  end.

(** [v || 0] for an integer: [undefined] and [0] are the falsy ones. *)
Definition or_number (v : option Z) (d : Z) : Z :=
  match v with
  | Some n => if (n =? 0)%Z then d else n
  | None => d
  end.

(** [getSite(id)]: the first row of [SELECT * FROM sites WHERE id = ?], or
    [null]. *)
Definition getSite (ledger : option Ledger) (id : string) : option Site :=
  match ledger with
  | None => None
  | Some l => sites l !! id
  end.

(** [addSite(site)]; [uuid] is what [crypto.randomUUID()] returns in this
    call and [now] what [timestamp()] returns. The INSERT fails when a row
    has the primary key already. *)
Definition addSite (ledger : option Ledger) (uuid now : string) (site : SiteInput)
    : Error + (Ledger * Site) :=
  match ledger with
  | None => inl NotInitialized
  | Some l =>
      let newSite :=
        {| id := uuid;
           name := or_string (i_name site) "";
           url := or_string (i_url site) "";
           description := or_string (i_description site) "";
           thumbnail := or_string (i_thumbnail site) "";
           owner_id := nodeId l;
           content_hash := or_string (i_contentHash site) "";
           file_count := or_number (i_fileCount site) 0;
           file_size := or_number (i_fileSize site) 0;
           added_at := now;
           updated_at := now |} in
      match sites l !! id newSite with
      | Some _ => inl ConstraintFailed
      | None => inr (mkLedger (nodeId l) (<[id newSite := newSite]> (sites l)), newSite)
      end
  end.

(** [adoptSite(originalId)], which returns [{ newSite, originalId }]. *)
Definition adoptSite (ledger : option Ledger) (uuid now : string)
    (originalId : string) : Error + (Ledger * (Site * string)) :=
  match ledger with
  | None => inl NotInitialized
  | Some _ =>
      match getSite ledger originalId with
      | None => inl SiteNotFound
      | Some original =>
          match addSite ledger uuid now
                  {| i_name := Some (name original);
                     i_url := Some (url original);
                     i_description := Some (description original);
                     i_thumbnail := Some (thumbnail original);
                     i_contentHash := Some (content_hash original);
                     i_fileCount := Some (file_count original);
                     i_fileSize := Some (file_size original) |} with
          | inl e => inl e
          | inr (l', newSite) => inr (l', (newSite, originalId))
          end
      end
  end.

End Catalog.

(* ===================================================================== *)
(** * The service worker: requests to [/local/{siteId}/...]              *)
(* ===================================================================== *)

Module ServiceWorker.
Import Persistence.

Definition slash : ascii := ascii_of_N 47.
Definition dot : ascii := ascii_of_N 46.
Definition newline : string := String (ascii_of_N 10) "".

(** [s.split('/')] *)
Fixpoint split (sep : ascii) (s : string) : list string :=
  match s with
  | EmptyString => [EmptyString]
  | String c r =>
      let parts := split sep r in
      if Ascii.eqb c sep then EmptyString :: parts
      else match parts with
           | p :: ps => String c p :: ps
           | [] => [String c EmptyString]
           end
  end.

(** [s.includes(c)] for a one-character string [c]. *)
Fixpoint includes (c : ascii) (s : string) : bool :=
  match s with
  | EmptyString => false
  | String d r => Ascii.eqb d c || includes c r
  end.

(** [s.endsWith(suffix)] *)
Definition endsWith (suffix s : string) : bool :=
  let n := String.length s in
  let m := String.length suffix in
  (m <=? n)%nat && String.eqb (substring (n - m) m s) suffix.

Definition lower (c : ascii) : ascii :=
  let n := N_of_ascii c in
  if ((65 <=? n) && (n <=? 90))%N then ascii_of_N (n + 32) else c.

(** [s.toLowerCase()], on the letters A to Z. *)
Fixpoint toLowerCase (s : string) : string :=
  match s with
  | EmptyString => EmptyString
  | String c r => String (lower c) (toLowerCase r)
  end.

(** [n.toString()] for a size. *)
Definition toString (n : N) : string := NilZero.string_of_uint (N.to_uint n).

(** [s || d] for strings. *)
Definition or_else (s d : string) : string :=
  if String.eqb s "" then d else s.

Inductive Body :=
| Blob (bytes : list byte)
| Text (text : string).

Record Response := mkResponse {
  body : Body;
  status : Z;
  headers : list (string * string)
}.

#[global] Instance Body_eq_dec : EqDecision Body.
Proof. solve_decision. Defined.
#[global] Instance Response_eq_dec : EqDecision Response.
Proof. solve_decision. Defined.

(** The value of a response header, if the response has it. *)
Definition header (name : string) (r : Response) : option string :=
  option_map snd (find (fun h => String.eqb (fst h) name) (headers r)).

(** [url.pathname.split('/').filter(Boolean)] *)
Definition pathParts (pathname : string) : list string :=
  filter (fun p => p ≠ "") (split slash pathname).

(** The predicate of [allFiles.find] for a request to the root. *)
Definition is_root_index (f : FileRec) : bool :=
  String.eqb (f_path f) "index.html"
  || String.eqb (f_path f) "Index.html"
  || (negb (includes slash (f_path f)) && endsWith ".html" (toLowerCase (f_path f))).

Definition served (file : FileRec) : Response :=
  {| body := Blob (f_content file);
     status := 200;
     headers := [("Content-Type", or_else (f_contentType file) "application/octet-stream");
                 ("Content-Length", or_else (toString (f_size file)) "0");
                 ("X-Scrap-Yard", "cached")] |}.

Definition served_as_html (file : FileRec) : Response :=
  {| body := Blob (f_content file);
     status := 200;
     headers := [("Content-Type", "text/html"); ("X-Scrap-Yard", "cached")] |}.

(** The page of the 404 answer. *)
Definition debugHtml (filePath siteId : string) (allFiles : list FileRec) : string :=
  let fileList :=
    String.concat newline
      (map (fun f => "<li>" +:+ f_path f +:+ " (" +:+ toString (f_size f)
                     +:+ " bytes)</li>") allFiles) in
  "<!DOCTYPE html>" +:+ newline +:+
  "<html>" +:+ newline +:+
  "<head><title>Debug - File Not Found</title></head>" +:+ newline +:+
  "<body>" +:+ newline +:+
  "<h1>File not found: " +:+ filePath +:+ "</h1>" +:+ newline +:+
  "<h2>Site ID: " +:+ siteId +:+ "</h2>" +:+ newline +:+
  "<h2>Available files (" +:+ toString (N.of_nat (length allFiles)) +:+ "):</h2>"
    +:+ newline +:+
  "<ul>" +:+ or_else fileList "<li>No files found</li>" +:+ "</ul>" +:+ newline +:+
  "</body>" +:+ newline +:+
  "</html>".

(** [handleLocalRequest(request)], given the path name of the request's URL
    and the object store. The reads of the store do not fail here, so the
    answer 500 of the [catch] does not occur. *)
Definition handleLocalRequest (db : list FileRec) (pathname : string) : Response :=
  match pathParts pathname with
  | first :: siteId :: rest =>
      if negb (String.eqb first "local") then
        {| body := Text "Not Found"; status := 404; headers := [] |}
      else
        let filePath := or_else (String.concat "/" rest) "index.html" in
        let filePath :=
          if endsWith "/" filePath then filePath +:+ "index.html" else filePath in
        let file := getFile db siteId filePath in
        let file :=
          match file with
          | None =>
              if String.eqb filePath "index.html" || String.eqb filePath ""
              then find is_root_index (getFilesForSite db siteId)
              else None
          | Some _ => file
          end in
        match file with
        | Some file => served file
        | None =>
            let htmlFile :=
              if negb (includes dot filePath)
              then getFile db siteId (filePath +:+ ".html")
              else None in
            match htmlFile with
            | Some htmlFile => served_as_html htmlFile
            | None =>
                match getFile db siteId (filePath +:+ "/index.html") with
                | Some indexFile => served_as_html indexFile
                | None =>
                    {| body := Text (debugHtml filePath siteId
                                       (getFilesForSite db siteId));
                       status := 404;
                       headers := [("Content-Type", "text/html")] |}
                end
            end
        end
  | _ => {| body := Text "Not Found"; status := 404; headers := [] |}
  end.

(** [needle] occurs in [text]. *)
Definition occurs_in (needle text : string) : Prop :=
  ∃ before after, text = before +:+ needle +:+ after.

End ServiceWorker.

(* ===================================================================== *)
(** * Concrete states, used by the examples                              *)
(* ===================================================================== *)

Module Scenarios.
Import Base64 CRStore Ledger Persistence Transfer Catalog ServiceWorker.

(** ** Replicas *)

(** Replica A has added the site Alpha and renamed it; replica B has added
    Beta. *)
Definition writes_a : list Write :=
  [Insert "sites" [x01] [("name", VText "Alpha"); ("file_count", VInt 0)];
   Update "sites" [x01] [("name", VText "Alpha 2")]].
Definition writes_b : list Write :=
  [Insert "sites" [x02] [("name", VText "Beta")]].
Definition replica_a : CRSQLiteDB DB := replica [x0a] writes_a.
Definition replica_b : CRSQLiteDB DB := replica [x0b] writes_b.

(** A batch of two records for B: the first adds the name of the site
    [01], the second carries a primary key that is not base64. *)
Definition broken_batch : list WireChange :=
  [encode_change (mkChange "sites" [x01] "name" (VText "Alpha") 1 1 [x0a] 1 0);
   mkWire "sites" "!" "name" (VText "Gamma") 1 2 "Cg==" 1 0].

(** ** Transfers *)

(** A sender's store with one file of five bytes. *)
Definition hello_file : FileRec :=
  {| f_key := "s/a.txt"; f_siteId := "s"; f_path := "a.txt";
     f_contentType := "text/plain";
     f_content := [x68; x65; x6c; x6c; x6f]; f_size := 5; f_cachedAt := 0 |}.

(** A receiver that has asked [peerA] for [index.html] of site [s]. *)
Definition waiting_for_index : State :=
  fst (requestFile "peerA" "s" "index.html" initial).

(** The same receiver once [peerA] has announced the file. *)
Definition transfer_in_progress : State :=
  state_after (handleTransferMessage "peerA"
                 (FileStart "s" "index.html" "text/html" 10) waiting_for_index).

(** The same receiver when [peerB], which was not asked, has sent the
    file: announced, then ended. *)
Definition announced_by_other : State :=
  state_after (handleTransferMessage "peerB"
                 (FileStart "s" "index.html" "text/html" 0) waiting_for_index).
Definition sent_by_other : State :=
  state_after (handleTransferMessage "peerB" (FileEnd "s" "index.html")
                 announced_by_other).

(** A file list for site [s] is requested at time 0 and answered after one
    second; the list is requested again at 20 s and this time the peer
    stays silent. *)
Definition first_list_request : State * nat := requestFileList "peerA" "s" initial.
Definition first_list_answered : State :=
  state_after (handleTransferMessage "peerA" (FileList "s" [])
                 (advance 1000 (fst first_list_request))).
Definition second_list_request : State * nat :=
  requestFileList "peerA" "s" (advance 20000 first_list_answered).

(** Node [R] imports the site [s] from node [S], whose store holds
    [hello_file]: the request of the list, the answer, the request of the
    file, the file. *)
Definition sender0 : State := with_files (fun _ => [hello_file]) initial.
Definition import1 : State * Import := importSiteFromPeer "S" "s" initial.
Definition sender1 : State := receive "R" (outbox "S" 0 (fst import1)) sender0.
Definition import2 : State * list (nat * nat * string) * Import :=
  resume (snd import1) (receive "S" (outbox "R" 0 sender1) (fst import1)) [].
Definition sender2 : State :=
  receive "R" (outbox "S" 1 (fst (fst import2))) sender1.
Definition import3 : State * list (nat * nat * string) * Import :=
  resume (snd import2) (receive "S" (outbox "R" 1 sender2) (fst (fst import2)))
         (snd (fst import2)).

(** ** The catalog *)

Definition alpha : Site :=
  {| id := "a1"; name := "Alpha"; url := ""; description := "first";
     thumbnail := ""; owner_id := "node-a"; content_hash := "";
     file_count := 0; file_size := 0; added_at := "t0"; updated_at := "t0" |}.

(** The catalog of node B, which holds the row of A's site. *)
Definition catalog_b : Catalog.Ledger := mkLedger "node-b" {[ "a1" := alpha ]}.

(** ** The content store of a site *)

Definition index_page : FileRec :=
  mkFile "s/index.html" "s" "index.html" "text/html" [x68; x69] 2 0.
Definition about_page : FileRec :=
  mkFile "s/about.html" "s" "about.html" "application/xhtml+xml" [x3c; x3e] 2 0.
Definition app_js : FileRec :=
  mkFile "s/assets/app.js" "s" "assets/app.js" "" [x3b] 1 0.
Definition site_s : list FileRec := [about_page; app_js; index_page].

End Scenarios.

(* ===================================================================== *)
(** * persistence.js: the other operations of the content store          *)
(* ===================================================================== *)

Module StoreOps.
Import Persistence.

(** [store.delete(key)] *)
Definition deleteKey (key : string) (db : list FileRec) : list FileRec :=
  filter (fun f => f_key f ≠ key) db.

(** [deleteFilesForSite(siteId)]: the files of the site are read first,
    then the key of each is deleted. *)
Definition deleteFilesForSite (db : list FileRec) (siteId : string) : list FileRec :=
  fold_left (fun db file => deleteKey (f_key file) db) (getFilesForSite db siteId) db.

(** [files.reduce((total, file) => total + (file.size || 0), 0)] *)
Definition totalSize (files : list FileRec) : N :=
  fold_left (fun total file => (total + f_size file)%N) files 0%N.

(** [getSiteStorageSize(siteId)] *)
Definition getSiteStorageSize (db : list FileRec) (siteId : string) : N :=
  totalSize (getFilesForSite db siteId).

(** [getTotalStorageSize()] *)
Definition getTotalStorageSize (db : list FileRec) : N := totalSize db.

(** [isSiteCached(siteId)] *)
Definition isSiteCached (db : list FileRec) (siteId : string) : bool :=
  (0 <? length (getFilesForSite db siteId))%nat.

(** [copyFilesToSite(fromSiteId, toSiteId)]: the files of the source are
    read first, then each is stored under the destination; [now file] is
    the time at which the copy of [file] is written. *)
Definition copyFilesToSite (db : list FileRec) (fromSiteId toSiteId : string)
    (now : FileRec -> Z) : list FileRec :=
  fold_left (fun db file =>
               storeFile db toSiteId (f_path file) (f_content file)
                 (f_contentType file) (now file))
            (getFilesForSite db fromSiteId) db.

(** The record that [copyFilesToSite] writes for a file of the source. *)
Definition copy_of (toSiteId : string) (now : FileRec -> Z) (file : FileRec) : FileRec :=
  {| f_key := file_key toSiteId (f_path file); f_siteId := toSiteId;
     f_path := f_path file; f_contentType := f_contentType file;
     f_content := f_content file;
     f_size := N.of_nat (length (f_content file)); f_cachedAt := now file |}.

(** The string has no [/], as a UUID has none. *)
Fixpoint slash_free (s : string) : bool :=
  match s with
  | EmptyString => true
  | String c r => negb (Ascii.eqb c "/") && slash_free r
  end.

(** Every record sits under the key of its site and path, as [storeFile]
    writes it. *)
Definition consistent (db : list FileRec) : Prop :=
  ∀ f, f ∈ db → f_key f = file_key (f_siteId f) (f_path f).

(** The keys of the store are in strictly increasing order, as an object
    store keeps them. *)
Definition ordered (db : list FileRec) : Prop :=
  StronglySorted (fun f g => String.compare (f_key f) (f_key g) = Lt) db.

End StoreOps.

(* ===================================================================== *)
(** * transfer.js: a run of ledger events                                *)
(* ===================================================================== *)

Module TransferEvents.
Import Persistence Transfer.

(** The events of a run, handled in order by the one callback that
    [initTransfer] registers. The callback does not await
    [handleTransferMessage]: an error thrown there rejects a promise that
    nobody handles, and the module state stays as the handler left it. *)
Definition handle_events (events : list LedgerEvent) (st : State) : State :=
  fold_left (fun st ev => state_after (onLedgerEvent ev st)) events st.

Definition is_peer_leave (ev : LedgerEvent) : bool :=
  match ev with
  | PeerLeave _ => true
  | _ => false
  end.

(** The run without its [peer-leave] events. *)
Definition without_peer_leave (events : list LedgerEvent) : list LedgerEvent :=
  List.filter (fun ev => negb (is_peer_leave ev)) events.



End TransferEvents.
(* ===================================================================== *)
(** * transfer.js: an import between two nodes                           *)
(* ===================================================================== *)

Module TransferRun.
Import Persistence Transfer.


(** Two nodes joined by a channel that delivers every message, in order.
    [importer] is the module state of the node that runs
    [importSiteFromPeer], [call] says how far the call has got and
    [onProgress] lists the calls of its callback; [owner] is the module
    state of the peer. [owner_read] counts the messages of the importer
    that the owner has handled, [importer_read] those of the owner that
    the importer has handled. *)
Record Run := mkRun {
  importer : State;
  onProgress : list (nat * nat * string);
  call : Import;
  owner : State;
  owner_read : nat;
  importer_read : nat
}.

(** The importer, known to the owner as [me], calls
    [importSiteFromPeer(peer, siteId, onProgress)]. *)
Definition start (peer siteId : string) (importer owner : State) : Run :=
  let '(st, i) := importSiteFromPeer peer siteId importer in
  mkRun st [] i owner (length (sent importer)) (length (sent owner)).

(** One round: the owner handles what the importer has sent to it since
    the last round, the importer handles what the owner has sent back, and
    the call of [importSiteFromPeer] goes on. *)
Definition round (me peer : string) (x : Run) : Run :=
  let owner' := receive me (outbox peer (owner_read x) (importer x)) (owner x) in
  let importer' := receive peer (outbox me (importer_read x) owner') (importer x) in
  let '(st, log, i) := resume (call x) importer' (onProgress x) in
  mkRun st log i owner' (length (sent importer')) (length (sent owner')).

Definition rounds (n : nat) (me peer : string) (x : Run) : Run :=
  Nat.iter n (round me peer) x.






End TransferRun.

(* ===================================================================== *)
(** * catalog.js: the other operations on the table [sites]              *)
(* ===================================================================== *)

Module CatalogOps.
Import Catalog.

(** The argument [updates] of [updateSite]: an object that may carry any
    of the properties of a site. *)
Record SiteUpdate := mkUpdate {
  u_id : option string;
  u_name : option string;
  u_url : option string;
  u_description : option string;
  u_thumbnail : option string;
  u_owner_id : option string;
  u_content_hash : option string;
  u_file_count : option Z;
  u_file_size : option Z;
  u_added_at : option string;
  u_updated_at : option string
}.

Definition no_update : SiteUpdate :=
  mkUpdate None None None None None None None None None None None.

(** [{ ...site, ...updates, updated_at: now }] *)
Definition spread (site : Site) (updates : SiteUpdate) (now : string) : Site :=
  {| id := default (id site) (u_id updates);
     name := default (name site) (u_name updates);
     url := default (url site) (u_url updates);
     description := default (description site) (u_description updates);
     thumbnail := default (thumbnail site) (u_thumbnail updates);
     owner_id := default (owner_id site) (u_owner_id updates);
     content_hash := default (content_hash site) (u_content_hash updates);
     file_count := default (file_count site) (u_file_count updates);
     file_size := default (file_size site) (u_file_size updates);
     added_at := default (added_at site) (u_added_at updates);
     updated_at := now |}.

(** The row after [UPDATE sites SET name = ?, url = ?, description = ?,
    thumbnail = ?, owner_id = ?, content_hash = ?, file_count = ?,
    file_size = ?, updated_at = ? WHERE id = ?] with the values of
    [updated]: the columns [id] and [added_at] are not set. *)
Definition set_columns (row updated : Site) : Site :=
  {| id := id row;
     name := name updated;
     url := url updated;
     description := description updated;
     thumbnail := thumbnail updated;
     owner_id := owner_id updated;
     content_hash := or_string (Some (content_hash updated)) "";
     file_count := file_count updated;
     file_size := file_size updated;
     added_at := added_at row;
     updated_at := updated_at updated |}.

(** [updateSite(id, updates)]: the ledger after the call and the value
    returned, [None] for [null]. *)
Definition updateSite (ledger : option Ledger) (now : string) (id : string)
    (updates : SiteUpdate) : option Ledger * option Site :=
  match ledger with
  | None => (None, None)
  | Some l =>
      match getSite ledger id with
      | None => (ledger, None)
      | Some site =>
          let updated := spread site updates now in
          (Some (mkLedger (nodeId l)
                   (alter (fun row => set_columns row updated) id (sites l))),
           Some updated)
      end
  end.

(** [updateSiteFileStats(id, fileCount, fileSize)] *)
Definition updateSiteFileStats (ledger : option Ledger) (now : string) (id : string)
    (fileCount fileSize : Z) : option Ledger * option Site :=
  updateSite ledger now id
    (mkUpdate None None None None None None None (Some fileCount) (Some fileSize)
       None None).

(** [removeSite(id)] *)
Definition removeSite (ledger : option Ledger) (id : string) : option Ledger * bool :=
  match ledger with
  | None => (None, false)
  | Some l => (Some (mkLedger (nodeId l) (delete id (sites l))), true)
  end.

(** [isMySite(siteId)], called once the catalog is initialized or not:
    without a ledger [getSite] returns [null] and so the call [false]. *)
Definition isMySite (ledger : option Ledger) (siteId : string) : bool :=
  match getSite ledger siteId, ledger with
  | Some site, Some l => String.eqb (owner_id site) (nodeId l)
  | _, _ => false
  end.

(** The rows of the table. *)
Definition rows (l : Ledger) : list Site := (map_to_list (sites l)).*2.

(** [ORDER BY added_at DESC]: the rows by the text of [added_at], greatest
    first. *)
Definition later (a b : Site) : Prop :=
  String.leb (added_at b) (added_at a) = true.

#[global] Instance later_dec a b : Decision (later a b).
Proof. unfold later. apply _. Defined.

Definition order_by_added_at_desc (l : list Site) : list Site :=
  merge_sort later l.

(** [getAllSites()] *)
Definition getAllSites (ledger : option Ledger) : list Site :=
  match ledger with
  | None => []
  | Some l => order_by_added_at_desc (rows l)
  end.

(** [getMySites()] *)
Definition getMySites (ledger : option Ledger) : list Site :=
  match ledger with
  | None => []
  | Some l =>
      order_by_added_at_desc (filter (fun s => owner_id s = nodeId l) (rows l))
  end.

(** [getAvailableSites()] *)
Definition getAvailableSites (ledger : option Ledger) : list Site :=
  match ledger with
  | None => []
  | Some l =>
      order_by_added_at_desc
        (filter (fun s => owner_id s <> nodeId l /\ owner_id s <> "") (rows l))
  end.

(** [findMySiteByHash(contentHash)]: the first of the rows that the
    SELECT with [LIMIT 1] finds. *)
Definition findMySiteByHash (ledger : option Ledger) (contentHash : string)
    : option Site :=
  match ledger with
  | None => None
  | Some l =>
      if String.eqb contentHash "" then None
      else head (filter (fun s => owner_id s = nodeId l
                                  /\ content_hash s = contentHash) (rows l))
  end.

(** Every row is stored under its [id], the primary key. *)
Definition keyed (l : Ledger) : Prop :=
  forall k s, sites l !! k = Some s -> id s = k.

End CatalogOps.

(* ===================================================================== *)
(** * ledger.js, [WebRTCManager] and [Ledger]: peers and synchronisation *)
(* ===================================================================== *)

Module Sync.
Import CRStore Ledger.

(** [RTCDataChannel.readyState] *)
Inductive ReadyState := Connecting | Open | Closing | Closed.

(** A value of the map [peers]: [dc] is [None] for [null] and the state
    of the channel otherwise. *)
Record PeerConn := mkPeerConn {
  dc : option ReadyState;
  ready : bool;
  lastSyncedVersion : Z
}.

(** The messages of the data channel, discriminated by [type]. *)
Inductive ChannelMessage :=
| SyncRequest (version : Z)
| SyncResponse (changes : list WireChange) (version : Z)
| Changes (changes : list WireChange) (version : Z)
| Ping
| Pong
| Custom (channel data : string)
| Other (type : string).

(** The events that [Ledger.emit] is called with here. *)
Inductive Emitted :=
| EvSync (count : nat) (peerId : string)
| EvPeerReady (peerId : string)
| EvPeerLeave (peerId : string)
| EvDisconnected.

(** [peer.dc?.readyState === "open"] *)
Definition is_open (peer : PeerConn) : bool :=
  match dc peer with
  | Some Open => true
  | _ => false
  end.

(** [peers.get(peerId)]; the map [peers] is the list of its entries in the
    order of insertion. *)
Fixpoint peers_get (peerId : string) (peers : list (string * PeerConn)) : option PeerConn :=
  match peers with
  | [] => None
  | (k, peer) :: rest =>
      if String.eqb k peerId then Some peer else peers_get peerId rest
  end.

(** An assignment to a field of the connection object of [peerId]. *)
Definition peers_update (peerId : string) (f : PeerConn -> PeerConn) (peers : list (string * PeerConn))
    : list (string * PeerConn) :=
  map (fun '(k, peer) => if String.eqb k peerId then (k, f peer) else (k, peer)) peers.

(** [peers.delete(peerId)] *)
Definition peers_delete (peerId : string) (peers : list (string * PeerConn)) : list (string * PeerConn) :=
  filter (fun kp => fst kp <> peerId) peers.

(** The peers whose channel is open, in the order of the map. *)
Definition open_ids (peers : list (string * PeerConn)) : list string :=
  map fst (filter (fun kp => is_open (snd kp) = true) peers).

(** The connection object once [lastSyncedVersion] is set to [version]. *)
Definition synced (version : Z) (peer : PeerConn) : PeerConn :=
  mkPeerConn (dc peer) (ready peer) version.

Section Node.
(** The store behind the database of the node, as in the engine. *)
Context {Store : Type}.
Variable crsql_insert : Store -> Change -> option Store.
Variable crsql_select : Store -> Z -> list Change.
Variable crsql_version : Store -> Z.

(** A node: the fields of its [Ledger] and of the [WebRTCManager] the
    ledger holds, with what they have done: [webrtc] tells whether
    [this.webrtc] is set, [wire] lists the calls of [dc.send] with the
    peer of the channel, [emitted] the calls of [Ledger.emit] and
    [customCalls] those of the callback [onCustomMessage], which
    [initTransfer] registers. *)
Record Node := mkNode {
  database : CRSQLiteDB Store;
  webrtc : bool;
  connected : bool;
  lastBroadcastVersion : Z;
  peers : list (string * PeerConn);
  wire : list (string * ChannelMessage);
  emitted : list Emitted;
  customCalls : list (string * string * string)
}.

Definition with_database (d : CRSQLiteDB Store) (n : Node) : Node :=
  mkNode d (webrtc n) (connected n) (lastBroadcastVersion n) (peers n) (wire n)
         (emitted n) (customCalls n).

Definition with_peers (f : list (string * PeerConn) -> list (string * PeerConn))
    (n : Node) : Node :=
  mkNode (database n) (webrtc n) (connected n) (lastBroadcastVersion n)
         (f (peers n)) (wire n) (emitted n) (customCalls n).

Definition emit (e : Emitted) (n : Node) : Node :=
  mkNode (database n) (webrtc n) (connected n) (lastBroadcastVersion n) (peers n)
         (wire n) (emitted n ++ [e]) (customCalls n).

(** [peer.dc.send(JSON.stringify(message))] on the channel of [peerId] *)
Definition dc_send (peerId : string) (message : ChannelMessage) (n : Node) : Node :=
  mkNode (database n) (webrtc n) (connected n) (lastBroadcastVersion n) (peers n)
         (wire n ++ [(peerId, message)]) (emitted n) (customCalls n).

(** [createPeerConnection(peerId, initiator)], as far as the map goes:
    the initiator creates the channel, which is connecting. *)
Definition createPeerConnection (peerId : string) (initiator : bool) (n : Node) : Node :=
  match peers_get peerId (peers n) with
  | Some _ => n
  | None =>
      with_peers (fun ps => ps ++ [(peerId,
                    {| dc := if initiator then Some Connecting else None;
                       ready := false; lastSyncedVersion := 0 |})]) n
  end.

(** [removePeer(peerId)] *)
Definition removePeer (peerId : string) (n : Node) : Node :=
  match peers_get peerId (peers n) with
  | Some _ => with_peers (peers_delete peerId) n
  | None => n
  end.

(** [sendToPeer(peerId, message)] *)
Definition sendToPeer (peerId : string) (message : ChannelMessage) (n : Node)
    : Node * bool :=
  match peers_get peerId (peers n) with
  | Some peer =>
      if is_open peer then (dc_send peerId message n, true) else (n, false)
  | None => (n, false)
  end.

(** [sendCustom(peerId, channel, data)] of the ledger:
    [this.webrtc?.sendCustom(...) ?? false]. *)
Definition sendCustom (peerId channel data : string) (n : Node) : Node * bool :=
  if webrtc n then sendToPeer peerId (Custom channel data) n else (n, false).

(** The channel of [peerId] opens: its state is [open] and [dc.onopen]
    runs. *)
Definition channelOpen (peerId : string) (n : Node) : Node :=
  let n := with_peers (peers_update peerId (fun peer =>
             mkPeerConn (Some Open) true (lastSyncedVersion peer))) n in
  let n := emit (EvPeerReady peerId) n in
  let localVersion := getVersion (database n) in
  fst (sendToPeer peerId (SyncRequest localVersion) n).

(** The channel of [peerId] closes: its state is [closed] and
    [dc.onclose] runs. *)
Definition channelClose (peerId : string) (n : Node) : Node :=
  with_peers (peers_update peerId (fun peer =>
    mkPeerConn (Some Closed) false (lastSyncedVersion peer))) n.

(** [peerConn.lastSyncedVersion = version] *)
Definition setLastSynced (peerId : string) (version : Z) (n : Node) : Node :=
  with_peers (peers_update peerId (synced version)) n.

(** The callback [onChangesReceived] of the ledger; [Some e] is the error
    thrown by [applyChanges], in which case no event is emitted. *)
Definition onChangesReceived (changes : list WireChange) (fromPeerId : string)
    (n : Node) : Node * option Error :=
  match applyChanges crsql_insert crsql_version (database n) changes with
  | (d, None) => (emit (EvSync (length changes) fromPeerId) (with_database d n), None)
  | (d, Some e) => (with_database d n, Some e)
  end.

(** The cases [sync-response] and [changes] of [handleChannelMessage]. *)
Definition receiveChanges (changes : list WireChange) (version : Z)
    (fromPeerId : string) (n : Node) : Node * option Error :=
  if (0 <? length changes)%nat then
    match onChangesReceived changes fromPeerId n with
    | (n, None) => (setLastSynced fromPeerId version n, None)
    | (n, Some e) => (n, Some e)
    end
  else (setLastSynced fromPeerId version n, None).

(** [handleChannelMessage(msg, fromPeerId, peerConn)]; [Some e] is the
    error with which the call rejects. *)
Definition handleChannelMessage (msg : ChannelMessage) (fromPeerId : string)
    (n : Node) : Node * option Error :=
  match msg with
  | SyncRequest version =>
      let '(d, changes) :=
        getChanges crsql_select crsql_version (database n) version in
      let n := with_database d n in
      (fst (sendToPeer fromPeerId (SyncResponse changes (getVersion d)) n), None)
  | SyncResponse changes version => receiveChanges changes version fromPeerId n
  | Changes changes version => receiveChanges changes version fromPeerId n
  | Ping => (fst (sendToPeer fromPeerId Pong n), None)
  | Pong => (n, None)
  | Custom channel data =>
      (mkNode (database n) (webrtc n) (connected n) (lastBroadcastVersion n)
              (peers n) (wire n) (emitted n)
              (customCalls n ++ [(fromPeerId, channel, data)]), None)
  | Other _ => (n, None)
  end.

(** The loop of [broadcastChanges(changes, version)] over the map. *)
Fixpoint broadcastLoop (message : ChannelMessage) (version : Z) (todo : list (string * PeerConn))
    (n : Node) : Node :=
  match todo with
  | [] => n
  | (peerId, peer) :: rest =>
      if is_open peer then
        broadcastLoop message version rest
          (setLastSynced peerId version (dc_send peerId message n))
      else broadcastLoop message version rest n
  end.

Definition broadcastChanges (changes : list WireChange) (version : Z) (n : Node)
    : Node :=
  broadcastLoop (Changes changes version) version (peers n) n.

(** [broadcastLocalChanges()] of the ledger *)
Definition broadcastLocalChanges (n : Node) : Node :=
  if negb (webrtc n) || negb (connected n) then n
  else
    let '(d, changes) :=
      getChanges crsql_select crsql_version (database n) (lastBroadcastVersion n) in
    let n := with_database d n in
    if (0 <? length changes)%nat then
      let version := getVersion d in
      let n := broadcastChanges changes version n in
      mkNode (database n) (webrtc n) (connected n) version (peers n) (wire n)
             (emitted n) (customCalls n)
    else n.

(** [getConnectedPeers()] *)
Definition getConnectedPeers (n : Node) : list string :=
  map fst (filter (fun kp => ready (snd kp) = true) (peers n)).

(** [getPeers()] of the ledger: [this.webrtc?.getConnectedPeers() || []] *)
Definition getPeers (n : Node) : list string :=
  if webrtc n then getConnectedPeers n else [].

(** The messages sent on the channel of [peerId] after the first
    [already] of the log. *)
Definition sent_to (peerId : string) (already : nat) (n : Node) : list ChannelMessage :=
  map snd (filter (fun m => fst m = peerId) (drop already (wire n))).

(** The change records a message carries. *)
Definition carried (m : ChannelMessage) : list WireChange :=
  match m with
  | SyncResponse changes _ | Changes changes _ => changes
  | _ => []
  end.

(** What the SELECT of [getChanges] promises with
    [WHERE db_version > ?]. *)
Definition select_is_above : Prop :=
  forall store since c, c ∈ crsql_select store since -> (since < db_version c)%Z.

End Node.

Arguments Node : clear implicits.

End Sync.

(** A node on the store of [CRStore], with a peer whose channel is open
    and a peer whose channel is closed. *)
Module SyncScenarios.
Import CRStore Ledger Sync Scenarios.

Definition node_a : Node DB :=
  mkNode replica_a true true 0
    [("b", mkPeerConn (Some Open) true 0); ("c", mkPeerConn (Some Closed) false 0)]
    [] [] [].

Definition node_b : Node DB :=
  mkNode replica_b true true 0 [("a", mkPeerConn (Some Open) true 0)] [] [] [].

End SyncScenarios.

(* ===================================================================== *)
(** * ledger.js, [SignalingClient]: what happens to a client             *)
(* ===================================================================== *)

Module SignalingRun.
Import Signaling.

(** What happens to a client: a call of [connect()] or [disconnect()], an
    event [open], [error] or [close] of its socket, or the callback given
    to [setTimeout] by [handleDisconnect]. *)
Inductive Call :=
| CallConnect
| SocketOpen
| SocketError
| SocketClose
| TimerFires
| CallDisconnect.

#[global] Instance Call_eq_dec : EqDecision Call.
Proof. solve_decision. Defined.

Definition step (call : Call) (c : Client) : Client * list Effect :=
  match call with
  | CallConnect => (connect c, [])
  | SocketOpen => onOpen c
  | SocketError => (c, onError c)
  | SocketClose => handleDisconnect c
  | TimerFires => if shouldReconnect c then (connect c, []) else (c, [])
  | CallDisconnect => (disconnect c, [])
  end.

(** The calls in order, with the effects of all of them. *)
Fixpoint run (calls : list Call) (c : Client) : Client * list Effect :=
  match calls with
  | [] => (c, [])
  | call :: rest =>
      let '(c1, effects) := step call c in
      let '(c2, more) := run rest c1 in
      (c2, effects ++ more)
  end.

(** The effect is within the schedule: a timer between one and thirty
    seconds, an attempt numbered from 1 to 10. *)
Definition within_schedule (e : Effect) : Prop :=
  match e with
  | SetTimeout delay => (baseDelay <= delay <= maxDelay)%Z
  | Emit (Reconnecting attempt) => (1 <= attempt <= maxReconnectAttempts)%Z
  | _ => True
  end.

(** The effect starts a reconnection. *)
Definition reconnects (e : Effect) : bool :=
  match e with
  | SetTimeout _ | Emit (Reconnecting _) => true
  | _ => false
  end.

(** The timers among the effects. *)
Definition timeouts (effects : list Effect) : list Z :=
  omap (fun e => match e with SetTimeout delay => Some delay | _ => None end) effects.

End SignalingRun.

(* ===================================================================== *)
(** * ledger.js [query] and catalog.js [rowsToSites]                     *)
(* ===================================================================== *)

Module QueryResult.

Section Rows.
(** The values of the cells. *)
Context {V : Type}.

(** An object whose property names are column names: its properties in
    the order of their creation. *)
Definition Obj (A : Type) : Type := list (string * A).

(** [o[k]], [None] for [undefined]. *)
Fixpoint obj_get {A} (o : Obj A) (k : string) : option A :=
  match o with
  | [] => None
  | (k', v) :: rest => if String.eqb k' k then Some v else obj_get rest k
  end.

(** [o[k] = v]: a property that exists keeps its place. *)
Fixpoint obj_set {A} (k : string) (v : A) (o : Obj A) : Obj A :=
  match o with
  | [] => [(k, v)]
  | (k', v') :: rest =>
      if String.eqb k' k then (k', v) :: rest else (k', v') :: obj_set k v rest
  end.

(** [{ columns, rows }]; a cell is [None] when it is [undefined]. *)
Record Result := mkResult {
  columns : list string;
  rows : list (list (option V))
}.

(** [query(sql, params)], given the rows that [execO] returns. *)
Definition query (objRows : list (Obj V)) : Result :=
  match objRows with
  | [] => mkResult [] []
  | first :: _ =>
      let columns := map fst first in
      mkResult columns (map (fun row => map (fun col => obj_get row col) columns) objRows)
  end.

(** [cols.forEach((col, i) => { site[col] = row[i]; })], from index [i] on. *)
Fixpoint assign (cols : list string) (i : nat) (row : list (option V))
    (site : Obj (option V)) : Obj (option V) :=
  match cols with
  | [] => site
  | col :: rest => assign rest (S i) row (obj_set col (mjoin (row !! i)) site)
  end.

(** [rowsToSites(result)] *)
Definition rowsToSites (result : Result) : list (Obj (option V)) :=
  map (fun row => assign (columns result) 0 row []) (rows result).

(** [sites[0] || null] *)
Definition first_or_null (sites : list (Obj (option V))) : option (Obj (option V)) :=
  head sites.

(** The object with every property defined. *)
Definition defined (o : Obj V) : Obj (option V) :=
  map (fun kv => (fst kv, Some (snd kv))) o.

End Rows.

Arguments Result : clear implicits.

End QueryResult.

(* ===================================================================== *)
(** * ledger.js, [CRSQLiteDB.open]: the site id in hexadecimal           *)
(* ===================================================================== *)

Module NodeId.

(** The digit of [n < 16] in base 16: [0-9a-f]. *)
Definition hex_digit (n : N) : ascii :=
  if (n <? 10)%N then ascii_of_N (48 + n) else ascii_of_N (87 + n).

(** [b.toString(16)] for a byte: one digit below 16, two from 16 on. *)
Definition toString16 (b : byte) : string :=
  let n := Byte.to_N b in
  if (n <? 16)%N then String (hex_digit n) EmptyString
  else String (hex_digit (n / 16)) (String (hex_digit (n mod 16)) EmptyString).

(** [s.padStart(targetLength, fill)] for a filler of one character. *)
Definition padStart (targetLength : nat) (fill : ascii) (s : string) : string :=
  string_of_list_ascii (repeat fill (targetLength - String.length s)) +:+ s.

(** [Array.from(siteIdBytes).map((b) => b.toString(16).padStart(2, "0")).join("")] *)
Definition siteIdHex (siteIdBytes : list byte) : string :=
  String.concat "" (map (fun b => padStart 2 "0" (toString16 b)) siteIdBytes).

(** The value of a digit of base 16, 0 for any other character. *)
Definition hex_value (c : ascii) : N :=
  let n := N_of_ascii c in
  if ((48 <=? n) && (n <=? 57))%N then n - 48
  else if ((97 <=? n) && (n <=? 102))%N then n - 87
  else 0.

(** The character is a digit of base 16 in lower case. *)
Definition is_hex (c : ascii) : bool :=
  let n := N_of_ascii c in
  ((48 <=? n) && (n <=? 57) || (97 <=? n) && (n <=? 102))%N.

End NodeId.

(* ===================================================================== *)
(** * app.js: adding a site with its files                               *)
(* ===================================================================== *)

Module App.
Import Persistence Catalog CatalogOps ServiceWorker.

(** An entry [{ path, file }] of [pendingFiles]: the path, [file.type] and
    the bytes of the file; [file.size] is their number. *)
Record PendingFile := mkPending {
  pf_path : string;
  pf_type : string;
  pf_bytes : list byte
}.

Section Upload.
(** [guessContentType(path)], the content type by the extension. *)
Variable guessContentType : string -> string.

(** The loop that stores the pending files of a site; [now file] is the
    time at which [file] is written. *)
Definition storePending (db : list FileRec) (siteId : string)
    (now : PendingFile -> Z) (pendingFiles : list PendingFile) : list FileRec :=
  fold_left (fun db file =>
               storeFile db siteId (pf_path file) (pf_bytes file)
                 (or_else (pf_type file) (guessContentType (pf_path file)))
                 (now file))
            pendingFiles db.

(** [totalSize += file.size] over the pending files. *)
Definition pendingSize (pendingFiles : list PendingFile) : Z :=
  fold_left (fun total file => (total + Z.of_nat (length (pf_bytes file)))%Z)
            pendingFiles 0%Z.

(** [handleAddSite(e)] as far as the catalog and the content store go,
    for the trimmed [name] and [description] of the form: the ledger and
    the store after the call. [added] and [updated] are the timestamps of
    [addSite] and of [updateSiteFileStats]. An error of [addSite] is
    caught and nothing is stored. *)
Definition handleAddSite (ledger : option Ledger) (db : list FileRec)
    (uuid added updated : string) (now : PendingFile -> Z)
    (name description : string) (pendingFiles : list PendingFile)
    : option Ledger * list FileRec :=
  if String.eqb name "" || (length pendingFiles =? 0)%nat then (ledger, db)
  else
    match addSite ledger uuid added
            {| i_name := Some name; i_url := Some ""; i_description := Some description;
               i_thumbnail := Some ""; i_contentHash := None; i_fileCount := None;
               i_fileSize := None |} with
    | inl _ => (ledger, db)
    | inr (l, site) =>
        let db := storePending db (id site) now pendingFiles in
        (fst (updateSiteFileStats (Some l) updated (id site)
                (Z.of_nat (length pendingFiles)) (pendingSize pendingFiles)),
         db)
    end.

(** The record that the loop writes for a pending file. *)
Definition stored_pending (siteId : string) (now : PendingFile -> Z)
    (file : PendingFile) : FileRec :=
  {| f_key := file_key siteId (pf_path file); f_siteId := siteId;
     f_path := pf_path file;
     f_contentType := or_else (pf_type file) (guessContentType (pf_path file));
     f_content := pf_bytes file;
     f_size := N.of_nat (length (pf_bytes file)); f_cachedAt := now file |}.

End Upload.

End App.

(* ===================================================================== *)
(** * sw.js: a file whose path has a space                               *)
(* ===================================================================== *)

Module ServiceWorkerScenarios.
Import Persistence.

(** A page stored for site [s] under the path [a b.html]. *)
Definition spaced_page : FileRec :=
  {| f_key := file_key "s" "a b.html"; f_siteId := "s"; f_path := "a b.html";
     f_contentType := "text/html"; f_content := []; f_size := 0;
     f_cachedAt := 0 |}.

End ServiceWorkerScenarios.
(* ===================================================================== *)
(** * Lemmas and theorems                                               *)
(* ===================================================================== *)

(** Linear arithmetic with division and remainder by constants. *)
Ltac div_lia := zify; Z.to_euclidean_division_equations; lia.

(** ** Base64: decoding undoes encoding *)

Section Base64Facts.
Import Base64.

Example btoa_Man : btoa "Man" = "TWFu".
Proof. reflexivity. Qed.

Example btoa_Ma : btoa "Ma" = "TWE=".
Proof. reflexivity. Qed.

Example atob_padded : atob "TWE=" = Some "Ma".
Proof. reflexivity. Qed.

Example atob_unpadded_with_spaces : atob "T W E" = Some "Ma".
Proof. reflexivity. Qed.

Example atob_bad_length : atob "TWFuT" = None.
Proof. reflexivity. Qed.

Example atob_bad_character : atob "TW*u" = None.
Proof. reflexivity. Qed.

(** Induction on a list three elements at a time, as the encoder reads it. *)
Lemma list_ind3 {A} (P : list A → Prop) :
  P [] → (∀ a, P [a]) → (∀ a b, P [a; b]) →
  (∀ a b c r, P r → P (a :: b :: c :: r)) →
  ∀ l, P l.
Proof.
  intros H0 H1 H2 H3 l.
  enough (P l ∧ (∀ a, P (a :: l)) ∧ (∀ a b, P (a :: b :: l))) by tauto.
  induction l as [|x l (IH0 & IH1 & IH2)]; [by auto|].
  repeat split; auto.
Qed.

(** A property checked on the 64 sextets holds of every sextet. *)
Lemma sextet_cases (f : N → bool) :
  forallb f (map N.of_nat (seq 0 64)) = true → ∀ n, sextet n → f n = true.
Proof.
  intros Hf n Hn. rewrite forallb_forall in Hf. apply Hf.
  apply in_map_iff. exists (N.to_nat n). split; [lia|].
  apply in_seq. unfold sextet in Hn. lia.
Qed.

Lemma b64_index_char n : sextet n → b64_index (b64_char n) = Some n.
Proof.
  intros Hn.
  pose proof (sextet_cases
    (fun n => match b64_index (b64_char n) with
              | Some m => (m =? n)%N
              | None => false
              end) eq_refl n Hn) as H.
  cbv beta in H. destruct (b64_index (b64_char n)); [|done].
  apply N.eqb_eq in H. by subst.
Qed.

Lemma b64_char_not_pad n : sextet n → Ascii.eqb (b64_char n) pad_char = false.
Proof.
  intros Hn. apply negb_true_iff.
  exact (sextet_cases (fun n => negb (Ascii.eqb (b64_char n) pad_char)) eq_refl n Hn).
Qed.

Lemma b64_char_not_space n : sextet n → is_ascii_whitespace (b64_char n) = false.
Proof.
  intros Hn. apply negb_true_iff.
  exact (sextet_cases (fun n => negb (is_ascii_whitespace (b64_char n))) eq_refl n Hn).
Qed.

Lemma body_sextets l : Forall octet l → Forall sextet (body l).
Proof.
  induction l as [|a|a b|a b c r IH] using list_ind3; intros Hl; simpl.
  - constructor.
  - inversion_clear Hl as [|? ? Ha _]. unfold octet, sextet in *.
    repeat (constructor; [div_lia|]); constructor.
  - inversion_clear Hl as [|? ? Ha Hl']. inversion_clear Hl' as [|? ? Hb _].
    unfold octet, sextet in *. repeat (constructor; [div_lia|]); constructor.
  - inversion_clear Hl as [|? ? Ha Hl']. inversion_clear Hl' as [|? ? Hb Hl''].
    inversion_clear Hl'' as [|? ? Hc Hr].
    unfold octet, sextet in *. repeat (constructor; [div_lia|]). by apply IH.
Qed.

Lemma padding_step (a b c : N) r : padding (a :: b :: c :: r) = padding r.
Proof.
  unfold padding. cbn [length].
  change (S (S (S (length r)))) with (3 + length r)%nat.
  by rewrite <- (Nat.Div0.add_mod_idemp_l 3).
Qed.

Lemma encode_octets_body l :
  encode_octets l = map b64_char (body l) ++ padding l.
Proof.
  induction l as [|a|a b|a b c r IH] using list_ind3; try reflexivity.
  cbn [encode_octets body map app]. by rewrite IH, padding_step.
Qed.

Lemma decode_body l : Forall octet l → decode_sextets (body l) = l.
Proof.
  induction l as [|a|a b|a b c r IH] using list_ind3; intros Hl.
  - reflexivity.
  - inversion_clear Hl as [|? ? Ha _]. unfold octet in *.
    cbn [body decode_sextets]. f_equal. div_lia.
  - inversion_clear Hl as [|? ? Ha Hl']. inversion_clear Hl' as [|? ? Hb _].
    unfold octet in *. cbn [body decode_sextets]. repeat f_equal; div_lia.
  - inversion_clear Hl as [|? ? Ha Hl']. inversion_clear Hl' as [|? ? Hb Hl''].
    inversion_clear Hl'' as [|? ? Hc Hr]. unfold octet in *.
    cbn [body decode_sextets]. rewrite (IH Hr). repeat f_equal; div_lia.
Qed.

(** The body never has a length of the form [4k+1]; with the padding the
    length is a multiple of four. *)
Lemma body_length l :
  (length (body l) mod 4 ≠ 1)%nat
  ∧ ((length (body l) + length (padding l)) mod 4 = 0)%nat.
Proof.
  induction l as [|a|a b|a b c r [IH1 IH2]] using list_ind3;
    try (split; [discriminate | reflexivity]).
  rewrite padding_step. cbn [body length].
  change (S (S (S (S (length (body r)))))) with (4 + length (body r))%nat.
  split.
  - rewrite <- (Nat.Div0.add_mod_idemp_l 4). exact IH1.
  - rewrite <- Nat.add_assoc, <- (Nat.Div0.add_mod_idemp_l 4). exact IH2.
Qed.

Lemma sextets_of_chars ns :
  Forall sextet ns → sextets_of (map b64_char ns) = Some ns.
Proof.
  induction 1 as [|n ns Hn _ IH]; [reflexivity|].
  cbn [map sextets_of]. by rewrite (b64_index_char n Hn), IH.
Qed.

Lemma padding_cases l :
  padding l = [] ∨ padding l = [pad_char] ∨ padding l = [pad_char; pad_char].
Proof.
  unfold padding. destruct (length l mod 3)%nat as [|[|[|?]]]; auto.
Qed.

Lemma strip_padding_body ns p :
  Forall sextet ns →
  p = [] ∨ p = [pad_char] ∨ p = [pad_char; pad_char] →
  strip_padding (map b64_char ns ++ p) = map b64_char ns.
Proof.
  intros Hns Hp. unfold strip_padding. rewrite rev_app_distr.
  assert (Hall : ∀ q, In q (map b64_char ns) → Ascii.eqb q pad_char = false).
  { intros q Hin. apply in_map_iff in Hin as (n & <- & Hn). apply b64_char_not_pad.
    rewrite Forall_forall in Hns. by apply Hns, list_elem_of_In. }
  assert (Hpp : Ascii.eqb pad_char pad_char = true) by apply Ascii.eqb_refl.
  assert (Hhd : ∀ q r, rev (map b64_char ns) = q :: r → Ascii.eqb q pad_char = false).
  { intros q r Hr. apply Hall, in_rev. rewrite Hr. by left. }
  revert Hhd. generalize (rev_involutive (map b64_char ns)).
  generalize (rev (map b64_char ns)) as t. intros t Ht Hhd.
  destruct Hp as [-> | [-> | ->]]; cbn [rev app].
  - rewrite app_nil_r.
    destruct t as [|q [|q' r]]; [by rewrite <- Ht| |];
      by rewrite (Hhd _ _ eq_refl).
  - destruct t as [|q r].
    + rewrite <- Ht. reflexivity.
    + cbn [app]. by rewrite Hpp, (Hhd _ _ eq_refl).
  - cbn [app]. by rewrite Hpp.
Qed.

Lemma no_whitespace ns p :
  Forall sextet ns →
  p = [] ∨ p = [pad_char] ∨ p = [pad_char; pad_char] →
  filter (fun c => negb (is_ascii_whitespace c)) (map b64_char ns ++ p)
  = map b64_char ns ++ p.
Proof.
  intros Hns Hp.
  assert (Hpad : filter (fun c => negb (is_ascii_whitespace c)) p = p).
  { destruct Hp as [-> | [-> | ->]]; reflexivity. }
  induction Hns as [|n ns Hn _ IH]; [by apply Hpad|].
  cbn [map app]. rewrite filter_cons. rewrite (b64_char_not_space n Hn). cbn.
  rewrite decide_True by done. by rewrite IH.
Qed.

(** [atob(btoa(s)) = s] *)
Lemma atob_btoa s : atob (btoa s) = Some s.
Proof.
  unfold atob, btoa. rewrite list_ascii_of_string_of_list_ascii.
  set (l := map N_of_ascii (list_ascii_of_string s)).
  assert (Hl : Forall octet l).
  { apply Forall_forall. intros n Hn.
    apply list_elem_of_In, in_map_iff in Hn as (c & <- & _). apply N_ascii_bounded. }
  pose proof (body_sextets l Hl) as Hb.
  pose proof (padding_cases l) as Hp.
  pose proof (body_length l) as [Hlen1 Hlen2].
  rewrite encode_octets_body, (no_whitespace _ _ Hb Hp).
  rewrite length_app, length_map, Hlen2. cbn [Nat.eqb].
  rewrite (strip_padding_body _ _ Hb Hp), length_map.
  destruct (length (body l) mod 4 =? 1)%nat eqn:E; [apply Nat.eqb_eq in E; done|].
  rewrite (sextets_of_chars _ Hb), (decode_body _ Hl). f_equal.
  subst l. rewrite map_map.
  rewrite (map_ext _ id), map_id; [apply string_of_list_ascii_of_string|].
  intros c. apply ascii_N_embedding.
Qed.

(** [base64ToUint8(uint8ToBase64(bytes))] gives [bytes] back. *)
Lemma base64ToUint8_uint8ToBase64 bytes :
  base64ToUint8 (uint8ToBase64 bytes) = Some bytes.
Proof.
  unfold base64ToUint8, uint8ToBase64. rewrite atob_btoa.
  rewrite list_ascii_of_string_of_list_ascii, map_map. f_equal.
  rewrite (map_ext _ id); [apply map_id|]. intros b. apply byte_of_ascii_of_byte.
Qed.
End Base64Facts.

(** ** transfer.js *)

Section TransferFacts.
Import Base64 Persistence Transfer Scenarios TransferEvents.

Lemma CHUNK_SIZE_pos : (0 < CHUNK_SIZE)%N.
Proof. reflexivity. Qed.

Lemma slice_chunk (bytes : list byte) (offset size : N) :
  slice bytes offset (offset + size)
  = take (N.to_nat size) (drop (N.to_nat offset) bytes).
Proof. unfold slice. f_equal. lia. Qed.

(** The loop of [sendFile] cuts [bytes] from [offset] on into pieces of at
    most [CHUNK_SIZE] bytes, whenever the fuel covers the bytes left. *)
Lemma sendChunks_pieces siteId path (bytes : list byte) fuel :
  ∀ offset,
    (length bytes ≤ N.to_nat offset + fuel)%nat →
    ∃ pieces : list (list byte),
      sendChunks fuel siteId path bytes offset
      = map (fun c => FileChunk siteId path (uint8ToBase64 c)) pieces
      ∧ concat pieces = drop (N.to_nat offset) bytes
      ∧ Forall (fun c => (N.of_nat (length c) ≤ CHUNK_SIZE)%N) pieces.
Proof.
  pose proof CHUNK_SIZE_pos as Hpos. set (size := CHUNK_SIZE) in *.
  induction fuel as [|fuel IH]; intros offset Hfuel.
  - exists []. repeat split; [|constructor].
    symmetry. apply drop_ge. lia.
  - cbn [sendChunks]. fold size.
    destruct (offset <? N.of_nat (length bytes))%N eqn:Hlt.
    + destruct (IH (offset + size)%N) as (pieces & Hmsgs & Hcat & Hlen); [lia|].
      exists (slice bytes offset (offset + size) :: pieces).
      split; [by rewrite Hmsgs|]. split.
      * cbn [concat]. rewrite Hcat, slice_chunk.
        replace (N.to_nat (offset + size))
          with (N.to_nat offset + N.to_nat size)%nat by lia.
        rewrite <- drop_drop. apply take_drop.
      * constructor; [|done]. rewrite slice_chunk, length_take. lia.
    + apply N.ltb_ge in Hlt. exists []. repeat split; [|constructor].
      symmetry. apply drop_ge. lia.
Qed.





Example sendFile_hello :
  sendFileMessages [hello_file] "s" "a.txt"
  = [FileStart "s" "a.txt" "text/plain" 5; FileChunk "s" "a.txt" "aGVsbG8=";
     FileEnd "s" "a.txt"].
Proof. compute_done. Qed.

(** The receiver, given what the sender emits, stores the bytes sent. *)
Example receive_hello :
  let receive st m := state_after (handleTransferMessage "peerA" m st) in
  map (fun f => (f_key f, f_content f, f_contentType f))
    (files (fold_left receive (sendFileMessages [hello_file] "s" "a.txt") initial))
  = [("s/a.txt", [x68; x65; x6c; x6c; x6f], "text/plain")].
Proof. compute_done. Qed.

(** A file with no byte goes out as [file-start] and [file-end] alone. *)
Example sendFile_empty :
  sendFileMessages [mkFile "s/e" "s" "e" "" [] 0 0] "s" "e"
  = [FileStart "s" "e" "" 0; FileEnd "s" "e"].
Proof. compute_done. Qed.


(** A whole import between two nodes: [R] ends with the file of [S], its
    call has returned, [onProgress] was called at the start and at the end
    of the file, and no request is left pending. *)
Example import_hello :
  snd import3 = Returned
  ∧ snd (fst import3) = [(0, 1, "a.txt"); (1, 1, "a.txt")]%nat
  ∧ map (fun f => (f_key f, f_content f, f_contentType f)) (files (fst (fst import3)))
    = [("s/a.txt", [x68; x65; x6c; x6c; x6f], "text/plain")]
  ∧ pendingRequests (fst (fst import3)) = ∅
  ∧ incomingTransfers (fst (fst import3)) = ∅.
Proof. repeat split; compute_done. Qed.


(** With a record present the same chunk makes [atob] throw, and the state
    is left as it was. *)
Example chunk_with_transfer_throws :
  handleTransferMessage "peerA" (FileChunk "s" "index.html" "not base64!")
    transfer_in_progress
  = inr ("InvalidCharacterError", transfer_in_progress).
Proof. reflexivity. Qed.

(** Two triples can share a key when an id contains a colon. *)
Example transferKey_collision :
  transferKey "p" "a:b" "c" = transferKey "p" "a" "b:c".
Proof. reflexivity. Qed.












(** C3, as stated, fails: [peerA] leaves while a transfer from it is in
    progress and a request sent to it is pending; the record is still in
    [incomingTransfers], the request is still in [pendingRequests] and its
    promise is not rejected. *)
Lemma peer_leave_releases_nothing :
  sent transfer_in_progress = [("peerA", FileRequest "s" "index.html")]
  ∧ ¬ (incomingTransfers
         (state_after (onLedgerEvent (PeerLeave "peerA") transfer_in_progress))
       !! transferKey "peerA" "s" "index.html" = None)
  ∧ ¬ (pendingRequests
         (state_after (onLedgerEvent (PeerLeave "peerA") transfer_in_progress))
       !! fileKey "s" "index.html" = None)
  ∧ ¬ (∃ e, settled
              (state_after (onLedgerEvent (PeerLeave "peerA") transfer_in_progress))
            !! 0%nat = Some (Rejected e)).
Proof.
  split; [compute_done|]. split; [compute_done|]. split; [compute_done|].
  intros [e He].
  assert (Hnone : settled
            (state_after (onLedgerEvent (PeerLeave "peerA") transfer_in_progress))
          !! 0%nat = None) by compute_done.
  congruence.
Qed.

(** C5, as stated, fails: the request for [index.html] of [s] went to
    [peerA]; a transfer of that file by [peerB] resolves it and removes
    its entry. *)
Lemma request_resolved_by_other_peer :
  sent waiting_for_index = [("peerA", FileRequest "s" "index.html")]
  ∧ pendingRequests waiting_for_index !! fileKey "s" "index.html" = Some 0%nat
  ∧ settled waiting_for_index !! 0%nat = None
  ∧ settled sent_by_other !! 0%nat = Some ResolvedTrue
  ∧ pendingRequests sent_by_other !! fileKey "s" "index.html" = None.
Proof. repeat split; compute_done. Qed.

(** Two requests for the same file, sent to two peers, share one entry: the
    second replaces the first. *)
Example requests_to_two_peers_share_an_entry :
  map fst (sent (fst (requestFile "peerB" "s" "index.html" waiting_for_index)))
  = ["peerA"; "peerB"]
  ∧ pendingRequests (fst (requestFile "peerB" "s" "index.html" waiting_for_index))
    = {[ fileKey "s" "index.html" := 1%nat ]}.
Proof. split; compute_done. Qed.

Lemma settle_lookup p o st :
  settled st !! p = None → settled (settle p o st) !! p = Some o.
Proof. intros H. unfold settle. rewrite H. cbn. apply lookup_insert_eq. Qed.

Lemma settle_pending p o st : pendingRequests (settle p o st) = pendingRequests st.
Proof. unfold settle. by destruct (settled st !! p). Qed.

(** C5, amended. A pending-file record is keyed by
    [`file:${siteId}:${path}`], whatever the peer the request is sent to;
    the end of a transfer of that site and path from any peer resolves the
    request stored under the key and removes the entry. *)
Theorem pending_file_keyed_by_site_and_path
    (peerId fromPeerId siteId path : string) (st : State) (transfer : Transfer) :
  settled st !! nextPromise st = None →
  let '(st1, p) := requestFile peerId siteId path st in
  pendingRequests st1 !! fileKey siteId path = Some p
  ∧ (incomingTransfers st1 !! transferKey fromPeerId siteId path = Some transfer →
     let st2 := finalizeIncomingFile fromPeerId siteId path st1 in
     settled st2 !! p = Some ResolvedTrue
     ∧ pendingRequests st2 !! fileKey siteId path = None).
Proof.
  intros Hfresh. cbn [requestFile]. split.
  - cbn. apply lookup_insert_eq.
  - intros Htr. cbv zeta. unfold finalizeIncomingFile.
    cbn -[fileKey transferKey storeFile] in *. rewrite Htr.
    cbn -[fileKey transferKey storeFile settle].
    rewrite lookup_insert_eq. cbn -[fileKey transferKey storeFile settle]. split.
    + apply settle_lookup. exact Hfresh.
    + apply lookup_delete_eq.
Qed.

Lemma pending_file_keyed_by_site_and_path_witness :
  settled announced_by_other !! nextPromise announced_by_other = None
  ∧ incomingTransfers (fst (requestFile "peerA" "s" "index.html" announced_by_other))
    !! transferKey "peerB" "s" "index.html"
    = Some (mkTransfer "s" "index.html" "text/html" 0 0 [])
  ∧ let '(st1, p) := requestFile "peerA" "s" "index.html" announced_by_other in
    pendingRequests st1 !! fileKey "s" "index.html" = Some p
    ∧ (incomingTransfers st1 !! transferKey "peerB" "s" "index.html"
       = Some (mkTransfer "s" "index.html" "text/html" 0 0 []) →
       let st2 := finalizeIncomingFile "peerB" "s" "index.html" st1 in
       settled st2 !! p = Some ResolvedTrue
       ∧ pendingRequests st2 !! fileKey "s" "index.html" = None).
Proof.
  split; [reflexivity|]. split; [reflexivity|].
  apply (pending_file_keyed_by_site_and_path "peerA" "peerB" "s" "index.html"
           announced_by_other (mkTransfer "s" "index.html" "text/html" 0 0 [])).
  reflexivity.
Defined.

(** The timers the two kinds of request register: 30 s for a file list,
    60 s for a file. *)
Lemma request_timers (peerId siteId path : string) (st : State) :
  timers (fst (requestFileList peerId siteId st))
  = timers st ++ [{| tm_due := clock st + 30000; tm_key := listKey siteId;
                     tm_promise := nextPromise st;
                     tm_message := "Request timed out" |}]
  ∧ timers (fst (requestFile peerId siteId path st))
  = timers st ++ [{| tm_due := clock st + 60000; tm_key := fileKey siteId path;
                     tm_promise := nextPromise st;
                     tm_message := "File transfer timed out: " +:+ path |}].
Proof. split; reflexivity. Qed.

(** A timer that finds an entry under its key removes the entry and rejects
    its own promise. *)
Lemma fireTimer_live (t : Timer) (st : State) :
  is_Some (pendingRequests st !! tm_key t) →
  settled st !! tm_promise t = None →
  pendingRequests (fireTimer t st) !! tm_key t = None
  ∧ settled (fireTimer t st) !! tm_promise t = Some (Rejected (tm_message t)).
Proof.
  intros [p Hp] Hs. unfold fireTimer. rewrite Hp. split.
  - rewrite settle_pending. cbn. apply lookup_delete_eq.
  - by apply settle_lookup.
Qed.

(** A timer that finds no entry under its key does nothing. *)
Lemma fireTimer_stale (t : Timer) (st : State) :
  pendingRequests st !! tm_key t = None → fireTimer t st = st.
Proof. intros H. unfold fireTimer. by rewrite H. Qed.

(** The usual course: with no older timer around, a file-list request left
    unanswered is pending until its 30 s are over, and then rejected, its
    entry removed. *)
Lemma lone_list_request_times_out (peerId siteId : string) (st : State) (now : Z) :
  timers st = [] →
  settled st !! nextPromise st = None →
  let '(st1, p) := requestFileList peerId siteId st in
  ((now < clock st + 30000)%Z → settled (advance now st1) !! p = None)
  ∧ ((clock st + 30000 ≤ now)%Z →
     settled (advance now st1) !! p = Some (Rejected "Request timed out")
     ∧ pendingRequests (advance now st1) !! listKey siteId = None).
Proof.
  intros Hts Hfresh. cbn [requestFileList]. unfold advance.
  cbn -[listKey Z.max]. rewrite Hts. cbn -[listKey Z.max].
  split.
  - intros Hnow. destruct (clock st + 30000 <=? now)%Z eqn:E; [lia|]. exact Hfresh.
  - intros Hnow. destruct (clock st + 30000 <=? now)%Z eqn:E; [|lia].
    unfold fireTimer. cbn -[listKey Z.max settle]. rewrite lookup_insert_eq. split.
    + apply settle_lookup. exact Hfresh.
    + rewrite settle_pending. cbn -[listKey]. apply lookup_delete_eq.
Qed.

(** The same for a file request and its 60 s. *)
Lemma lone_file_request_times_out (peerId siteId path : string) (st : State) (now : Z) :
  timers st = [] →
  settled st !! nextPromise st = None →
  let '(st1, p) := requestFile peerId siteId path st in
  ((now < clock st + 60000)%Z → settled (advance now st1) !! p = None)
  ∧ ((clock st + 60000 ≤ now)%Z →
     settled (advance now st1) !! p
     = Some (Rejected ("File transfer timed out: " +:+ path))
     ∧ pendingRequests (advance now st1) !! fileKey siteId path = None).
Proof.
  intros Hts Hfresh. cbn [requestFile]. unfold advance.
  cbn -[fileKey Z.max]. rewrite Hts. cbn -[fileKey Z.max].
  split.
  - intros Hnow. destruct (clock st + 60000 <=? now)%Z eqn:E; [lia|]. exact Hfresh.
  - intros Hnow. destruct (clock st + 60000 <=? now)%Z eqn:E; [|lia].
    unfold fireTimer. cbn -[fileKey Z.max settle]. rewrite lookup_insert_eq. split.
    + apply settle_lookup. exact Hfresh.
    + rewrite settle_pending. cbn -[fileKey]. apply lookup_delete_eq.
Qed.

Lemma handle_events_cons (ev : LedgerEvent) (events : list LedgerEvent) (st : State) :
  handle_events (ev :: events) st
  = handle_events events (state_after (onLedgerEvent ev st)).
Proof. reflexivity. Qed.

(** C3, amended. transfer.js listens to custom messages only: a
    [peer-leave] event runs no code of the file-transfer layer, which
    throws nothing and keeps its whole state. So the incoming-transfer
    records of the peer that left stay, the requests sent to it stay in
    [pendingRequests] with their timers, and no promise is rejected; a run
    of events ends in the state it would end in had no peer left. *)
Theorem peer_leave_is_ignored (st : State) (peerId siteId path : string)
    (events : list LedgerEvent) :
  onLedgerEvent (PeerLeave peerId) st = inl st
  ∧ incomingTransfers (state_after (onLedgerEvent (PeerLeave peerId) st))
    = incomingTransfers st
  ∧ pendingRequests (state_after (onLedgerEvent (PeerLeave peerId) st))
    = pendingRequests st
  ∧ settled (state_after (onLedgerEvent (PeerLeave peerId) st)) = settled st
  ∧ timers (state_after (onLedgerEvent (PeerLeave peerId) st)) = timers st
  ∧ (let asked := fst (requestFile peerId siteId path st) in
     let left := state_after (onLedgerEvent (PeerLeave peerId) asked) in
     sent asked = sent st ++ [(peerId, FileRequest siteId path)]
     ∧ pendingRequests left !! fileKey siteId path = Some (nextPromise st)
     ∧ settled left = settled st)
  ∧ (let asked := fst (requestFileList peerId siteId st) in
     let left := state_after (onLedgerEvent (PeerLeave peerId) asked) in
     sent asked = sent st ++ [(peerId, FileListRequest siteId)]
     ∧ pendingRequests left !! listKey siteId = Some (nextPromise st)
     ∧ settled left = settled st)
  ∧ handle_events events st = handle_events (without_peer_leave events) st.
Proof.
  do 5 (split; [reflexivity|]).
  split; [cbv zeta; split; [reflexivity|]; split; [apply lookup_insert_eq|reflexivity]|].
  split; [cbv zeta; split; [reflexivity|]; split; [apply lookup_insert_eq|reflexivity]|].
  revert st. induction events as [|ev events IH]; intros st; [reflexivity|].
  rewrite handle_events_cons. unfold without_peer_leave. cbn [List.filter].
  fold (without_peer_leave events).
  destruct ev as [from channel data| p | p | p | n p]; cbn [is_peer_leave negb];
    try (rewrite handle_events_cons; apply IH).
  cbn [onLedgerEvent state_after]. apply IH.
Qed.

(** C6 fails on the code. The timer of the first request was not cleared
    when the answer came. At 30 s it finds the entry of the second request
    under the same key, removes it and rejects the first promise, which is
    settled already. The timer of the second request, at 50 s, finds no
    entry and does nothing: 30 s after it was made, the second request has
    not failed, and it never will. *)
Theorem stale_timer_drops_later_request :
  let p1 := snd first_list_request in
  let p2 := snd second_list_request in
  let st := fst second_list_request in
  settled st !! p1 = Some (ResolvedFiles [])
  ∧ pendingRequests st !! listKey "s" = Some p2
  ∧ settled st !! p2 = None
  ∧ clock st = 20000%Z
  ∧ pendingRequests (advance 30000 st) !! listKey "s" = None
  ∧ settled (advance 30000 st) !! p2 = None
  ∧ timers (advance 50000 (advance 30000 st)) = []
  ∧ ∀ now, settled (advance now (advance 50000 (advance 30000 st))) !! p2 = None.
Proof.
  cbv zeta. do 7 (split; [compute_done|]).
  intros now. unfold advance at 1.
  assert (Hts : timers (advance 50000 (advance 30000 (fst second_list_request))) = [])
    by compute_done.
  assert (Hp2 : settled (advance 50000 (advance 30000 (fst second_list_request)))
                !! snd second_list_request = None) by compute_done.
  cbn [with_clock timers]. rewrite Hts. exact Hp2.
Qed.
End TransferFacts.

(** ** ledger.js, the signaling client *)

Section SignalingFacts.
Import Signaling.

(** C8. While [shouldReconnect] holds, the close that starts the [n]-th
    attempt, [1 <= n <= 10], emits [reconnecting] with the attempt number
    [n] and schedules the reconnection after [min(1000 * 2^(n-1), 30000)]
    milliseconds; once ten attempts have been made, a close schedules
    nothing and emits [disconnected]. *)
Theorem reconnect_schedule (c : Client) :
  shouldReconnect c = true →
  (∀ n : Z, (1 ≤ n ≤ 10)%Z → reconnectAttempts c = (n - 1)%Z →
     handleDisconnect c
     = (mkClient n true (isInitialConnect c),
        [Emit (Reconnecting n); SetTimeout (Z.min (1000 * 2 ^ (n - 1)) 30000)]))
  ∧ ((10 ≤ reconnectAttempts c)%Z → handleDisconnect c = (c, [Emit Disconnected])).
Proof.
  intros Hre. unfold handleDisconnect, maxReconnectAttempts, baseDelay, maxDelay.
  rewrite Hre. cbn [negb]. split.
  - intros n Hn Hc. rewrite Hc.
    destruct (n - 1 <? 10)%Z eqn:E; [|lia].
    cbn [reconnectAttempts]. by replace (n - 1 + 1)%Z with n by lia.
  - intros Hc. destruct (reconnectAttempts c <? 10)%Z eqn:E; [lia|done].
Qed.

Lemma reconnect_schedule_witness :
  shouldReconnect (mkClient 5 true false) = true
  ∧ (1 ≤ 6 ≤ 10)%Z
  ∧ reconnectAttempts (mkClient 5 true false) = (6 - 1)%Z
  ∧ handleDisconnect (mkClient 5 true false)
    = (mkClient 6 true false, [Emit (Reconnecting 6); SetTimeout 30000])
  ∧ (10 ≤ reconnectAttempts (mkClient 10 true false))%Z
  ∧ handleDisconnect (mkClient 10 true false)
    = (mkClient 10 true false, [Emit Disconnected]).
Proof.
  split; [reflexivity|]. split; [lia|]. split; [reflexivity|]. split.
  - apply (proj1 (reconnect_schedule (mkClient 5 true false) eq_refl) 6%Z);
      [lia|reflexivity].
  - split; [cbn; lia|].
    apply (proj2 (reconnect_schedule (mkClient 10 true false) eq_refl)). cbn. lia.
Defined.

(** Eleven closes in a row of a client that was connected: ten attempts
    with the delays 1, 2, 4, 8, 16, 30, 30, 30, 30 and 30 seconds, then
    [disconnected] and no timer. *)
Example eleven_closes :
  snd (closes 11 (mkClient 0 true false))
  = map (fun '(n, d) => [Emit (Reconnecting n); SetTimeout d])
      [(1, 1000); (2, 2000); (3, 4000); (4, 8000); (5, 16000); (6, 30000);
       (7, 30000); (8, 30000); (9, 30000); (10, 30000)]%Z
    ++ [[Emit Disconnected]].
Proof. reflexivity. Qed.

(** A socket that opens resets the count of attempts. *)
Example open_resets :
  onOpen (mkClient 7 true false)
  = (mkClient 0 true false, [Emit Reconnected; SendJoin; ResolveConnect]).
Proof. reflexivity. Qed.

(** After [disconnect()] a close emits [disconnected] and schedules
    nothing. *)
Example close_after_disconnect (c : Client) :
  handleDisconnect (disconnect c) = (disconnect c, [Emit Disconnected]).
Proof. reflexivity. Qed.
End SignalingFacts.

(** ** catalog.js *)

Section CatalogFacts.
Import Catalog Scenarios.

Lemma or_string_some (s : string) : or_string (Some s) "" = s.
Proof.
  unfold or_string. destruct (String.eqb s "") eqn:E; [|done].
  apply String.eqb_eq in E. by subst.
Qed.

Lemma or_number_some (n : Z) : or_number (Some n) 0 = n.
Proof.
  unfold or_number. destruct (n =? 0)%Z eqn:E; [|done].
  apply Z.eqb_eq in E. by subst.
Qed.

(** C7. Adoption identity: when the row [originalId] exists and the fresh
    UUID is not a key of the table, [adoptSite] returns the new row and
    [originalId]; the new row has another id, the local node as owner, and
    the name, url, description, thumbnail, content hash, file count and file
    size of the original; it is the row inserted. When no row has the id,
    [adoptSite] fails with 'Site not found'. *)
Theorem adoption_identity (l : Ledger) (uuid now originalId : string) :
  (∀ original, sites l !! originalId = Some original → sites l !! uuid = None →
     ∃ newSite,
       adoptSite (Some l) uuid now originalId
       = inr (mkLedger (nodeId l) (<[uuid := newSite]> (sites l)),
              (newSite, originalId))
       ∧ id newSite ≠ originalId
       ∧ owner_id newSite = nodeId l
       ∧ name newSite = name original
       ∧ url newSite = url original
       ∧ description newSite = description original
       ∧ thumbnail newSite = thumbnail original
       ∧ content_hash newSite = content_hash original
       ∧ file_count newSite = file_count original
       ∧ file_size newSite = file_size original)
  ∧ (sites l !! originalId = None →
     adoptSite (Some l) uuid now originalId = inl SiteNotFound).
Proof.
  split.
  - intros original Horig Hfresh. unfold adoptSite, getSite. rewrite Horig.
    unfold addSite. cbn [id]. rewrite Hfresh.
    eexists. split; [reflexivity|]. cbn -[or_string or_number].
    rewrite !or_string_some, !or_number_some. repeat split.
    intros ->. congruence.
  - intros Hnone. unfold adoptSite, getSite. by rewrite Hnone.
Qed.

Lemma adoption_identity_witness :
  sites catalog_b !! "a1" = Some alpha ∧ sites catalog_b !! "b7" = None
  ∧ (∃ newSite,
       adoptSite (Some catalog_b) "b7" "t1" "a1"
       = inr (mkLedger "node-b" (<["b7" := newSite]> (sites catalog_b)),
              (newSite, "a1"))
       ∧ id newSite ≠ "a1"
       ∧ owner_id newSite = "node-b"
       ∧ name newSite = "Alpha"
       ∧ url newSite = ""
       ∧ description newSite = "first"
       ∧ thumbnail newSite = ""
       ∧ content_hash newSite = ""
       ∧ file_count newSite = 0%Z
       ∧ file_size newSite = 0%Z)
  ∧ sites catalog_b !! "zz" = None
  ∧ adoptSite (Some catalog_b) "b7" "t1" "zz" = inl SiteNotFound.
Proof.
  split; [reflexivity|]. split; [reflexivity|]. split.
  - apply (proj1 (adoption_identity catalog_b "b7" "t1" "a1") alpha); reflexivity.
  - split; [reflexivity|].
    apply (proj2 (adoption_identity catalog_b "b7" "t1" "zz")). reflexivity.
Defined.

(** Whatever the UUID, a call that returns has given the new row an id
    other than [originalId]: the INSERT fails on a key that is taken. *)
Lemma adoptSite_new_id ledger uuid now originalId l' newSite oid :
  adoptSite ledger uuid now originalId = inr (l', (newSite, oid)) →
  id newSite ≠ originalId ∧ oid = originalId.
Proof.
  unfold adoptSite, getSite. destruct ledger as [l|]; [|done].
  destruct (sites l !! originalId) as [original|] eqn:Horig; [|done].
  unfold addSite. cbn [id].
  destruct (sites l !! uuid) eqn:Hu; [done|].
  intros [= <- <- <-]. split; [|done]. cbn. intros ->. congruence.
Qed.

(** A UUID that is the key of a row makes the INSERT, and so the
    adoption, fail; the table is not changed. *)
Example adopt_with_taken_uuid :
  adoptSite (Some catalog_b) "a1" "t1" "a1" = inl ConstraintFailed.
Proof. reflexivity. Qed.

(** Before [initCatalog], [adoptSite] fails with 'Catalog not initialized'. *)
Example adopt_uninitialized uuid now originalId :
  adoptSite None uuid now originalId = inl NotInitialized.
Proof. reflexivity. Qed.
End CatalogFacts.

(** ** The service worker *)

Section ServiceWorkerFacts.
Import Persistence StoreOps ServiceWorker Scenarios.

Lemma append_assoc (a b c : string) : (a +:+ b) +:+ c = a +:+ (b +:+ c).
Proof.
  induction a as [|x a IH]; [done|].
  change (String x ((a +:+ b) +:+ c) = String x (a +:+ (b +:+ c))). by rewrite IH.
Qed.

Lemma append_empty_r (a : string) : a +:+ "" = a.
Proof.
  induction a as [|x a IH]; [done|].
  change (String x (a +:+ "") = String x a). by rewrite IH.
Qed.

Lemma occurs_in_refl (x : string) : occurs_in x x.
Proof. exists "", "". by rewrite append_empty_r. Qed.

Lemma occurs_in_prepend (x a t : string) : occurs_in x t → occurs_in x (a +:+ t).
Proof.
  intros (before & after & ->). exists (a +:+ before), after.
  by rewrite append_assoc.
Qed.

Lemma occurs_in_append (x t b : string) : occurs_in x t → occurs_in x (t +:+ b).
Proof.
  intros (before & after & ->). exists before, (after +:+ b).
  by rewrite !append_assoc.
Qed.

Lemma occurs_in_trans (x y t : string) : occurs_in x y → occurs_in y t → occurs_in x t.
Proof.
  intros Hxy (before & after & ->).
  by apply occurs_in_prepend, occurs_in_append.
Qed.

Lemma occurs_in_concat (sep x : string) (l : list string) :
  x ∈ l → occurs_in x (String.concat sep l).
Proof.
  induction l as [|y l IH]; intros Hin; [by apply elem_of_nil in Hin|].
  apply elem_of_cons in Hin as [<- | Hin].
  - destruct l as [|z l]; [apply occurs_in_refl|].
    cbn [String.concat]. apply occurs_in_append, occurs_in_refl.
  - destruct l as [|z l]; [by apply elem_of_nil in Hin|].
    cbn [String.concat]. do 2 apply occurs_in_prepend. by apply IH.
Qed.

Lemma getFile_elem db siteId path file :
  getFile db siteId path = Some file → file ∈ db.
Proof. intros H. apply list_elem_of_In. by apply find_some in H as [H _]. Qed.

Lemma root_index_elem db siteId file :
  find is_root_index (getFilesForSite db siteId) = Some file → file ∈ db.
Proof.
  intros H. apply find_some in H as [H _]. apply list_elem_of_In in H.
  unfold getFilesForSite in H. by apply list_elem_of_filter in H as [_ H].
Qed.

(** The page of the 404 answer names every file it is given. *)
Lemma debugHtml_lists filePath siteId (allFiles : list FileRec) (f : FileRec) :
  f ∈ allFiles → occurs_in (f_path f) (debugHtml filePath siteId allFiles).
Proof.
  intros Hf. unfold debugHtml.
  set (item := fun f => "<li>" +:+ f_path f +:+ " (" +:+ toString (f_size f)
                        +:+ " bytes)</li>").
  set (fileList := String.concat newline (map item allFiles)).
  assert (Hitem : occurs_in (f_path f) fileList).
  { apply (occurs_in_trans _ (item f)).
    - unfold item. apply occurs_in_prepend, occurs_in_append, occurs_in_refl.
    - apply occurs_in_concat, list_elem_of_fmap. by exists f. }
  assert (Hne : or_else fileList "<li>No files found</li>" = fileList).
  { unfold or_else. destruct (String.eqb fileList "") eqn:E; [|done].
    apply String.eqb_eq in E. destruct Hitem as (before & after & Heq).
    rewrite E in Heq. destruct allFiles as [|g l]; [by apply elem_of_nil in Hf|].
    subst fileList. cbn [map String.concat] in E.
    destruct (map item l); discriminate E. }
  rewrite Hne.
  do 21 apply occurs_in_prepend. by apply occurs_in_append.
Qed.

(** C9, as stated, fails. The answer that serves [index.html] has no
    header [X-Origin]; the answer that serves [about.html] for the path
    [about] has the content type [text/html], which is not the blob's; and
    the answer that serves [assets/app.js], a blob whose content type is
    empty, has [application/octet-stream]. *)
Lemma local_response_headers_differ :
  (body (handleLocalRequest site_s "/local/s/index.html")
   = Blob (f_content index_page)
   ∧ ¬ (header "X-Origin" (handleLocalRequest site_s "/local/s/index.html")
        = Some "cached"))
  ∧ (body (handleLocalRequest site_s "/local/s/about") = Blob (f_content about_page)
     ∧ ¬ (header "Content-Type" (handleLocalRequest site_s "/local/s/about")
          = Some (f_contentType about_page)))
  ∧ (body (handleLocalRequest site_s "/local/s/assets/app.js")
     = Blob (f_content app_js)
     ∧ ¬ (header "Content-Type" (handleLocalRequest site_s "/local/s/assets/app.js")
          = Some (f_contentType app_js))).
Proof. repeat split; compute_done. Qed.

Lemma split_nonempty (s : string) : split slash s <> [].
Proof.
  destruct s as [|c r]; [done|]. cbn [split].
  destruct (Ascii.eqb c slash); [done|]. by destruct (split slash r).
Qed.

(** No part of a path has a slash. *)
Lemma split_slash_free (s : string) : Forall (fun p => slash_free p = true) (split slash s).
Proof.
  induction s as [|c r IH]; [by repeat constructor|].
  cbn [split]. destruct (Ascii.eqb c slash) eqn:E.
  - by constructor.
  - assert (Hc : negb (Ascii.eqb c "/") = true)
      by (change "/"%char with slash; by rewrite E).
    destruct (split slash r) as [|p ps].
    + constructor; [|constructor]. cbn [slash_free]. by rewrite Hc.
    + apply Forall_cons in IH as [Hp Hps]. constructor; [|done].
      cbn [slash_free]. by rewrite Hc, Hp.
Qed.

Lemma pathParts_slash_free (pathname : string) :
  Forall (fun p => slash_free p = true) (pathParts pathname).
Proof.
  unfold pathParts. apply Forall_forall. intros p [_ Hp]%list_elem_of_filter.
  revert p Hp. apply Forall_forall, split_slash_free.
Qed.

Lemma split_prefix (a r : string) :
  slash_free a = true -> split slash (a +:+ String slash r) = a :: split slash r.
Proof.
  induction a as [|c a IH]; intros Ha.
  - reflexivity.
  - change (split slash (String c (a +:+ String slash r)) = String c a :: split slash r).
    cbn [slash_free] in Ha. apply andb_prop in Ha as [Hc Ha].
    cbn [split]. change "/"%char with slash in Hc.
    destruct (Ascii.eqb c slash); [done|]. by rewrite (IH Ha).
Qed.

Lemma concat_split (s : string) : String.concat "/" (split slash s) = s.
Proof.
  induction s as [|c r IH]; [done|]. cbn [split].
  pose proof (split_nonempty r) as Hne.
  destruct (split slash r) as [|p ps]; [done|].
  destruct (Ascii.eqb_spec c slash) as [->|_].
  - change (String.concat "/" ("" :: p :: ps))
      with (String slash (String.concat "/" (p :: ps))).
    by rewrite IH.
  - destruct ps as [|q qs].
    + cbn [String.concat] in *. by rewrite IH.
    + change (String.concat "/" (String c p :: q :: qs))
        with (String c (String.concat "/" (p :: q :: qs))).
      by rewrite IH.
Qed.

Lemma endsWith_slash_inv (s : string) :
  endsWith "/" s = true -> exists t, s = t +:+ "/".
Proof.
  unfold endsWith. induction s as [|a r IH]; [done|].
  cbn [String.length Nat.leb andb].
  replace (S (String.length r) - 1)%nat with (String.length r) by lia.
  destruct r as [|b r'].
  - cbn. destruct (Ascii.eqb_spec a "/") as [->|]; [|done]. intros _. by exists "".
  - cbn [String.length substring] in *. intros H.
    replace (S (String.length r') - 1)%nat with (String.length r') in IH by lia.
    destruct (IH H) as [t Ht]. exists (String a t). by rewrite Ht.
Qed.

Lemma split_trailing_slash (t : string) :
  exists ps, split slash (t +:+ "/") = ps ++ [""] /\ ps <> [].
Proof.
  induction t as [|c t (ps & Hps & Hne)].
  - by exists [""].
  - change (String c t +:+ "/") with (String c (t +:+ "/")). cbn [split].
    rewrite Hps. destruct (Ascii.eqb c slash).
    + by exists ("" :: ps).
    + destruct ps as [|q qs]; [done|]. by exists (String c q :: qs).
Qed.

Lemma clean_path_no_trailing_slash (path : string) :
  Forall (fun p => p <> "") (split slash path) -> endsWith "/" path = false.
Proof.
  intros Hclean. destruct (endsWith "/" path) eqn:E; [|done].
  apply endsWith_slash_inv in E as [t ->].
  destruct (split_trailing_slash t) as (ps & Hps & _).
  rewrite Hps in Hclean. apply Forall_app in Hclean as [_ Hclean].
  by apply Forall_cons in Hclean as [? _].
Qed.


(** A part without slash is the only part of itself. *)
Lemma split_one (p : string) : slash_free p = true -> split slash p = [p].
Proof.
  induction p as [|c p IH]; intros Hp; [done|].
  cbn [slash_free] in Hp. apply andb_prop in Hp as [Hc Hp].
  cbn [split]. change "/"%char with slash in Hc.
  destruct (Ascii.eqb c slash); [done|]. by rewrite (IH Hp).
Qed.

(** Joining parts without slash and splitting again gives the parts. *)
Lemma split_concat (rest : list string) :
  Forall (fun p => slash_free p = true) rest -> rest <> [] ->
  split slash (String.concat "/" rest) = rest.
Proof.
  induction rest as [|p rest IH]; intros Hfree Hne; [done|].
  apply Forall_cons in Hfree as [Hp Hfree].
  destruct rest as [|q rest]; [by apply split_one|].
  change (String.concat "/" (p :: q :: rest))
    with (p +:+ String slash (String.concat "/" (q :: rest))).
  rewrite (split_prefix _ _ Hp). by rewrite IH.
Qed.

(** The path that [handleLocalRequest] builds from the parts after the
    site id never ends with a slash: the branch that adds [index.html] to
    such a path is not taken. *)
Lemma filePath_no_trailing_slash (pathname first siteId : string) (rest : list string) :
  pathParts pathname = first :: siteId :: rest ->
  endsWith "/" (or_else (String.concat "/" rest) "index.html") = false.
Proof.
  intros Hparts.
  assert (Hfree : Forall (fun p => slash_free p = true) rest).
  { pose proof (pathParts_slash_free pathname) as H. rewrite Hparts in H.
    apply Forall_cons in H as [_ H]. by apply Forall_cons in H as [_ H]. }
  assert (Hfull : Forall (fun p => p <> "") rest).
  { apply Forall_forall. intros p Hp.
    assert (Hin : p ∈ pathParts pathname)
      by (rewrite Hparts; by do 2 (apply elem_of_cons; right)).
    unfold pathParts in Hin. by apply list_elem_of_filter in Hin as [? _]. }
  unfold or_else.
  destruct (String.eqb_spec (String.concat "/" rest) "") as [_|_]; [reflexivity|].
  destruct rest as [|p rest]; [reflexivity|].
  apply clean_path_no_trailing_slash. by rewrite split_concat.
Qed.

(** What the two answers with status 200 carry. *)
Lemma served_response (file : FileRec) :
  status (served file) = 200%Z
  ∧ body (served file) = Blob (f_content file)
  ∧ header "Content-Type" (served file)
    = Some (or_else (f_contentType file) "application/octet-stream")
  ∧ header "X-Scrap-Yard" (served file) = Some "cached"
  ∧ header "X-Origin" (served file) = None.
Proof. by repeat split. Qed.

Lemma served_as_html_response (file : FileRec) :
  status (served_as_html file) = 200%Z
  ∧ body (served_as_html file) = Blob (f_content file)
  ∧ header "Content-Type" (served_as_html file) = Some "text/html"
  ∧ header "X-Scrap-Yard" (served_as_html file) = Some "cached"
  ∧ header "X-Origin" (served_as_html file) = None.
Proof. by repeat split. Qed.

(** C9, amended. A request whose path name has the parts [local], the
    site id and [rest] asks for the path [rest] joined by slashes, or
    [index.html] when [rest] is empty; that path does not end with a
    slash. The answer is
    - the file stored under the site id and that path, if there is one;
    - else, when the path is [index.html], the first file of the site
      that is an index or an HTML file at the root, if there is one;
    - else, when the path has no dot, the file stored under the path with
      [.html] added, if there is one;
    - else the file stored under the path with [/index.html] added, if
      there is one;
    - else the answer 404 with an HTML page in which the path of every
      file of the site occurs.
    An answer that serves a file has status 200, the blob as its body
    and the header [X-Scrap-Yard: cached], and no header [X-Origin]; its
    [Content-Type] is the blob's content type, or
    [application/octet-stream] when that is empty, in the first two
    cases, and [text/html] in the third and the fourth. *)
Theorem local_request_response (db : list FileRec) (pathname siteId : string)
    (rest : list string) :
  pathParts pathname = "local" :: siteId :: rest →
  let filePath := or_else (String.concat "/" rest) "index.html" in
  let response := handleLocalRequest db pathname in
  let no_file :=
    getFile db siteId filePath = None
    ∧ (filePath = "index.html" →
       find is_root_index (getFilesForSite db siteId) = None) in
  let no_html_file :=
    includes dot filePath = false →
    getFile db siteId (filePath +:+ ".html") = None in
  endsWith "/" filePath = false
  ∧ (∀ file, getFile db siteId filePath = Some file →
       file ∈ db ∧ response = served file)
  ∧ (∀ file, getFile db siteId filePath = None → filePath = "index.html" →
       find is_root_index (getFilesForSite db siteId) = Some file →
       file ∈ db ∧ f_siteId file = siteId ∧ response = served file)
  ∧ (∀ file, getFile db siteId filePath = None → includes dot filePath = false →
       getFile db siteId (filePath +:+ ".html") = Some file →
       file ∈ db ∧ response = served_as_html file)
  ∧ (∀ file, no_file → no_html_file →
       getFile db siteId (filePath +:+ "/index.html") = Some file →
       file ∈ db ∧ response = served_as_html file)
  ∧ (no_file → no_html_file →
     getFile db siteId (filePath +:+ "/index.html") = None →
     status response = 404%Z
     ∧ header "Content-Type" response = Some "text/html"
     ∧ body response = Text (debugHtml filePath siteId (getFilesForSite db siteId))
     ∧ ∀ f, f ∈ getFilesForSite db siteId →
         occurs_in (f_path f) (debugHtml filePath siteId (getFilesForSite db siteId)))
  ∧ (∀ file,
       status (served file) = 200%Z
       ∧ body (served file) = Blob (f_content file)
       ∧ header "Content-Type" (served file)
         = Some (or_else (f_contentType file) "application/octet-stream")
       ∧ header "X-Scrap-Yard" (served file) = Some "cached"
       ∧ header "X-Origin" (served file) = None)
  ∧ (∀ file,
       status (served_as_html file) = 200%Z
       ∧ body (served_as_html file) = Blob (f_content file)
       ∧ header "Content-Type" (served_as_html file) = Some "text/html"
       ∧ header "X-Scrap-Yard" (served_as_html file) = Some "cached"
       ∧ header "X-Origin" (served_as_html file) = None).
Proof.
  intros Hparts. cbv zeta.
  pose proof (filePath_no_trailing_slash _ _ _ _ Hparts) as Hslash.
  unfold handleLocalRequest. rewrite Hparts.
  cbn [String.eqb Ascii.eqb Bool.eqb negb].
  set (filePath := or_else (String.concat "/" rest) "index.html") in *.
  rewrite Hslash.
  assert (Hempty : String.eqb filePath "" = false).
  { unfold filePath, or_else.
    destruct (String.eqb_spec (String.concat "/" rest) "") as [_|Hne]; [reflexivity|].
    by apply String.eqb_neq. }
  rewrite Hempty, orb_false_r.
  assert (Hroot : ∀ o : option FileRec,
            (filePath = "index.html" → find is_root_index (getFilesForSite db siteId) = o) →
            o = None ∨ filePath = "index.html" →
            (if String.eqb filePath "index.html"
             then find is_root_index (getFilesForSite db siteId) else None) = o).
  { intros o Hfind Ho. destruct (String.eqb_spec filePath "index.html") as [Heq|Hne].
    - by apply Hfind.
    - by destruct Ho. }
  assert (Hhtml : ∀ o : option FileRec,
            (includes dot filePath = false →
             getFile db siteId (filePath +:+ ".html") = o) →
            o = None ∨ includes dot filePath = false →
            (if negb (includes dot filePath)
             then getFile db siteId (filePath +:+ ".html") else None) = o).
  { intros o Hget Ho. destruct (includes dot filePath).
    - by destruct Ho.
    - by apply Hget. }
  split; [reflexivity|].
  split; [|split; [|split; [|split; [|split; [|split]]]]].
  - intros file Hdirect. rewrite Hdirect. split; [by eapply getFile_elem|done].
  - intros file Hdirect Hindex Hfind. rewrite Hdirect.
    rewrite (Hroot (Some file)); [|by intros _|by right].
    split; [by eapply root_index_elem|]. split; [|done].
    apply find_some in Hfind as [Hin _].
    by apply list_elem_of_In, list_elem_of_filter in Hin as [? _].
  - intros file Hdirect Hdot Hget. rewrite Hdirect.
    rewrite (Hroot None); [|by intros Heq; rewrite Heq in Hdot|by left].
    rewrite (Hhtml (Some file)); [|by intros _|by right].
    split; [by eapply getFile_elem|done].
  - intros file [Hdirect Hnoroot] Hnohtml Hget. rewrite Hdirect.
    rewrite (Hroot None); [|done|by left].
    rewrite (Hhtml None); [|done|by left].
    rewrite Hget. split; [by eapply getFile_elem|done].
  - intros [Hdirect Hnoroot] Hnohtml Hget. rewrite Hdirect.
    rewrite (Hroot None); [|done|by left].
    rewrite (Hhtml None); [|done|by left].
    rewrite Hget. split; [done|]. split; [done|]. split; [done|].
    intros f Hf. by apply debugHtml_lists.
  - apply served_response.
  - apply served_as_html_response.
Qed.

Lemma local_request_response_witness :
  pathParts "/local/s/about" = ["local"; "s"; "about"]
  ∧ getFile site_s "s" "about" = None
  ∧ includes dot "about" = false
  ∧ getFile site_s "s" "about.html" = Some about_page
  ∧ handleLocalRequest site_s "/local/s/about" = served_as_html about_page
  ∧ header "Content-Type" (served_as_html about_page) = Some "text/html"
  ∧ header "X-Scrap-Yard" (served_as_html about_page) = Some "cached".
Proof.
  split; [reflexivity|]. split; [reflexivity|]. split; [reflexivity|].
  split; [reflexivity|].
  destruct (local_request_response site_s "/local/s/about" "s" ["about"] eq_refl)
    as (_ & _ & _ & Hhtml & _ & _ & _ & Hheaders).
  destruct (Hhtml about_page) as [_ Hresponse].
  - reflexivity.
  - reflexivity.
  - reflexivity.
  - split; [exact Hresponse|].
    destruct (Hheaders about_page) as (_ & _ & Hct & Hsy & _). by split.
Defined.

(** The site [{index.html, assets/app.js}] of the specification: the root
    and the script are served, a missing path is answered with 404. *)
Example http_fallback :
  handleLocalRequest [app_js; index_page] "/local/s/" = served index_page
  ∧ handleLocalRequest [app_js; index_page] "/local/s/assets/app.js" = served app_js
  ∧ status (handleLocalRequest [app_js; index_page] "/local/s/missing") = 404%Z.
Proof. repeat split; compute_done. Qed.

(** The headers of the answers to three requests on the site [site_s]. *)
Example served_headers :
  headers (handleLocalRequest site_s "/local/s/index.html")
  = [("Content-Type", "text/html"); ("Content-Length", "2");
     ("X-Scrap-Yard", "cached")]
  ∧ headers (handleLocalRequest site_s "/local/s/about")
    = [("Content-Type", "text/html"); ("X-Scrap-Yard", "cached")]
  ∧ headers (handleLocalRequest site_s "/local/s/assets/app.js")
    = [("Content-Type", "application/octet-stream"); ("Content-Length", "1");
       ("X-Scrap-Yard", "cached")].
Proof. repeat split; compute_done. Qed.

(** A path without site id is answered with a bare 404. *)
Example no_site_id :
  handleLocalRequest site_s "/local/"
  = {| body := Text "Not Found"; status := 404; headers := [] |}.
Proof. compute_done. Qed.
End ServiceWorkerFacts.

(** ** The store and ledger.js: merging changes *)

Section OrderFacts.
Import CRStore.

Lemma lex_opp c1 c2 : lex (CompOpp c1) (CompOpp c2) = CompOpp (lex c1 c2).
Proof. by destruct c1. Qed.

Lemma lex_eq c1 c2 : lex c1 c2 = Eq → c1 = Eq ∧ c2 = Eq.
Proof. by destruct c1. Qed.

Lemma value_compare_antisym a b : value_compare a b = CompOpp (value_compare b a).
Proof.
  destruct a, b; cbn; try done.
  - apply Z.compare_antisym.
  - apply String.compare_antisym.
Qed.

Lemma value_compare_eq a b : value_compare a b = Eq → a = b.
Proof.
  destruct a, b; cbn; try done.
  - intros H. apply Z.compare_eq_iff in H. by subst.
  - intros H. apply String.compare_eq_iff in H. by subst.
Qed.

Lemma to_N_inj x y : Byte.to_N x = Byte.to_N y → x = y.
Proof.
  intros H. pose proof (Byte.of_to_N x) as Hx. rewrite H, Byte.of_to_N in Hx.
  by injection Hx.
Qed.

Lemma bytes_compare_antisym a : ∀ b, bytes_compare a b = CompOpp (bytes_compare b a).
Proof.
  induction a as [|x a IH]; intros [|y b]; cbn; try done.
  rewrite (N.compare_antisym (Byte.to_N y) (Byte.to_N x)), (IH b). apply lex_opp.
Qed.

Lemma bytes_compare_eq a : ∀ b, bytes_compare a b = Eq → a = b.
Proof.
  induction a as [|x a IH]; intros [|y b]; cbn; try done.
  intros H. apply lex_eq in H as [H1 H2].
  apply N.compare_eq_iff, to_N_inj in H1. apply IH in H2. by subst.
Qed.

Lemma stamp_compare_antisym s t : stamp_compare s t = CompOpp (stamp_compare t s).
Proof.
  destruct s as [[[v1 c1] x1] s1], t as [[[v2 c2] x2] s2]. cbn.
  rewrite (Z.compare_antisym v2 v1), (Z.compare_antisym c2 c1),
    (value_compare_antisym x1 x2), (bytes_compare_antisym s1 s2).
  by rewrite !lex_opp.
Qed.

Lemma stamp_compare_eq s t : stamp_compare s t = Eq → s = t.
Proof.
  destruct s as [[[v1 c1] x1] s1], t as [[[v2 c2] x2] s2]. cbn.
  intros H. apply lex_eq in H as [H1 H]. apply lex_eq in H as [H2 H].
  apply lex_eq in H as [H3 H4].
  apply Z.compare_eq_iff in H1. apply Z.compare_eq_iff in H2.
  apply value_compare_eq in H3. apply bytes_compare_eq in H4. by subst.
Qed.

Lemma stamp_compare_refl s : stamp_compare s s = Eq.
Proof.
  pose proof (stamp_compare_antisym s s) as H. by destruct (stamp_compare s s).
Qed.

Lemma pick_idem s : pick s s = s.
Proof. unfold pick. by destruct (newer s s). Qed.

Lemma pick_comm s t : pick s t = pick t s.
Proof.
  unfold pick, newer. rewrite (stamp_compare_antisym s t).
  destruct (stamp_compare t s) eqn:E; cbn; try done.
  by apply stamp_compare_eq in E.
Qed.

Lemma pick_cases s t : pick s t = s ∨ pick s t = t.
Proof. unfold pick. destruct (newer t s); auto. Qed.

Lemma omerge_idem x : omerge x x = x.
Proof. destruct x; cbn; [|done]. by rewrite pick_idem. Qed.

Lemma omerge_comm x y : omerge x y = omerge y x.
Proof. destruct x, y; cbn; try done. by rewrite pick_comm. Qed.

Lemma omerge_absorb_r x y : omerge x (omerge y x) = omerge y x.
Proof.
  destruct x as [s|], y as [t|]; cbn; try done.
  - destruct (pick_cases t s) as [H | H]; rewrite H;
      [by rewrite pick_comm, H | by rewrite pick_idem].
  - by rewrite pick_idem.
Qed.

Lemma omerge_absorb_l x y : omerge (omerge x y) y = omerge x y.
Proof. rewrite (omerge_comm (omerge x y) y). apply omerge_absorb_r. Qed.

Lemma omerge_absorb_l' x y : omerge (omerge x y) x = omerge x y.
Proof. rewrite (omerge_comm x y). apply omerge_absorb_l. Qed.

Lemma omerge_absorb_r' x y : omerge x (omerge x y) = omerge x y.
Proof. rewrite (omerge_comm x y). apply omerge_absorb_r. Qed.
End OrderFacts.

Section StoreFacts.
Import Base64 CRStore Ledger.

Lemma stamp_installed (c : Change) (v : Z) :
  stamp (mkChange (table c) (pk c) (cid c) (val c) (col_version c) v
                  (site_id c) (cl c) (seq c)) = stamp c.
Proof. reflexivity. Qed.

(** Merging a change touches its own cell only, and leaves there the later
    of the two stamps. *)
Lemma merge_change_stamps (db : DB) (c : Change) (k : string * list byte * string) :
  stamps (merge_change db c) !! k
  = if decide (key_of c = k) then omerge (stamps db !! k) (Some (stamp c))
    else stamps db !! k.
Proof.
  unfold merge_change, stamps.
  destruct (cells db !! key_of c) as [old|] eqn:Hold.
  - destruct (newer (stamp c) (stamp old)) eqn:Hnew.
    + cbn [cells]. rewrite fmap_insert, lookup_insert. case_decide; [|done].
      subst k. rewrite lookup_fmap, Hold. cbn. unfold pick. by rewrite Hnew.
    + case_decide; [|done]. subst k. rewrite lookup_fmap, Hold. cbn.
      unfold pick. by rewrite Hnew.
  - cbn [cells]. rewrite fmap_insert, lookup_insert. case_decide; [|done].
    subst k. by rewrite lookup_fmap, Hold.
Qed.

Lemma merge_change_well_formed (db : DB) (c : Change) :
  well_formed db → well_formed (merge_change db c).
Proof.
  intros [Hv Hcells]. unfold merge_change.
  assert (Hinstall : well_formed
    (mkDB (<[key_of c := mkChange (table c) (pk c) (cid c) (val c) (col_version c)
                           (version db + 1) (site_id c) (cl c) (seq c)]> (cells db))
          (version db + 1) (site db))).
  { split; cbn; [lia|]. intros k d Hk.
    apply lookup_insert_Some in Hk as [[<- <-] | [_ Hk]]; [|by apply Hcells].
    split; [done|]. cbn. lia. }
  destruct (cells db !! key_of c) as [old|]; [|done].
  by destruct (newer (stamp c) (stamp old)).
Qed.

Lemma merge_changes_well_formed (cs : list Change) (db : DB) :
  well_formed db → well_formed (fold_left merge_change cs db).
Proof.
  revert db. induction cs as [|c cs IH]; intros db Hwf; [done|].
  cbn. by apply IH, merge_change_well_formed.
Qed.

(** The cell [k] after a batch: only the changes of that cell count. *)
Lemma merge_changes_stamps (cs : list Change) (db : DB) k :
  stamps (fold_left merge_change cs db) !! k
  = fold_left (fun o c => if decide (key_of c = k)
                          then omerge o (Some (stamp c)) else o)
      cs (stamps db !! k).
Proof.
  revert db. induction cs as [|c cs IH]; intros db; [done|].
  cbn [fold_left]. by rewrite IH, merge_change_stamps.
Qed.

Lemma fold_other_keys (cs : list Change) k (o : option Stamp) :
  (∀ c, c ∈ cs → key_of c ≠ k) →
  fold_left (fun o c => if decide (key_of c = k)
                        then omerge o (Some (stamp c)) else o) cs o = o.
Proof.
  revert o. induction cs as [|c cs IH]; intros o Hcs; [done|].
  cbn [fold_left]. rewrite decide_False by (apply Hcs; left).
  apply IH. intros d Hd. apply Hcs. by right.
Qed.

Lemma fold_one_key (cs : list Change) k (o : option Stamp) (c : Change) :
  NoDup (key_of <$> cs) → c ∈ cs → key_of c = k →
  fold_left (fun o c => if decide (key_of c = k)
                        then omerge o (Some (stamp c)) else o) cs o
  = omerge o (Some (stamp c)).
Proof.
  intros Hnd Hc Hk. apply list_elem_of_split in Hc as (l1 & l2 & ->).
  rewrite fmap_app, fmap_cons in Hnd.
  apply NoDup_app in Hnd as (_ & Hdis & Hnd2).
  apply NoDup_cons in Hnd2 as [Hnot _].
  rewrite fold_left_app. cbn [fold_left].
  rewrite decide_True by done.
  rewrite (fold_other_keys l2), (fold_other_keys l1); [done| |].
  - intros d Hd Hdk. apply (Hdis (key_of d)); [by apply list_elem_of_fmap_2|].
    rewrite Hdk, <- Hk. left.
  - intros d Hd Hdk. apply Hnot. rewrite Hk, <- Hdk. by apply list_elem_of_fmap_2.
Qed.

Lemma filter_all {A} (P : A → Prop) `{∀ x, Decision (P x)} (l : list A) :
  Forall P l → filter P l = l.
Proof.
  induction 1 as [|x l Hx _ IH]; [done|].
  rewrite filter_cons, decide_True by done. by rewrite IH.
Qed.

(** From version 0 on, the store hands out every cell, once. *)
Lemma select_changes_all (db : DB) :
  well_formed db → select_changes db 0 ≡ₚ (map_to_list (cells db)).*2.
Proof.
  intros [_ Hcells]. unfold select_changes. rewrite merge_sort_Permutation.
  rewrite filter_all; [done|].
  apply Forall_forall. intros c Hc.
  apply list_elem_of_fmap in Hc as ([k c'] & -> & Hc).
  apply elem_of_map_to_list in Hc. by apply Hcells in Hc as [_ Hc].
Qed.

Lemma keys_of_cells (db : DB) :
  well_formed db → key_of <$> (map_to_list (cells db)).*2 = (map_to_list (cells db)).*1.
Proof.
  intros [_ Hcells]. rewrite <- list_fmap_compose.
  apply list_fmap_ext. intros i [k c] Hi. cbn.
  apply list_elem_of_lookup_2, elem_of_map_to_list in Hi.
  by apply Hcells in Hi as [-> _].
Qed.

Lemma merge_all_stamps (a b : DB) :
  well_formed a →
  stamps (fold_left merge_change (select_changes a 0) b)
  = merge omerge (stamps b) (stamps a).
Proof.
  intros Hwf. apply map_eq. intros k.
  rewrite merge_changes_stamps, lookup_merge.
  pose proof (select_changes_all a Hwf) as Hperm.
  assert (Hnd : NoDup (key_of <$> select_changes a 0)).
  { rewrite Hperm, (keys_of_cells a Hwf). apply NoDup_fst_map_to_list. }
  destruct (cells a !! k) as [c|] eqn:Hk.
  - assert (Hs : stamps a !! k = Some (stamp c)).
    { unfold stamps. by rewrite lookup_fmap, Hk. }
    rewrite Hs. destruct Hwf as [_ Hcells].
    destruct (Hcells k c Hk) as [Hkey _].
    rewrite (fold_one_key _ k _ c Hnd); [by destruct (stamps b !! k)| |done].
    rewrite Hperm. apply list_elem_of_fmap. exists (k, c). split; [done|].
    by apply elem_of_map_to_list.
  - assert (Hs : stamps a !! k = None).
    { unfold stamps. by rewrite lookup_fmap, Hk. }
    rewrite Hs, fold_other_keys; [by destruct (stamps b !! k)|].
    intros c Hc Hck. rewrite Hperm in Hc.
    apply list_elem_of_fmap in Hc as ([k' c'] & -> & Hc).
    apply elem_of_map_to_list in Hc. destruct Hwf as [_ Hcells].
    destruct (Hcells k' c' Hc) as [-> _]. cbn in Hck. congruence.
Qed.

Lemma decode_encode_change (c : Change) : decode_change (encode_change c) = Some c.
Proof.
  unfold decode_change, encode_change. cbn.
  rewrite !base64ToUint8_uint8ToBase64. by destruct c.
Qed.

(** A batch that [getChanges] has produced is applied whole. *)
Lemma applyLoop_encoded (cs : list Change) (store : DB) :
  applyLoop insert store (map encode_change cs) = (fold_left merge_change cs store, None).
Proof.
  revert store. induction cs as [|c cs IH]; intros store; [done|].
  cbn [map applyLoop fold_left]. rewrite decode_encode_change. cbn [insert].
  apply IH.
Qed.

Lemma write_cell_well_formed v site t pk cells n col :
  (0 < v)%Z →
  (∀ k c, cells !! k = Some c → k = key_of c ∧ (0 < db_version c)%Z) →
  ∀ k c, write_cell v site t pk cells n col !! k = Some c →
         k = key_of c ∧ (0 < db_version c)%Z.
Proof.
  intros Hv Hcells k c. unfold write_cell. intros Hk.
  apply lookup_insert_Some in Hk as [[<- <-] | [_ Hk]]; [done|by apply Hcells].
Qed.

Lemma write_cells_well_formed v site t pk cols :
  (0 < v)%Z →
  ∀ cells n,
    (∀ k c, cells !! k = Some c → k = key_of c ∧ (0 < db_version c)%Z) →
    ∀ k c, write_cells v site t pk cells n cols !! k = Some c →
           k = key_of c ∧ (0 < db_version c)%Z.
Proof.
  intros Hv. induction cols as [|col cols IH]; intros cells n Hcells; [done|].
  cbn [write_cells]. apply IH. by apply write_cell_well_formed.
Qed.

Lemma local_write_well_formed (db : DB) (w : Write) :
  well_formed db → well_formed (local_write db w).
Proof.
  intros [Hv Hcells]. unfold local_write.
  destruct w as [t pk cols | t pk cols | t pk].
  - destruct (is_visible db t pk || is_deleted db t pk); [done|].
    split; cbn; [lia|]. apply write_cells_well_formed; [lia|done].
  - destruct (is_visible db t pk); [|done].
    split; cbn; [lia|]. apply write_cells_well_formed; [lia|done].
  - destruct (is_visible db t pk); [|done].
    split; cbn; [lia|]. apply write_cell_well_formed; [lia|done].
Qed.

Lemma replica_well_formed (site : list byte) (writes : list Write) :
  well_formed (db (replica site writes)).
Proof.
  unfold replica, local_writes. cbn [db].
  assert (Hopen : well_formed (open site)) by (split; [done|]; intros k c Hk; done).
  revert Hopen. generalize (open site) as store.
  induction writes as [|w ws IH]; intros store Hwf; [done|].
  cbn [fold_left]. by apply IH, local_write_well_formed.
Qed.

Lemma lookup_merge_omerge (x y : gmap (string * list byte * string) Stamp) k :
  merge omerge x y !! k = omerge (x !! k) (y !! k).
Proof. rewrite lookup_merge. by destruct (x !! k), (y !! k). Qed.

(** One round: the sender keeps its cells, the receiver ends with the later
    stamp in every cell. *)
Lemma exchange_stamps (a b : CRSQLiteDB DB) (dir : Direction) :
  well_formed (db a) → well_formed (db b) →
  let '(a', b') := exchange (a, b) dir in
  well_formed (db a') ∧ well_formed (db b')
  ∧ match dir with
    | AtoB => stamps (db a') = stamps (db a)
              ∧ stamps (db b') = merge omerge (stamps (db b)) (stamps (db a))
    | BtoA => stamps (db a') = merge omerge (stamps (db a)) (stamps (db b))
              ∧ stamps (db b') = stamps (db b)
    end.
Proof.
  intros Ha Hb. destruct dir; cbn [exchange get_changes getChanges refreshVersion db];
    unfold apply_changes, applyChanges; rewrite applyLoop_encoded;
    cbn [fst refreshVersion db].
  - split; [done|]. split; [by apply merge_changes_well_formed|].
    split; [done|]. by apply merge_all_stamps.
  - split; [by apply merge_changes_well_formed|]. split; [done|].
    split; [|done]. by apply merge_all_stamps.
Qed.

Lemma table_rows_stamps (a b : DB) (t : string) :
  stamps a = stamps b → table_rows a t = table_rows b t.
Proof.
  intros Heq. unfold table_rows.
  assert (Hval : ∀ d : DB, val <$> cells d = (fun s : Stamp => s.1.2) <$> stamps d).
  { intros d. unfold stamps. rewrite <- map_fmap_compose. done. }
  by rewrite !Hval, Heq.
Qed.

Lemma exchanges_snoc rounds dir ab :
  exchanges (rounds ++ [dir]) ab = exchange (exchanges rounds ab) dir.
Proof. unfold exchanges. by rewrite fold_left_app. Qed.

(** However the rounds are ordered, a replica holds its own cells or the
    merge of both, and the merge once it has received. *)
Lemma exchanges_stamps (a b : CRSQLiteDB DB) (rounds : list Direction) :
  well_formed (db a) → well_formed (db b) →
  let joined := merge omerge (stamps (db a)) (stamps (db b)) in
  let '(a', b') := exchanges rounds (a, b) in
  well_formed (db a') ∧ well_formed (db b')
  ∧ (stamps (db a') = stamps (db a) ∨ stamps (db a') = joined)
  ∧ (stamps (db b') = stamps (db b) ∨ stamps (db b') = joined)
  ∧ (BtoA ∈ rounds → stamps (db a') = joined)
  ∧ (AtoB ∈ rounds → stamps (db b') = joined).
Proof.
  intros Ha Hb joined.
  assert (Hba : merge omerge (stamps (db b)) (stamps (db a)) = joined).
  { apply map_eq. intros k. subst joined. rewrite !lookup_merge_omerge. apply omerge_comm. }
  assert (Hbj : merge omerge (stamps (db b)) joined = joined).
  { apply map_eq. intros k. subst joined. rewrite !lookup_merge_omerge.
    apply omerge_absorb_r. }
  assert (Hja : merge omerge joined (stamps (db a)) = joined).
  { apply map_eq. intros k. subst joined. rewrite !lookup_merge_omerge.
    apply omerge_absorb_l'. }
  assert (Haj : merge omerge (stamps (db a)) joined = joined).
  { apply map_eq. intros k. subst joined. rewrite !lookup_merge_omerge.
    apply omerge_absorb_r'. }
  assert (Hjb : merge omerge joined (stamps (db b)) = joined).
  { apply map_eq. intros k. subst joined. rewrite !lookup_merge_omerge.
    apply omerge_absorb_l. }
  assert (Hjj : merge omerge joined joined = joined).
  { apply map_eq. intros k. rewrite !lookup_merge_omerge. apply omerge_idem. }
  induction rounds as [|dir rounds IH] using rev_ind.
  - cbn. split; [done|]. split; [done|]. split; [by left|]. split; [by left|].
    split; intros Hin; by apply elem_of_nil in Hin.
  - rewrite exchanges_snoc. destruct (exchanges rounds (a, b)) as [a1 b1].
    destruct IH as (Ha1 & Hb1 & Hsa & Hsb & Hseen_a & Hseen_b).
    pose proof (exchange_stamps a1 b1 dir Ha1 Hb1) as Hstep.
    destruct (exchange (a1, b1) dir) as [a2 b2].
    destruct Hstep as (Ha2 & Hb2 & Hstep).
    split; [done|]. split; [done|].
    destruct dir; destruct Hstep as [Hsa2 Hsb2].
    + assert (Hb2j : stamps (db b2) = joined).
      { rewrite Hsb2. destruct Hsa as [-> | ->], Hsb as [-> | ->]; done. }
      rewrite Hsa2. split; [done|]. split; [by right|]. split; [|done].
      intros Hin. apply Hseen_a. apply elem_of_app in Hin as [Hin | Hin]; [done|].
      by apply list_elem_of_singleton in Hin.
    + assert (Ha2j : stamps (db a2) = joined).
      { rewrite Hsa2. destruct Hsa as [-> | ->], Hsb as [-> | ->]; done. }
      rewrite Hsb2. split; [by right|]. split; [done|]. split; [done|].
      intros Hin. apply Hseen_b. apply elem_of_app in Hin as [Hin | Hin]; [done|].
      by apply list_elem_of_singleton in Hin.
Qed.

(** C2. Catalog convergence: two replicas make their local writes and then
    exchange all their changes, [getChanges(0)] of one applied by
    [applyChanges] of the other, in rounds of any order; once changes have
    gone both ways, the two hold the same rows with the same column
    values in [sites]. *)
Theorem catalog_convergence (siteA siteB : list byte) (writesA writesB : list Write)
    (rounds : list Direction) :
  AtoB ∈ rounds → BtoA ∈ rounds →
  let '(a, b) := exchanges rounds (replica siteA writesA, replica siteB writesB) in
  table_rows (db a) "sites" = table_rows (db b) "sites".
Proof.
  intros Hab Hba.
  pose proof (exchanges_stamps (replica siteA writesA) (replica siteB writesB) rounds
                (replica_well_formed _ _) (replica_well_formed _ _)) as H.
  cbv zeta in H. destruct (exchanges rounds _) as [a b].
  destruct H as (_ & _ & _ & _ & Ha & Hb).
  apply table_rows_stamps. by rewrite (Ha Hba), (Hb Hab).
Qed.
End StoreFacts.

Section EngineFacts.
Import Base64 CRStore Ledger.
Context {Store : Type}.
Variable crsql_insert : Store → Change → option Store.
Variable crsql_version : Store → Z.

Lemma applyLoop_prefix (changes : list WireChange) :
  ∀ store : Store,
  ∃ applied rest,
    changes = applied ++ rest
    ∧ commit crsql_insert store applied
      = Some (fst (applyLoop crsql_insert store changes))
    ∧ match snd (applyLoop crsql_insert store changes) with
      | None => rest = []
      | Some e =>
          ∃ change rest', rest = change :: rest'
            ∧ commit crsql_insert (fst (applyLoop crsql_insert store changes)) [change]
              = None
            ∧ match decode_change change with
              | None => e = InvalidCharacter
              | Some row =>
                  crsql_insert (fst (applyLoop crsql_insert store changes)) row = None
                  ∧ e = ExecFailed
              end
      end.
Proof.
  induction changes as [|change changes IH]; intros store.
  - exists [], []. by cbn.
  - cbn [applyLoop].
    destruct (decode_change change) as [row|] eqn:Hrow.
    + destruct (crsql_insert store row) as [store'|] eqn:Hins.
      * destruct (IH store') as (applied & rest & -> & Hcommit & Hrest).
        exists (change :: applied), rest. split; [done|]. split; [|done].
        cbn [commit]. by rewrite Hrow, Hins.
      * exists [], (change :: changes). split; [done|]. split; [done|].
        exists change, changes. split; [done|]. cbn. by rewrite Hrow, Hins.
    + exists [], (change :: changes). split; [done|]. split; [done|].
      exists change, changes. split; [done|]. cbn. by rewrite Hrow.
Qed.

(** The loop ends without an error exactly when the whole batch commits,
    and then it leaves the store of the whole batch. *)
Lemma commit_applyLoop (changes : list WireChange) :
  ∀ store : Store,
  commit crsql_insert store changes
  = match snd (applyLoop crsql_insert store changes) with
    | None => Some (fst (applyLoop crsql_insert store changes))
    | Some _ => None
    end.
Proof.
  induction changes as [|change changes IH]; intros store; [done|].
  cbn [commit applyLoop].
  destruct (decode_change change) as [row|]; [|done].
  destruct (crsql_insert store row) as [store'|]; [|done].
  apply IH.
Qed.

(** A record does not decode exactly when its [pk] or its [site_id] is
    not base64. *)
Lemma decode_change_None (change : WireChange) :
  decode_change change = None
  ↔ base64ToUint8 (w_pk change) = None ∨ base64ToUint8 (w_site_id change) = None.
Proof.
  unfold decode_change.
  destruct (base64ToUint8 (w_pk change)); [|by split; [left|]].
  destruct (base64ToUint8 (w_site_id change)); [|by split; [right|]].
  split; [done|]. by intros [?|?].
Qed.

(** C1, amended. [applyChanges] applies the records one at a time, in the
    order of the batch, each one committed on its own. It ends without an
    error exactly when every record of the batch can be applied, and then
    all are applied and the version is refreshed. Otherwise the store
    holds the records before the first one that fails, applied; the
    failing one and those after it are not applied; the error thrown is
    [InvalidCharacter] when the [pk] or the [site_id] of the failing
    record is not base64, and that of [exec] when the store rejects the
    insert; the version is not refreshed. If the first record of the batch
    is the one that fails, the store is as it was. *)
Theorem apply_changes_commits_prefix (this : CRSQLiteDB Store)
    (changes : list WireChange) :
  let result := applyChanges crsql_insert crsql_version this changes in
  (snd result = None ↔ is_Some (commit crsql_insert (db this) changes))
  ∧ (∀ change rest', changes = change :: rest' →
       commit crsql_insert (db this) [change] = None →
       db (fst result) = db this ∧ snd result ≠ None)
  ∧ ∃ applied rest,
    changes = applied ++ rest
    ∧ commit crsql_insert (db this) applied = Some (db (fst result))
    ∧ match snd result with
      | None =>
          rest = []
          ∧ commit crsql_insert (db this) changes = Some (db (fst result))
          ∧ dbVersion (fst result) = crsql_version (db (fst result))
      | Some e =>
          (∃ change rest', rest = change :: rest'
             ∧ commit crsql_insert (db (fst result)) [change] = None
             ∧ match decode_change change with
               | None =>
                   e = InvalidCharacter
                   ∧ (base64ToUint8 (w_pk change) = None
                      ∨ base64ToUint8 (w_site_id change) = None)
               | Some row =>
                   crsql_insert (db (fst result)) row = None ∧ e = ExecFailed
               end)
          ∧ dbVersion (fst result) = dbVersion this
      end.
Proof.
  cbv zeta.
  pose proof (commit_applyLoop changes (db this)) as Hall.
  destruct (applyLoop_prefix changes (db this))
    as (applied & rest & Hsplit & Hcommit & Hrest).
  assert (Hfirst : ∀ change rest', changes = change :: rest' →
            commit crsql_insert (db this) [change] = None →
            applyLoop crsql_insert (db this) changes
            = (db this, snd (applyLoop crsql_insert (db this) changes))
            ∧ snd (applyLoop crsql_insert (db this) changes) ≠ None).
  { intros change rest' -> Hfail. cbn [commit] in Hfail. cbn [applyLoop].
    destruct (decode_change change) as [row|]; [|done].
    by destruct (crsql_insert (db this) row). }
  unfold applyChanges.
  destruct (applyLoop crsql_insert (db this) changes) as [store [e|]] eqn:Hloop;
    cbn [fst snd db dbVersion refreshVersion] in *.
  - split; [rewrite Hall; split; [done|by intros [? ?]]|].
    split.
    { intros change rest' Hc Hfail.
      destruct (Hfirst change rest' Hc Hfail) as [Hst _]. by inversion Hst. }
    exists applied, rest. split; [done|]. split; [done|]. split; [|done].
    destruct Hrest as (change & rest' & -> & Hfail & Hkind).
    exists change, rest'. split; [done|]. split; [done|].
    destruct (decode_change change) as [row|] eqn:Hrow; [done|].
    split; [done|]. by apply decode_change_None.
  - split; [rewrite Hall; split; [by eexists|done]|].
    split.
    { intros change rest' Hc Hfail.
      by destruct (Hfirst change rest' Hc Hfail) as [_ Hne]. }
    exists applied, rest. split; [done|]. split; [done|]. by repeat split.
Qed.
End EngineFacts.

Section ReplicaFacts.
Import Base64 CRStore Ledger Scenarios.

(** C1, as stated, fails: on [broken_batch] the second record makes
    [applyChanges] throw, so the batch is not applied; yet the store is
    not as it was, the first record is committed. *)
Lemma apply_changes_is_not_atomic :
  snd (apply_changes replica_b broken_batch) = Some InvalidCharacter
  ∧ commit insert (db replica_b) broken_batch = None
  ∧ db (fst (apply_changes replica_b broken_batch)) ≠ db replica_b
  ∧ table_rows (db replica_b) "sites" !! [x01] = None
  ∧ table_rows (db (fst (apply_changes replica_b broken_batch))) "sites" !! [x01]
    = Some {[ "name" := VText "Alpha" ]}.
Proof.
  split; [compute_done|]. split; [compute_done|].
  split; [|split; compute_done].
  intros H. apply (f_equal version) in H. revert H. compute_done.
Qed.

(** A batch that throws can also leave the store as it was without its
    first record being the failing one: here the first record is one that
    B holds already, and merging it changes nothing. *)
Example failing_batch_of_a_known_record :
  let batch := map encode_change (select_changes (db replica_b) 0)
               ++ [mkWire "sites" "!" "name" (VText "Gamma") 1 2 "Cg==" 1 0] in
  length batch = 2
  ∧ snd (apply_changes replica_b batch) = Some InvalidCharacter
  ∧ fst (apply_changes replica_b batch) = replica_b.
Proof. cbv zeta. split; [compute_done|]. split; [compute_done|]. by vm_compute. Qed.

Lemma catalog_convergence_witness :
  AtoB ∈ [AtoB; BtoA] ∧ BtoA ∈ [AtoB; BtoA]
  ∧ let '(a, b) := exchanges [AtoB; BtoA] (replica [x0a] writes_a, replica [x0b] writes_b) in
    table_rows (db a) "sites" = table_rows (db b) "sites".
Proof.
  assert (H1 : AtoB ∈ [AtoB; BtoA]) by (apply elem_of_cons; by left).
  assert (H2 : BtoA ∈ [AtoB; BtoA])
    by (apply elem_of_cons; right; apply elem_of_cons; by left).
  split; [exact H1|]. split; [exact H2|].
  exact (catalog_convergence [x0a] [x0b] writes_a writes_b [AtoB; BtoA] H1 H2).
Defined.

(** Replicas A and B both end with the two sites. *)
Example two_replicas_converge :
  table_rows (db (fst (exchanges [AtoB; BtoA] (replica_a, replica_b)))) "sites"
  = {[ [x01] := {[ "name" := VText "Alpha 2"; "file_count" := VInt 0 ]};
       [x02] := {[ "name" := VText "Beta" ]} ]}
  ∧ table_rows (db (snd (exchanges [AtoB; BtoA] (replica_a, replica_b)))) "sites"
  = {[ [x01] := {[ "name" := VText "Alpha 2"; "file_count" := VInt 0 ]};
       [x02] := {[ "name" := VText "Beta" ]} ]}.
Proof. split; compute_done. Qed.

(** One round alone does not make the replicas agree. *)
Example one_round_is_not_enough :
  table_rows (db (fst (exchanges [AtoB] (replica_a, replica_b)))) "sites"
  ≠ table_rows (db (snd (exchanges [AtoB] (replica_a, replica_b)))) "sites".
Proof. compute_done. Qed.

(** Concurrent writes of one column: the later stamp wins on both sides. *)
Example concurrent_rename :
  let rename name r :=
    mkCRSQLiteDB (local_write (db r) (Update "sites" [x01] [("name", VText name)]))
                 (dbVersion r) in
  let shared := exchanges [AtoB] (replica [x0a] [Insert "sites" [x01] [("name", VText "Alpha")]],
                                  replica [x0b] []) in
  let ab := exchanges [BtoA; AtoB] (rename "One" (fst shared), rename "Two" (snd shared)) in
  table_rows (db (fst ab)) "sites" = {[ [x01] := {[ "name" := VText "Two" ]} ]}
  ∧ table_rows (db (snd ab)) "sites" = {[ [x01] := {[ "name" := VText "Two" ]} ]}.
Proof. split; compute_done. Qed.

(** A row deleted on one side disappears on both. *)
Example delete_propagates :
  let ab := exchanges [AtoB; BtoA]
              (replica [x0a] (writes_a ++ [Delete "sites" [x01]]), replica_b) in
  table_rows (db (fst ab)) "sites" = {[ [x02] := {[ "name" := VText "Beta" ]} ]}
  ∧ table_rows (db (snd ab)) "sites" = {[ [x02] := {[ "name" := VText "Beta" ]} ]}.
Proof. split; compute_done. Qed.

(** A batch applied twice leaves the store as applied once. *)
Example apply_twice :
  let changes := snd (get_changes replica_a 0) in
  let once := fst (apply_changes replica_b changes) in
  let twice := fst (apply_changes once changes) in
  cells (db twice) = cells (db once) ∧ version (db twice) = version (db once)
  ∧ dbVersion twice = dbVersion once.
Proof. cbv zeta. repeat split; compute_done. Qed.
End ReplicaFacts.
(** ** persistence.js: the content store *)

Section StoreOpsFacts.
Import Persistence StoreOps Scenarios.

Lemma ascii_compare_N a b : Ascii.compare a b = N.compare (N_of_ascii a) (N_of_ascii b).
Proof. reflexivity. Qed.

Lemma ascii_compare_lt_trans a b c :
  Ascii.compare a b = Lt -> Ascii.compare b c = Lt -> Ascii.compare a c = Lt.
Proof.
  rewrite !ascii_compare_N, !N.compare_lt_iff. lia.
Qed.

Lemma string_compare_lt_trans s1 : forall s2 s3,
  String.compare s1 s2 = Lt -> String.compare s2 s3 = Lt -> String.compare s1 s3 = Lt.
Proof.
  induction s1 as [|a s1 IH]; intros [|b s2] [|c s3]; simpl; try congruence.
  destruct (Ascii.compare a b) eqn:Eab; try congruence;
  destruct (Ascii.compare b c) eqn:Ebc; try congruence; intros H1 H2.
  - apply Ascii.compare_eq_iff in Eab, Ebc. subst.
    rewrite ascii_compare_N, N.compare_refl. eauto.
  - apply Ascii.compare_eq_iff in Eab. subst. now rewrite Ebc.
  - apply Ascii.compare_eq_iff in Ebc. subst. now rewrite Eab.
  - now rewrite (ascii_compare_lt_trans _ _ _ Eab Ebc).
Qed.

Lemma string_compare_refl s : String.compare s s = Eq.
Proof.
  induction s as [|a s IH]; simpl; [reflexivity|].
  now rewrite ascii_compare_N, N.compare_refl.
Qed.

Lemma string_compare_gt_lt s t : String.compare s t = Gt -> String.compare t s = Lt.
Proof. intros H. rewrite String.compare_antisym, H. reflexivity. Qed.

Lemma eqb_key_compare s t : String.compare s t <> Eq -> String.eqb s t = false.
Proof.
  intros H. apply String.eqb_neq. intros ->. now rewrite string_compare_refl in H.
Qed.

(** ** [put] and [get] *)

Lemma find_put_same f db :
  find (fun g => String.eqb (f_key g) (f_key f)) (put f db) = Some f.
Proof.
  induction db as [|g db IH]; simpl.
  - now rewrite String.eqb_refl.
  - destruct (String.compare (f_key f) (f_key g)) eqn:E; simpl.
    + now rewrite String.eqb_refl.
    + now rewrite String.eqb_refl.
    + rewrite eqb_key_compare; [exact IH|].
      rewrite String.compare_antisym, E. discriminate.
Qed.

Lemma find_put_other f db k :
  k <> f_key f ->
  find (fun g => String.eqb (f_key g) k) (put f db)
  = find (fun g => String.eqb (f_key g) k) db.
Proof.
  intros Hk. assert (Hf : String.eqb (f_key f) k = false)
    by (apply String.eqb_neq; congruence).
  induction db as [|g db IH]; simpl.
  - now rewrite Hf.
  - destruct (String.compare (f_key f) (f_key g)) eqn:E; simpl.
    + apply String.compare_eq_iff in E. rewrite Hf, <- E, Hf. reflexivity.
    + now rewrite Hf.
    + now rewrite IH.
Qed.

Lemma elem_of_put f db g : g ∈ put f db -> g = f \/ g ∈ db.
Proof.
  induction db as [|h db IH]; simpl.
  - intros ->%list_elem_of_singleton. now left.
  - destruct (String.compare (f_key f) (f_key h)) eqn:E.
    + intros [->|H]%elem_of_cons; [now left|right; now right].
    + intros [->|H]%elem_of_cons; [now left|now right].
    + intros [->|H]%elem_of_cons; [right; now left|].
      destruct (IH H) as [->|?]; [now left|right; now right].
Qed.

Lemma put_elem f db : f ∈ put f db.
Proof.
  induction db as [|h db IH]; simpl; [now left|].
  destruct (String.compare (f_key f) (f_key h)); [now left|now left|now right].
Qed.

Lemma put_keeps f db g : g ∈ db -> f_key g <> f_key f -> g ∈ put f db.
Proof.
  induction db as [|h db IH]; simpl; [inversion 1|].
  intros [->|H]%elem_of_cons Hk;
  destruct (String.compare (f_key f) (f_key h)) eqn:E.
  - apply String.compare_eq_iff in E. congruence.
  - right; now left.
  - now left.
  - right; exact H.
  - right; now right.
  - right; now apply IH.
Qed.

Lemma put_ordered f db : ordered db -> ordered (put f db).
Proof.
  unfold ordered. induction 1 as [|g db Hs IH Hg]; simpl.
  - repeat constructor.
  - destruct (String.compare (f_key f) (f_key g)) eqn:E.
    + apply String.compare_eq_iff in E. constructor; [exact Hs|].
      rewrite E. exact Hg.
    + constructor; [now constructor|]. constructor; [exact E|].
      eapply Forall_impl; [exact Hg|]. intros h Hh. simpl in Hh.
      eapply string_compare_lt_trans; eauto.
    + constructor; [exact IH|]. apply Forall_forall. intros h Hh.
      apply elem_of_put in Hh as [->|Hh].
      * now apply string_compare_gt_lt.
      * rewrite Forall_forall in Hg. now apply Hg.
Qed.

Lemma ordered_NoDup db : ordered db -> NoDup (f_key <$> db).
Proof.
  unfold ordered. induction 1 as [|g db Hs IH Hg]; simpl; constructor; [|exact IH].
  intros (h & Hk & Hh)%list_elem_of_fmap. rewrite Forall_forall in Hg.
  specialize (Hg h Hh). rewrite Hk, string_compare_refl in Hg. discriminate.
Qed.

Lemma ordered_key_inj db f g :
  ordered db -> f ∈ db -> g ∈ db -> f_key f = f_key g -> f = g.
Proof.
  unfold ordered. induction 1 as [|h db Hs IH Hh]; [inversion 1|].
  rewrite Forall_forall in Hh.
  intros [->|Hf]%elem_of_cons [->|Hg]%elem_of_cons Hk; auto.
  - specialize (Hh g Hg). rewrite Hk, string_compare_refl in Hh. discriminate.
  - specialize (Hh f Hf). rewrite <- Hk, string_compare_refl in Hh. discriminate.
Qed.

Lemma put_consistent f db :
  f_key f = file_key (f_siteId f) (f_path f) -> consistent db -> consistent (put f db).
Proof. intros Hf Hc g [->|Hg]%elem_of_put; auto. Qed.

Lemma getFile_elem_of db siteId path f :
  getFile db siteId path = Some f -> f ∈ db /\ f_key f = file_key siteId path.
Proof.
  unfold getFile. intros H. split.
  - apply list_elem_of_In. eapply find_some; eauto.
  - apply find_some in H as [_ H]. now apply String.eqb_eq.
Qed.

Lemma getFile_ordered db f :
  ordered db -> f ∈ db -> f_key f = file_key (f_siteId f) (f_path f) ->
  getFile db (f_siteId f) (f_path f) = Some f.
Proof.
  intros Ho Hf Hk. unfold getFile.
  destruct (find _ db) as [g|] eqn:E.
  - destruct (getFile_elem_of _ _ _ _ E) as [Hg Hkg].
    f_equal. eapply ordered_key_inj; eauto. congruence.
  - apply list_elem_of_In in Hf. eapply find_none in E; eauto. simpl in E.
    rewrite Hk, String.eqb_refl in E. discriminate.
Qed.


(** ** Keys *)

Lemma slash_prefix_inj (a a' r r' : string) :
  slash_free a = true -> slash_free a' = true ->
  a +:+ String "/" r = a' +:+ String "/" r' -> a = a' /\ r = r'.
Proof.
  revert a'. induction a as [|c a IH]; intros [|c' a'] Ha Ha' Heq.
  - by injection Heq as ->.
  - change (String "/" r = String c' (a' +:+ String "/" r')) in Heq.
    injection Heq as <- _. cbn in Ha'. done.
  - change (String c (a +:+ String "/" r) = String "/" r') in Heq.
    injection Heq as -> _. cbn in Ha. done.
  - change (String c (a +:+ String "/" r) = String c' (a' +:+ String "/" r')) in Heq.
    injection Heq as -> Heq. cbn in Ha, Ha'.
    apply andb_prop in Ha as [_ Ha]. apply andb_prop in Ha' as [_ Ha'].
    destruct (IH a' Ha Ha' Heq) as [-> ->]. done.
Qed.

Lemma file_key_inj (s s' p p' : string) :
  slash_free s = true -> slash_free s' = true ->
  file_key s p = file_key s' p' -> s = s' /\ p = p'.
Proof. intros Hs Hs'. unfold file_key. apply slash_prefix_inj; assumption. Qed.

Lemma append_inv_head (a r r' : string) : a +:+ r = a +:+ r' -> r = r'.
Proof.
  induction a as [|c a IH]; [done|].
  change (String c (a +:+ r) = String c (a +:+ r') -> r = r').
  intros H. injection H as H. auto.
Qed.

Lemma file_key_path_inj (s p p' : string) : file_key s p = file_key s p' -> p = p'.
Proof.
  unfold file_key. intros H%append_inv_head. now injection H.
Qed.

(** ** [deleteFilesForSite] *)

Lemma filter_ext_elem {A} (P Q : A -> Prop) `{!forall x, Decision (P x)}
    `{!forall x, Decision (Q x)} (l : list A) :
  (forall x, x ∈ l -> P x <-> Q x) -> filter P l = filter Q l.
Proof.
  induction l as [|x l IH]; intros Hx; [done|].
  rewrite !filter_cons.
  assert (Hl : filter P l = filter Q l)
    by (apply IH; intros y Hy; apply Hx; now right).
  destruct (decide (P x)) as [HP|HP], (decide (Q x)) as [HQ|HQ];
    rewrite ?Hl; try reflexivity;
    exfalso; specialize (Hx x (list_elem_of_here _ _)); tauto.
Qed.

Lemma filter_none {A} (P : A -> Prop) `{!forall x, Decision (P x)} (l : list A) :
  (forall x, ¬ P x) -> filter P l = [].
Proof.
  intros Hx. induction l as [|x l IH]; [done|].
  now rewrite filter_cons_False.
Qed.

Lemma filter_ordered (P : FileRec -> Prop) `{!forall x, Decision (P x)} db :
  ordered db -> ordered (filter P db).
Proof.
  unfold ordered. induction 1 as [|g db Hs IH Hg]; [constructor|].
  rewrite filter_cons. destruct (decide (P g)); [|exact IH].
  constructor; [exact IH|]. apply Forall_forall. intros h Hh.
  apply list_elem_of_filter in Hh as [_ Hh]. rewrite Forall_forall in Hg. auto.
Qed.

Lemma deleteKeys_filter (fs db : list FileRec) :
  fold_left (fun db file => deleteKey (f_key file) db) fs db
  = filter (fun g => f_key g ∉ f_key <$> fs) db.
Proof.
  revert db. induction fs as [|f fs IH]; intros db; simpl.
  - symmetry. induction db as [|g db IHdb]; [done|].
    rewrite filter_cons_True; [by f_equal|]. apply not_elem_of_nil.
  - rewrite IH. unfold deleteKey. rewrite list_filter_filter.
    apply filter_ext_elem. intros g _. rewrite not_elem_of_cons. tauto.
Qed.

Lemma deleteFilesForSite_filter db siteId :
  ordered db ->
  deleteFilesForSite db siteId = filter (fun f => f_siteId f ≠ siteId) db.
Proof.
  intros Ho. unfold deleteFilesForSite. rewrite deleteKeys_filter.
  apply filter_ext_elem. intros g Hg. split.
  - intros Hk Hs. apply Hk. apply list_elem_of_fmap. exists g. split; [done|].
    unfold getFilesForSite. apply list_elem_of_filter. done.
  - intros Hs (f & Hk & Hf)%list_elem_of_fmap.
    apply list_elem_of_filter in Hf as [Hfs Hf].
    assert (g = f) by (eapply ordered_key_inj; eauto). congruence.
Qed.

Lemma totalSize_from (fs : list FileRec) (n : N) :
  fold_left (fun total file => (total + f_size file)%N) fs n
  = (n + totalSize fs)%N.
Proof.
  unfold totalSize. revert n. induction fs as [|f fs IH]; intros n; simpl.
  - lia.
  - rewrite (IH (n + f_size f)%N), (IH (0 + f_size f)%N). lia.
Qed.

Lemma totalSize_cons f fs : totalSize (f :: fs) = (f_size f + totalSize fs)%N.
Proof. unfold totalSize at 1. simpl. apply totalSize_from. Qed.

Lemma totalSize_split (P : FileRec -> Prop) `{!forall x, Decision (P x)} fs :
  totalSize fs = (totalSize (filter P fs) + totalSize (filter (fun f => ¬ P f) fs))%N.
Proof.
  induction fs as [|f fs IH]; [reflexivity|].
  rewrite !filter_cons, totalSize_cons.
  destruct (decide (P f)), (decide (¬ P f)); try tauto;
    rewrite ?totalSize_cons; lia.
Qed.

(** ** [copyFilesToSite] *)

Lemma copy_fold toSiteId now fs db :
  fold_left (fun db file => storeFile db toSiteId (f_path file) (f_content file)
                              (f_contentType file) (now file)) fs db
  = fold_left (fun db file => put (copy_of toSiteId now file) db) fs db.
Proof. reflexivity. Qed.

Lemma puts_ordered (mk : FileRec -> FileRec) fs db :
  ordered db -> ordered (fold_left (fun db file => put (mk file) db) fs db).
Proof.
  revert db. induction fs as [|f fs IH]; intros db Ho; simpl; [done|].
  apply IH, put_ordered, Ho.
Qed.

Lemma puts_consistent (mk : FileRec -> FileRec) fs db :
  (forall f, f_key (mk f) = file_key (f_siteId (mk f)) (f_path (mk f))) ->
  consistent db -> consistent (fold_left (fun db file => put (mk file) db) fs db).
Proof.
  intros Hmk. revert db. induction fs as [|f fs IH]; intros db Hc; simpl; [done|].
  apply IH, put_consistent; auto.
Qed.

Lemma find_app_first {A} (p : A -> bool) (l1 l2 : list A) :
  find p (l1 ++ l2)
  = match find p l1 with Some x => Some x | None => find p l2 end.
Proof.
  induction l1 as [|x l1 IH]; simpl; [done|]. now destruct (p x).
Qed.

(** The record found under a key after a series of writes is the last
    one written under it. *)
Lemma puts_find {A} (mk : A -> FileRec) (fs : list A) db k :
  find (fun g => String.eqb (f_key g) k)
       (fold_left (fun db file => put (mk file) db) fs db)
  = match find (fun g => String.eqb (f_key g) k) (rev (mk <$> fs)) with
    | Some g => Some g
    | None => find (fun g => String.eqb (f_key g) k) db
    end.
Proof.
  revert db. induction fs as [|f fs IH]; intros db; [done|].
  cbn [fold_left]. rewrite fmap_cons. cbn [rev].
  rewrite IH. rewrite find_app_first.
  destruct (find _ (rev (mk <$> fs))) as [g|]; [done|]. simpl.
  destruct (String.eqb (f_key (mk f)) k) eqn:E.
  - apply String.eqb_eq in E. subst k. apply find_put_same.
  - apply String.eqb_neq in E. apply find_put_other. congruence.
Qed.

Lemma put_filter_other (P : FileRec -> Prop) `{!forall x, Decision (P x)} f db :
  ¬ P f -> (forall g, g ∈ db -> P g -> f_key g <> f_key f) ->
  filter P (put f db) = filter P db.
Proof.
  intros Hf. induction db as [|g db IH]; intros Hdb; simpl.
  - now rewrite filter_cons_False.
  - destruct (String.compare (f_key f) (f_key g)) eqn:E.
    + apply String.compare_eq_iff in E.
      rewrite filter_cons_False by done.
      rewrite filter_cons_False; [done|].
      intros HP. eapply Hdb; eauto. now left.
    + now rewrite filter_cons_False.
    + rewrite !(filter_cons _ g). rewrite IH; [done|].
      intros h Hh. apply Hdb. now right.
Qed.


Lemma puts_filter_other (P : FileRec -> Prop) `{!forall x, Decision (P x)}
    (mk : FileRec -> FileRec) fs db :
  (forall f, ¬ P (mk f)) ->
  (forall g, g ∈ db -> P g -> forall f, f_key g <> f_key (mk f)) ->
  filter P (fold_left (fun db file => put (mk file) db) fs db) = filter P db.
Proof.
  intros Hmk. revert db. induction fs as [|f fs IH]; intros db Hdb; [done|].
  cbn [fold_left]. rewrite IH.
  - apply put_filter_other; [apply Hmk|]. intros g Hg HP. now apply Hdb.
  - intros g [->|Hg]%elem_of_put HP; [by destruct (Hmk f)|]. now apply Hdb.
Qed.

Lemma find_unique {A} (p : A -> bool) (l : list A) (y : A) :
  y ∈ l -> p y = true -> (forall x, x ∈ l -> p x = true -> x = y) ->
  find p l = Some y.
Proof.
  intros Hy Hp Hu. destruct (find p l) as [x|] eqn:E.
  - apply find_some in E as [Hx Hpx]. f_equal. apply Hu; [|done].
    now apply list_elem_of_In.
  - apply list_elem_of_In in Hy. eapply find_none in E; eauto. congruence.
Qed.

Lemma find_key_ordered db g :
  ordered db -> g ∈ db -> find (fun h => String.eqb (f_key h) (f_key g)) db = Some g.
Proof.
  intros Ho Hg. apply find_unique; [done|apply String.eqb_refl|].
  intros h Hh Hk%String.eqb_eq. eapply ordered_key_inj; eauto.
Qed.

Lemma find_key_none db k :
  Forall (fun g => String.compare k (f_key g) = Lt) db ->
  find (fun h => String.eqb (f_key h) k) db = None.
Proof.
  induction 1 as [|g db Hg _ IH]; [done|]. simpl.
  destruct (String.eqb_spec (f_key g) k) as [<-|_]; [|exact IH].
  rewrite string_compare_refl in Hg. discriminate.
Qed.

Lemma put_accounting f db :
  ordered db ->
  let old := find (fun h => String.eqb (f_key h) (f_key f)) db in
  (totalSize (put f db) + from_option f_size 0%N old
   = totalSize db + f_size f)%N
  /\ length (put f db)
     = (if old is Some _ then length db else S (length db)).
Proof.
  unfold ordered. induction 1 as [|g db Hs IH Hg]; simpl.
  - rewrite totalSize_cons. unfold totalSize. simpl. split; [lia|done].
  - destruct (String.compare (f_key f) (f_key g)) eqn:E.
    + apply String.compare_eq_iff in E. rewrite E, String.eqb_refl. simpl.
      rewrite !totalSize_cons. split; [lia|done].
    + rewrite (eqb_key_compare (f_key g) (f_key f))
        by (rewrite String.compare_antisym, E; discriminate).
      rewrite find_key_none.
      * simpl. rewrite !totalSize_cons. split; [lia|done].
      * eapply Forall_impl; [exact Hg|]. intros h Hh. simpl in Hh.
        eapply string_compare_lt_trans; eauto.
    + rewrite (eqb_key_compare (f_key g) (f_key f))
        by (rewrite String.compare_antisym, E; discriminate).
      destruct IH as [IH1 IH2]. rewrite !totalSize_cons. split; [lia|].
      simpl. rewrite IH2. now destruct (find _ db).
Qed.


Lemma site_s_ordered : ordered site_s.
Proof. repeat (constructor; [|repeat (constructor; [reflexivity|]); constructor]). constructor. Qed.

Lemma site_s_consistent : consistent site_s.
Proof.
  intros f Hf. unfold site_s in Hf.
  repeat (apply elem_of_cons in Hf as [->|Hf]; [reflexivity|]).
  by apply elem_of_nil in Hf.
Qed.

(** X1. A file written with [storeFile] is what [getFile]
    returns for that site and path, with the size of the blob; the
    answer of [getFile] for every other key is what it was. *)
Theorem stored_file_is_read_back db siteId path content contentType now :
  let db' := storeFile db siteId path content contentType now in
  getFile db' siteId path
  = Some (mkFile (file_key siteId path) siteId path contentType content
                 (N.of_nat (length content)) now)
  /\ forall siteId' path',
       file_key siteId' path' <> file_key siteId path ->
       getFile db' siteId' path' = getFile db siteId' path'.
Proof.
  split.
  - apply (find_put_same (mkFile _ _ _ _ _ _ _)).
  - intros siteId' path' Hk. unfold getFile, storeFile.
    now apply find_put_other.
Qed.

(** X2. [storeFile] keeps the keys of the store in strictly
    increasing order, hence one record per key, and keeps every record
    under the key of its site and path; the store grows by one record
    when the key was free and keeps its length when a record is
    overwritten. *)
Theorem storeFile_keeps_one_record_per_key db siteId path content contentType now :
  ordered db -> consistent db ->
  let db' := storeFile db siteId path content contentType now in
  ordered db' /\ consistent db' /\ NoDup (f_key <$> db')
  /\ length db' = (if getFile db siteId path is Some _
                   then length db else S (length db)).
Proof.
  intros Ho Hc db'.
  assert (Ho' : ordered db') by now apply put_ordered.
  split; [exact Ho'|]. split; [now apply put_consistent|].
  split; [now apply ordered_NoDup|].
  apply (put_accounting (mkFile _ _ _ _ _ _ _) db Ho).
Qed.

Lemma storeFile_keeps_one_record_per_key_witness :
  length (storeFile site_s "s" "index.html" [] "text/html" 1) = 3%nat
  /\ length (storeFile site_s "s" "new.css" [] "text/css" 1) = 4%nat.
Proof.
  split.
  - exact (proj2 (proj2 (proj2
      (storeFile_keeps_one_record_per_key site_s "s" "index.html" [] "text/html" 1
         site_s_ordered site_s_consistent)))).
  - exact (proj2 (proj2 (proj2
      (storeFile_keeps_one_record_per_key site_s "s" "new.css" [] "text/css" 1
         site_s_ordered site_s_consistent)))).
Defined.

(** X3. Writing a file changes the total of
    [getTotalStorageSize] by the size of the new blob less the size of the
    record it replaces, if any. *)
Theorem storeFile_storage_accounting db siteId path content contentType now :
  ordered db ->
  (getTotalStorageSize (storeFile db siteId path content contentType now)
   + from_option f_size 0 (getFile db siteId path)
   = getTotalStorageSize db + N.of_nat (length content))%N.
Proof.
  intros Ho. apply (put_accounting (mkFile _ _ _ _ _ _ _) db Ho).
Qed.

Lemma storeFile_storage_accounting_witness :
  (getTotalStorageSize (storeFile site_s "s" "index.html" [x68] "text/html" 1) + 2
   = 5 + 1)%N.
Proof.
  exact (storeFile_storage_accounting site_s "s" "index.html" [x68] "text/html" 1
           site_s_ordered).
Defined.

(** X4. [deleteFilesForSite] removes the records of the site
    and no other: the site has no file left and is not cached any more,
    the files of every other site are the same, the total size drops by
    the size of the site, and a second call changes nothing. *)
Theorem deleteFilesForSite_removes_the_site db siteId :
  ordered db ->
  let db' := deleteFilesForSite db siteId in
  db' = filter (fun f => f_siteId f <> siteId) db
  /\ getFilesForSite db' siteId = []
  /\ isSiteCached db' siteId = false
  /\ (forall other, other <> siteId ->
        getFilesForSite db' other = getFilesForSite db other)
  /\ (getTotalStorageSize db' + getSiteStorageSize db siteId
      = getTotalStorageSize db)%N
  /\ deleteFilesForSite db' siteId = db'.
Proof.
  intros Ho db'.
  assert (E : db' = filter (fun f => f_siteId f <> siteId) db)
    by now apply deleteFilesForSite_filter.
  assert (Hnone : getFilesForSite db' siteId = []).
  { rewrite E. unfold getFilesForSite. rewrite list_filter_filter.
    apply filter_none. tauto. }
  split; [exact E|]. split; [exact Hnone|].
  split; [unfold isSiteCached; now rewrite Hnone|].
  split; [|split].
  - intros other Hother. rewrite E. unfold getFilesForSite.
    rewrite list_filter_filter. apply filter_ext_elem. intros g _.
    split; [tauto|]. intros <-. split; [done|]. congruence.
  - rewrite E. unfold getTotalStorageSize, getSiteStorageSize, getFilesForSite.
    rewrite (totalSize_split (fun f => f_siteId f = siteId) db).
    rewrite N.add_comm. reflexivity.
  - unfold deleteFilesForSite at 1. now rewrite Hnone.
Qed.


Lemma deleteFilesForSite_removes_the_site_witness :
  deleteFilesForSite site_s "s" = filter (fun f => f_siteId f <> "s") site_s
  /\ getFilesForSite (deleteFilesForSite site_s "s") "s" = [].
Proof.
  destruct (deleteFilesForSite_removes_the_site site_s "s" site_s_ordered)
    as (H1 & H2 & _).
  split; [exact H1|exact H2].
Defined.

Lemma elem_of_rev_iff {A} (x : A) (l : list A) : x ∈ rev l <-> x ∈ l.
Proof. rewrite !list_elem_of_In. symmetry. apply in_rev. Qed.

Lemma copies_found db fromSiteId toSiteId now f :
  ordered db -> consistent db -> f ∈ getFilesForSite db fromSiteId ->
  getFile (copyFilesToSite db fromSiteId toSiteId now) toSiteId (f_path f)
  = Some (copy_of toSiteId now f).
Proof.
  intros Ho Hc Hf. unfold getFile, copyFilesToSite. rewrite copy_fold, puts_find.
  rewrite (find_unique _ _ (copy_of toSiteId now f)); [done| | |].
  - apply elem_of_rev_iff, list_elem_of_fmap. by exists f.
  - apply String.eqb_refl.
  - intros g Hg Hk. apply elem_of_rev_iff, list_elem_of_fmap in Hg as (f' & -> & Hf').
    apply String.eqb_eq in Hk. cbn in Hk. apply file_key_path_inj in Hk.
    apply list_elem_of_filter in Hf as [Hfs Hf], Hf' as [Hfs' Hf'].
    f_equal. eapply ordered_key_inj; eauto.
    rewrite (Hc f Hf), (Hc f' Hf'). congruence.
Qed.

Lemma copies_leave_source db fromSiteId toSiteId now :
  consistent db -> slash_free fromSiteId = true -> slash_free toSiteId = true ->
  fromSiteId <> toSiteId ->
  getFilesForSite (copyFilesToSite db fromSiteId toSiteId now) fromSiteId
  = getFilesForSite db fromSiteId.
Proof.
  intros Hc Hfrom Hto Hne. unfold getFilesForSite at 1, copyFilesToSite.
  rewrite copy_fold. apply puts_filter_other.
  - intros f. cbn. congruence.
  - intros g Hg Hs f Hk. rewrite (Hc g Hg), Hs in Hk. cbn in Hk.
    apply file_key_inj in Hk as [? _]; done.
Qed.

(** X5. After [copyFilesToSite], every file of the source is
    found under the same path of the destination, with the same bytes
    and content type; when the two ids differ and have no slash, the
    files of the source are what they were. *)
Theorem copyFilesToSite_copies_every_file db fromSiteId toSiteId now :
  ordered db -> consistent db ->
  let db' := copyFilesToSite db fromSiteId toSiteId now in
  (forall f, f ∈ getFilesForSite db fromSiteId ->
     exists g, getFile db' toSiteId (f_path f) = Some g
       /\ f_siteId g = toSiteId /\ f_path g = f_path f
       /\ f_content g = f_content f /\ f_contentType g = f_contentType f
       /\ f_size g = N.of_nat (length (f_content f)))
  /\ (slash_free fromSiteId = true -> slash_free toSiteId = true ->
      fromSiteId <> toSiteId ->
      getFilesForSite db' fromSiteId = getFilesForSite db fromSiteId)
  /\ ordered db' /\ consistent db'.
Proof.
  intros Ho Hc db'. split; [|split; [|split]].
  - intros f Hf. exists (copy_of toSiteId now f).
    split; [now apply copies_found|]. by repeat split.
  - now apply copies_leave_source.
  - unfold db', copyFilesToSite. rewrite copy_fold. now apply puts_ordered.
  - unfold db', copyFilesToSite. rewrite copy_fold. now apply puts_consistent.
Qed.

Lemma copyFilesToSite_copies_every_file_witness :
  exists g, getFile (copyFilesToSite site_s "s" "t" (fun _ => 7%Z)) "t" "index.html"
            = Some g
    /\ f_content g = [x68; x69].
Proof.
  destruct (proj1 (copyFilesToSite_copies_every_file site_s "s" "t" (fun _ => 7%Z)
                     site_s_ordered site_s_consistent) index_page)
    as (g & Hg & _ & _ & Hc & _).
  - unfold site_s, getFilesForSite. apply list_elem_of_filter. split; [reflexivity|].
    right; right; left.
  - exists g. split; [exact Hg|exact Hc].
Defined.

(** X6. The end of an import, [copyFilesToSite] to the new id
    and then [deleteFilesForSite] of the original id: the original id has
    no file left, and every file it had is found under the new id with
    the same bytes and content type. *)
Theorem import_moves_the_files db originalId newId now :
  ordered db -> consistent db ->
  slash_free originalId = true -> slash_free newId = true -> originalId <> newId ->
  let db' := deleteFilesForSite (copyFilesToSite db originalId newId now) originalId in
  getFilesForSite db' originalId = []
  /\ (forall f, f ∈ getFilesForSite db originalId ->
        getFile db' newId (f_path f) = Some (copy_of newId now f)).
Proof.
  intros Ho Hc Horig Hnew Hne db'.
  set (db1 := copyFilesToSite db originalId newId now) in *.
  assert (Ho1 : ordered db1)
    by (unfold db1, copyFilesToSite; rewrite copy_fold; now apply puts_ordered).
  assert (E : db' = filter (fun f => f_siteId f <> originalId) db1)
    by now apply deleteFilesForSite_filter.
  split.
  - rewrite E. unfold getFilesForSite. rewrite list_filter_filter.
    apply filter_none. tauto.
  - intros f Hf.
    pose proof (copies_found db originalId newId now f Ho Hc Hf) as Hg.
    apply getFile_elem_of in Hg as [Hg _]. fold db1 in Hg.
    unfold getFile. rewrite E.
    apply (find_key_ordered _ (copy_of newId now f)).
    + now apply filter_ordered.
    + apply list_elem_of_filter. split; [cbn; congruence|exact Hg].
Qed.

Lemma import_moves_the_files_witness :
  getFilesForSite
    (deleteFilesForSite (copyFilesToSite site_s "s" "t" (fun _ => 7%Z)) "s") "s" = []
  /\ getFile (deleteFilesForSite (copyFilesToSite site_s "s" "t" (fun _ => 7%Z)) "s")
       "t" "index.html"
     = Some (copy_of "t" (fun _ => 7%Z) index_page).
Proof.
  destruct (import_moves_the_files site_s "s" "t" (fun _ => 7%Z)
              site_s_ordered site_s_consistent eq_refl eq_refl)
    as [H1 H2]; [discriminate|].
  split; [exact H1|]. apply (H2 index_page).
  unfold site_s, getFilesForSite. apply list_elem_of_filter. split; [reflexivity|].
  right; right; left.
Defined.

End StoreOpsFacts.
(** ** transfer.js: files between two nodes *)

Section TransferRunFacts.
Import Base64 Persistence StoreOps Transfer TransferRun Scenarios.

Lemma receive_app from a b st :
  receive from (a ++ b) st = receive from b (receive from a st).
Proof. unfold receive. apply fold_left_app. Qed.

Lemma receive_cons from m ms st :
  receive from (m :: ms) st
  = receive from ms (state_after (handleTransferMessage from m st)).
Proof. reflexivity. Qed.


(** What the chunks of a file leave behind at the receiver: the pieces in
    the transfer record, the rest of the state as it was. *)
Lemma chunks_received from siteId path (pieces : list (list byte)) :
  forall st t,
    incomingTransfers st !! transferKey from siteId path = Some t ->
    let st' := receive from
                 (map (fun c => FileChunk siteId path (uint8ToBase64 c)) pieces) st in
    (exists t', incomingTransfers st' !! transferKey from siteId path = Some t'
                /\ t_chunks t' = t_chunks t ++ pieces
                /\ t_contentType t' = t_contentType t
                /\ t_receivedSize t'
                   = (t_receivedSize t + N.of_nat (length (concat pieces)))%N)
    /\ pendingRequests st' = pendingRequests st
    /\ settled st' = settled st
    /\ nextPromise st' = nextPromise st
    /\ timers st' = timers st
    /\ clock st' = clock st
    /\ sent st' = sent st
    /\ files st' = files st.
Proof.
  induction pieces as [|c pieces IH]; intros st t Ht.
  - cbn -[transferKey]. split; [|done]. exists t. rewrite app_nil_r.
    repeat split; [done|lia].
  - cbn [map]. rewrite receive_cons. cbn [handleTransferMessage].
    unfold handleFileChunk. rewrite Ht, base64ToUint8_uint8ToBase64.
    cbn [state_after].
    match goal with |- context [receive _ _ ?s] => set (st1 := s) end.
    destruct (IH st1 {| t_siteId := t_siteId t; t_path := t_path t;
                        t_contentType := t_contentType t;
                        t_totalSize := t_totalSize t;
                        t_receivedSize := t_receivedSize t + N.of_nat (length c);
                        t_chunks := t_chunks t ++ [c] |})
      as [(t' & Ht' & Hc & Hct & Hr) Hrest].
    { unfold st1. cbn -[transferKey]. apply lookup_insert_eq. }
    split; [|exact Hrest].
    exists t'. split; [exact Ht'|]. cbn in Hc, Hct, Hr.
    rewrite Hc, Hct, Hr, <- app_assoc. repeat split.
    cbn [concat]. rewrite length_app. lia.
Qed.


(** What [finalizeIncomingFile] does with a transfer record. *)
Lemma finalize_record from siteId path st t :
  incomingTransfers st !! transferKey from siteId path = Some t ->
  let st' := finalizeIncomingFile from siteId path st in
  files st' = storeFile (files st) siteId path (concat (t_chunks t))
                (t_contentType t) (clock st)
  /\ incomingTransfers st' = delete (transferKey from siteId path) (incomingTransfers st)
  /\ pendingRequests st' = delete (fileKey siteId path) (pendingRequests st)
  /\ settled st'
     = match pendingRequests st !! fileKey siteId path with
       | Some p => match settled st !! p with
                   | Some _ => settled st
                   | None => <[p := ResolvedTrue]> (settled st)
                   end
       | None => settled st
       end
  /\ nextPromise st' = nextPromise st
  /\ timers st' = timers st
  /\ clock st' = clock st
  /\ sent st' = sent st.
Proof.
  intros Ht. unfold finalizeIncomingFile. rewrite Ht.
  cbn -[transferKey fileKey storeFile settle].
  destruct (pendingRequests st !! fileKey siteId path) as [p|] eqn:Hp.
  - unfold settle. cbn -[transferKey fileKey storeFile].
    destruct (settled st !! p); cbn -[transferKey fileKey storeFile];
      repeat split.
  - cbn -[transferKey fileKey storeFile]. rewrite (delete_id _ _ Hp).
    repeat split.
Qed.

(** What the messages of a file leave behind at the receiver. *)
Lemma receive_file from (db : list FileRec) siteId path file st :
  find (fun f => String.eqb (f_path f) path) (getFilesForSite db siteId) = Some file ->
  let st' := receive from (sendFileMessages db siteId path) st in
  files st' = storeFile (files st) siteId path (f_content file)
                (f_contentType file) (clock st)
  /\ incomingTransfers st' !! transferKey from siteId path = None
  /\ pendingRequests st' = delete (fileKey siteId path) (pendingRequests st)
  /\ settled st'
     = match pendingRequests st !! fileKey siteId path with
       | Some p => match settled st !! p with
                   | Some _ => settled st
                   | None => <[p := ResolvedTrue]> (settled st)
                   end
       | None => settled st
       end
  /\ nextPromise st' = nextPromise st
  /\ timers st' = timers st
  /\ clock st' = clock st
  /\ sent st' = sent st.
Proof.
  intros Hfile. unfold sendFileMessages. rewrite Hfile.
  destruct (sendChunks_pieces siteId path (f_content file)
              (length (f_content file)) 0%N) as (pieces & Hmsgs & Hcat & _); [lia|].
  rewrite Hmsgs. cbn [drop N.to_nat] in Hcat.
  rewrite receive_cons. cbn [handleTransferMessage state_after].
  rewrite receive_app.
  match goal with |- context [receive _ (map _ _) ?s] => set (st1 := s) end.
  destruct (chunks_received from siteId path pieces st1
              {| t_siteId := siteId; t_path := path;
                 t_contentType := f_contentType file; t_totalSize := f_size file;
                 t_receivedSize := 0; t_chunks := [] |})
    as [(t' & Ht' & Hc & Hct & _) (Hp & Hs & Hn & Htm & Hcl & Hsent & Hf)].
  { unfold st1. cbn -[transferKey]. apply lookup_insert_eq. }
  rewrite receive_cons. cbn [handleTransferMessage state_after receive fold_left].
  destruct (finalize_record from siteId path _ t' Ht')
    as (Hf' & Hi' & Hp' & Hs' & Hn' & Htm' & Hcl' & Hsent').
  cbv zeta. rewrite Hf', Hi', Hp', Hs', Hn', Htm', Hcl', Hsent'.
  cbn in Hc, Hct.
  rewrite Hp, Hs, Hn, Htm, Hcl, Hsent, Hf, Hc, Hct, Hcat.
  unfold st1. cbn -[transferKey fileKey storeFile].
  split; [done|]. split; [apply lookup_delete_eq|done].
Qed.

(** X7. The messages that [sendFile] produces for a stored
    file, handled in order by any receiver, leave the file in the
    receiver's store under the same site and path, with the same bytes
    and content type; the transfer record is gone, and a pending request
    for the file is resolved and removed. *)
Theorem sent_file_is_stored (db : list FileRec) (from siteId path : string)
    (file : FileRec) (st : State) :
  find (fun f => String.eqb (f_path f) path) (getFilesForSite db siteId) = Some file ->
  let st' := receive from (sendFileMessages db siteId path) st in
  getFile (files st') siteId path
  = Some (mkFile (file_key siteId path) siteId path (f_contentType file)
                 (f_content file) (N.of_nat (length (f_content file))) (clock st))
  /\ incomingTransfers st' !! transferKey from siteId path = None
  /\ pendingRequests st' !! fileKey siteId path = None
  /\ (forall p, pendingRequests st !! fileKey siteId path = Some p ->
                settled st !! p = None ->
                settled st' !! p = Some ResolvedTrue).
Proof.
  intros Hfile st'.
  destruct (receive_file from db siteId path file st Hfile)
    as (Hf & Hi & Hp & Hs & _).
  fold st' in Hf, Hi, Hp, Hs. split; [|split; [|split]].
  - rewrite Hf. apply (find_put_same (mkFile _ _ _ _ _ _ _)).
  - exact Hi.
  - rewrite Hp. apply lookup_delete_eq.
  - intros p Hpend Hfresh. rewrite Hs, Hpend, Hfresh. apply lookup_insert_eq.
Qed.

Lemma sent_file_is_stored_witness :
  getFile (files (receive "S" (sendFileMessages [hello_file] "s" "a.txt")
                    waiting_for_index)) "s" "a.txt"
  = Some (mkFile "s/a.txt" "s" "a.txt" "text/plain" [x68; x65; x6c; x6c; x6f] 5 0).
Proof.
  exact (proj1 (sent_file_is_stored [hello_file] "S" "s" "a.txt" hello_file
                  waiting_for_index eq_refl)).
Defined.


(** ** A whole import *)
















End TransferRunFacts.
(** ** ledger.js: base64, continued *)

Section Base64More.
Import Base64.

Lemma string_of_list_length (l : list ascii) :
  String.length (string_of_list_ascii l) = length l.
Proof. induction l as [|c l IH]; [done|]. cbn. by rewrite IH. Qed.

Lemma encode_octets_length (l : list N) :
  N.of_nat (length (encode_octets l)) = (4 * ((N.of_nat (length l) + 2) / 3))%N.
Proof.
  induction l as [| a | a b | a b c r IH] using list_ind3; [done..|].
  cbn [encode_octets length]. div_lia.
Qed.

Lemma strip_padding_keeps (d : list ascii) (c : ascii) :
  c ∈ d -> c <> pad_char -> c ∈ strip_padding d.
Proof.
  intros Hc Hne. unfold strip_padding.
  assert (Hr : c ∈ rev d) by (by apply elem_of_rev_iff).
  destruct (rev d) as [|p [|q r]] eqn:E; [done| |].
  - apply list_elem_of_singleton in Hr as ->.
    destruct (Ascii.eqb_spec p pad_char); done.
  - destruct (Ascii.eqb_spec p pad_char) as [->|]; [|done].
    apply elem_of_cons in Hr as [->|Hr]; [done|].
    destruct (Ascii.eqb_spec q pad_char) as [->|].
    + apply elem_of_cons in Hr as [->|Hr]; [done|]. by apply elem_of_rev_iff.
    + by apply elem_of_rev_iff.
Qed.

Lemma sextets_of_outside (d : list ascii) (c : ascii) :
  c ∈ d -> b64_index c = None -> sextets_of d = None.
Proof.
  induction d as [|x d IH]; [by intros ?%elem_of_nil|].
  intros [->|Hc]%elem_of_cons Hi; cbn [sextets_of].
  - by rewrite Hi.
  - rewrite (IH Hc Hi). by destruct (b64_index x).
Qed.

(** X9. [base64ToUint8] gives back the bytes that
    [uint8ToBase64] has encoded, whatever the bytes and their number;
    so two byte arrays with the same encoding are equal. *)
Theorem base64_round_trip (bytes : list byte) :
  base64ToUint8 (uint8ToBase64 bytes) = Some bytes
  /\ forall other, uint8ToBase64 other = uint8ToBase64 bytes -> other = bytes.
Proof.
  split; [apply base64ToUint8_uint8ToBase64|].
  intros other H.
  pose proof (base64ToUint8_uint8ToBase64 other) as Ho.
  rewrite H, base64ToUint8_uint8ToBase64 in Ho. by injection Ho.
Qed.

(** X10. The encoding of [n] bytes has [4 * ceil(n / 3)]
    characters; a chunk of [CHUNK_SIZE] bytes travels as 87384. *)
Theorem base64_length (bytes : list byte) :
  N.of_nat (String.length (uint8ToBase64 bytes))
  = (4 * ((N.of_nat (length bytes) + 2) / 3))%N
  /\ (N.of_nat (length bytes) = Transfer.CHUNK_SIZE ->
      N.of_nat (String.length (uint8ToBase64 bytes)) = 87384%N).
Proof.
  assert (H : N.of_nat (String.length (uint8ToBase64 bytes))
              = (4 * ((N.of_nat (length bytes) + 2) / 3))%N).
  { unfold uint8ToBase64, btoa.
    rewrite string_of_list_length, encode_octets_length.
    by rewrite list_ascii_of_string_of_list_ascii, !length_map. }
  split; [exact H|]. intros Hn. rewrite H, Hn. reflexivity.
Qed.

(** X11. [base64ToUint8] throws on a text holding a
    character that is neither of the base64 alphabet, nor ASCII
    whitespace, nor [=]. *)
Theorem base64_rejects_foreign_character (base64 : string) (c : ascii) :
  c ∈ list_ascii_of_string base64 ->
  b64_index c = None -> is_ascii_whitespace c = false -> c <> pad_char ->
  base64ToUint8 base64 = None.
Proof.
  intros Hc Hi Hw Hp. unfold base64ToUint8, atob.
  set (d0 := filter _ (list_ascii_of_string base64)).
  assert (H0 : c ∈ d0).
  { apply list_elem_of_filter. split; [|done]. by rewrite Hw. }
  set (d := if (length d0 mod 4 =? 0)%nat then strip_padding d0 else d0).
  assert (Hd : c ∈ d).
  { unfold d. destruct (length d0 mod 4 =? 0)%nat; [|done].
    by apply strip_padding_keeps. }
  rewrite (sextets_of_outside d c Hd Hi).
  by destruct (length d mod 4 =? 1)%nat.
Qed.

Lemma base64_rejects_foreign_character_witness : base64ToUint8 "TW*u" = None.
Proof.
  apply (base64_rejects_foreign_character "TW*u" "*").
  - right; right; left.
  - reflexivity.
  - reflexivity.
  - discriminate.
Defined.

End Base64More.
(** ** catalog.js: reading and changing the table *)

Section CatalogOpsFacts.
Import Catalog CatalogOps Scenarios.

Lemma elem_of_rows (l : Ledger) (s : Site) :
  s ∈ rows l <-> exists k, sites l !! k = Some s.
Proof.
  unfold rows. rewrite list_elem_of_fmap. split.
  - intros ([k s'] & -> & H). exists k. by apply elem_of_map_to_list.
  - intros (k & H). exists (k, s). split; [done|]. by apply elem_of_map_to_list.
Qed.

Lemma elem_of_ordered (l : list Site) (s : Site) :
  s ∈ order_by_added_at_desc l <-> s ∈ l.
Proof. unfold order_by_added_at_desc. by rewrite merge_sort_Permutation. Qed.

Lemma later_total : Total later.
Proof. intros a b. unfold later. destruct (String.leb_total (added_at b) (added_at a)); auto. Qed.

Lemma ordered_sorted (l : list Site) : Sorted later (order_by_added_at_desc l).
Proof. apply Sorted_merge_sort, later_total. Qed.

Lemma addSite_inr l uuid now input l' s :
  addSite (Some l) uuid now input = inr (l', s) ->
  sites l !! uuid = None
  /\ l' = mkLedger (nodeId l) (<[uuid := s]> (sites l))
  /\ id s = uuid /\ owner_id s = nodeId l
  /\ added_at s = now /\ updated_at s = now.
Proof.
  unfold addSite. cbn [id].
  destruct (sites l !! uuid) eqn:E; [done|]. intros [= <- <-]. done.
Qed.

(** X12. A site added with [addSite] is the row that [getSite]
    returns for its id; it is owned by the local node, carries the time
    of the call in [added_at] and [updated_at], and is listed by
    [getMySites] and not by [getAvailableSites]; the other rows are what
    they were. *)
Theorem added_site_is_found (l l' : Ledger) (uuid now : string) (input : SiteInput)
    (s : Site) :
  addSite (Some l) uuid now input = inr (l', s) ->
  getSite (Some l') uuid = Some s
  /\ (forall k, k <> uuid -> getSite (Some l') k = getSite (Some l) k)
  /\ id s = uuid /\ owner_id s = nodeId l' /\ added_at s = now /\ updated_at s = now
  /\ isMySite (Some l') uuid = true
  /\ s ∈ getMySites (Some l')
  /\ s ∉ getAvailableSites (Some l').
Proof.
  intros (Hfree & -> & Hid & Hown & Hadd & Hupd)%addSite_inr.
  assert (Hget : getSite (Some (mkLedger (nodeId l) (<[uuid:=s]> (sites l)))) uuid
                 = Some s) by apply lookup_insert_eq.
  split; [exact Hget|]. split.
  { intros k Hk. cbn. by apply lookup_insert_ne. }
  split; [done|]. split; [done|]. split; [done|]. split; [done|]. split; [|split].
  - unfold isMySite. rewrite Hget. cbn [nodeId]. rewrite Hown. apply String.eqb_refl.
  - unfold getMySites. rewrite elem_of_ordered, list_elem_of_filter.
    split; [done|]. apply elem_of_rows. by exists uuid.
  - unfold getAvailableSites. rewrite elem_of_ordered, list_elem_of_filter.
    intros [[H _] _]. by apply H.
Qed.

Lemma added_site_is_found_witness :
  getSite (Some (mkLedger "node-b"
                   (<["b7" := mkSite "b7" "Beta" "" "" "" "node-b" "" 0 0 "t1" "t1"]>
                      (sites catalog_b)))) "b7"
  = Some (mkSite "b7" "Beta" "" "" "" "node-b" "" 0 0 "t1" "t1").
Proof.
  exact (proj1 (added_site_is_found catalog_b _ "b7" "t1"
                  (mkInput (Some "Beta") None None None None None None) _ eq_refl)).
Defined.

(** X13. [updateSite] on a row that exists changes that row
    only; the row keeps its [id] and its [added_at], whatever [updates]
    carries, and gets the time of the call in [updated_at]. The object
    returned is the row as stored when [updates] has neither [id] nor
    [added_at]. On an id without a row the call returns [null] and
    changes nothing. *)
Theorem updateSite_changes_one_row (l : Ledger) (now k : string) (updates : SiteUpdate) :
  (forall row, sites l !! k = Some row ->
     exists l' stored,
       updateSite (Some l) now k updates = (Some l', Some (spread row updates now))
       /\ getSite (Some l') k = Some stored
       /\ id stored = id row /\ added_at stored = added_at row
       /\ updated_at stored = now
       /\ nodeId l' = nodeId l
       /\ (forall j, j <> k -> getSite (Some l') j = getSite (Some l) j)
       /\ (u_id updates = None -> u_added_at updates = None ->
           stored = spread row updates now))
  /\ (sites l !! k = None -> updateSite (Some l) now k updates = (Some l, None)).
Proof.
  split.
  - intros row Hrow. unfold updateSite, getSite. rewrite Hrow.
    eexists _, (set_columns row (spread row updates now)).
    split; [reflexivity|]. cbn [getSite sites nodeId].
    split; [by rewrite lookup_alter_eq, Hrow|].
    split; [done|]. split; [done|]. split; [done|]. split; [done|]. split.
    + intros j Hj. by apply lookup_alter_ne.
    + intros Hid Hadd. unfold set_columns, spread. rewrite Hid, Hadd.
      cbn [id added_at content_hash name url description thumbnail owner_id
           file_count file_size updated_at default].
      by rewrite or_string_some.
  - intros Hnone. unfold updateSite, getSite. by rewrite Hnone.
Qed.

Lemma updateSite_changes_one_row_witness :
  (exists l' stored,
     updateSite (Some catalog_b) "t2" "a1"
       (mkUpdate (Some "zz") (Some "Alpha 2") None None None None None None None
          None None)
     = (Some l', Some (mkSite "zz" "Alpha 2" "" "first" "" "node-a" "" 0 0 "t0" "t2"))
     /\ getSite (Some l') "a1" = Some stored
     /\ id stored = "a1" /\ added_at stored = "t0" /\ updated_at stored = "t2")
  /\ updateSite (Some catalog_b) "t2" "nope" no_update = (Some catalog_b, None).
Proof.
  split.
  - destruct (proj1 (updateSite_changes_one_row catalog_b "t2" "a1"
                       (mkUpdate (Some "zz") (Some "Alpha 2") None None None None
                          None None None None None)) alpha eq_refl)
      as (l' & stored & H1 & H2 & H3 & H4 & H5 & _).
    exists l', stored. split; [exact H1|]. split; [exact H2|].
    split; [exact H3|]. split; [exact H4|exact H5].
  - exact (proj2 (updateSite_changes_one_row catalog_b "t2" "nope" no_update) eq_refl).
Defined.

Lemma updateSiteFileStats_row (l : Ledger) (now k : string)
    (fileCount fileSize : Z) (row : Site) :
  sites l !! k = Some row ->
  let stored :=
    mkSite (id row) (name row) (url row) (description row) (thumbnail row)
           (owner_id row) (content_hash row) fileCount fileSize (added_at row) now in
  updateSiteFileStats (Some l) now k fileCount fileSize
  = (Some (mkLedger (nodeId l) (<[k := stored]> (sites l))), Some stored).
Proof.
  intros Hrow stored. unfold updateSiteFileStats, updateSite, getSite. rewrite Hrow.
  assert (Hs : spread row
                 (mkUpdate None None None None None None None (Some fileCount)
                    (Some fileSize) None None) now = stored) by reflexivity.
  rewrite Hs. f_equal. f_equal. f_equal.
  apply map_eq. intros j. destruct (decide (k = j)) as [<-|Hj].
  - rewrite lookup_alter_eq, lookup_insert_eq, Hrow. cbn [fmap option_fmap option_map].
    f_equal. unfold set_columns, stored.
    cbn [id added_at content_hash name url description thumbnail owner_id
         file_count file_size updated_at].
    by rewrite or_string_some.
  - by rewrite lookup_alter_ne, lookup_insert_ne.
Qed.

(** X14. [updateSiteFileStats] on a row that exists sets
    [file_count], [file_size] and [updated_at] and leaves the other
    columns of the row as they were; the object returned is the row as
    stored. *)
Theorem file_stats_leave_the_rest (l : Ledger) (now k : string)
    (fileCount fileSize : Z) (row : Site) :
  sites l !! k = Some row ->
  let stored :=
    mkSite (id row) (name row) (url row) (description row) (thumbnail row)
           (owner_id row) (content_hash row) fileCount fileSize (added_at row) now in
  updateSiteFileStats (Some l) now k fileCount fileSize
  = (Some (mkLedger (nodeId l) (<[k := stored]> (sites l))), Some stored).
Proof. apply updateSiteFileStats_row. Qed.

Lemma file_stats_leave_the_rest_witness :
  updateSiteFileStats (Some catalog_b) "t3" "a1" 3 1200
  = (Some (mkLedger "node-b"
             (<["a1" := mkSite "a1" "Alpha" "" "first" "" "node-a" "" 3 1200 "t0" "t3"]>
                (sites catalog_b))),
     Some (mkSite "a1" "Alpha" "" "first" "" "node-a" "" 3 1200 "t0" "t3")).
Proof.
  exact (file_stats_leave_the_rest catalog_b "t3" "a1" 3 1200 alpha eq_refl).
Defined.

(** X15. [removeSite] returns [true] whether or not the row
    exists; afterwards [getSite] finds no row for the id, [isMySite] is
    false, [updateSite] returns [null], no list shows a row with that
    key, and the other rows are what they were. A second call changes
    nothing more. *)
Theorem removed_site_is_gone (l : Ledger) (k now : string) (updates : SiteUpdate) :
  exists l',
    removeSite (Some l) k = (Some l', true)
    /\ getSite (Some l') k = None
    /\ isMySite (Some l') k = false
    /\ updateSite (Some l') now k updates = (Some l', None)
    /\ (forall j, j <> k -> getSite (Some l') j = getSite (Some l) j)
    /\ (forall s, s ∈ getAllSites (Some l') <->
                  exists j, j <> k /\ sites l !! j = Some s)
    /\ removeSite (Some l') k = (Some l', true).
Proof.
  exists (mkLedger (nodeId l) (delete k (sites l))).
  assert (Hget : getSite (Some (mkLedger (nodeId l) (delete k (sites l)))) k = None)
    by apply lookup_delete_eq.
  split; [done|]. split; [exact Hget|]. split; [|split; [|split; [|split]]].
  - unfold isMySite. by rewrite Hget.
  - unfold updateSite. by rewrite Hget.
  - intros j Hj. cbn. by apply lookup_delete_ne.
  - intros s. unfold getAllSites. rewrite elem_of_ordered, elem_of_rows. cbn [sites].
    split.
    + intros (j & [Hj H]%lookup_delete_Some). by exists j.
    + intros (j & Hj & H). exists j. by apply lookup_delete_Some.
  - unfold removeSite. cbn [nodeId sites]. by rewrite delete_delete_eq.
Qed.

(** X16. [getMySites] lists the rows owned by the local
    node, [getAvailableSites] the rows owned by another node; a row
    without owner is in neither, no row is in both, both are within
    [getAllSites], and in each list a row is followed by one whose
    [added_at] is not greater. *)
Theorem my_sites_and_available_sites (l : Ledger) :
  (forall s, s ∈ getAllSites (Some l) <-> s ∈ rows l)
  /\ (forall s, s ∈ getMySites (Some l) <-> s ∈ rows l /\ owner_id s = nodeId l)
  /\ (forall s, s ∈ getAvailableSites (Some l) <->
                s ∈ rows l /\ owner_id s <> nodeId l /\ owner_id s <> "")
  /\ (forall s, s ∈ getMySites (Some l) -> s ∉ getAvailableSites (Some l))
  /\ Sorted later (getAllSites (Some l))
  /\ Sorted later (getMySites (Some l))
  /\ Sorted later (getAvailableSites (Some l)).
Proof.
  assert (Hmine : forall s, s ∈ getMySites (Some l)
                            <-> s ∈ rows l /\ owner_id s = nodeId l).
  { intros s. unfold getMySites. rewrite elem_of_ordered, list_elem_of_filter. tauto. }
  assert (Havail : forall s, s ∈ getAvailableSites (Some l)
                             <-> s ∈ rows l /\ owner_id s <> nodeId l /\ owner_id s <> "").
  { intros s. unfold getAvailableSites.
    rewrite elem_of_ordered, list_elem_of_filter. tauto. }
  split; [intros s; apply elem_of_ordered|]. split; [exact Hmine|].
  split; [exact Havail|]. split.
  - intros s [_ Ho]%Hmine [_ [Hne _]]%Havail. by apply Hne.
  - split; [|split]; apply ordered_sorted.
Qed.

(** X17. [findMySiteByHash] returns [null] for an empty hash,
    whatever the table holds; for another hash it returns a row owned by
    the local node with that content hash, and [null] only when the
    table has none. *)
Theorem findMySiteByHash_finds_my_copy (l : Ledger) (contentHash : string) :
  findMySiteByHash (Some l) "" = None
  /\ (forall s, findMySiteByHash (Some l) contentHash = Some s ->
        s ∈ rows l /\ owner_id s = nodeId l /\ content_hash s = contentHash
        /\ contentHash <> "")
  /\ (contentHash <> "" -> findMySiteByHash (Some l) contentHash = None ->
      forall s, s ∈ rows l -> owner_id s = nodeId l ->
                content_hash s <> contentHash).
Proof.
  split; [reflexivity|]. unfold findMySiteByHash.
  destruct (String.eqb_spec contentHash "") as [->|Hne].
  - split; [done|]. by intros [].
  - split.
    + intros s Hs. apply head_Some_elem_of in Hs.
      apply list_elem_of_filter in Hs as [[Ho Hh] Hr]. done.
    + intros _ Hnone s Hs Ho Hh. apply head_None in Hnone.
      assert (Hin : s ∈ filter (fun s => owner_id s = nodeId l
                                         /\ content_hash s = contentHash) (rows l))
        by (by apply list_elem_of_filter).
      rewrite Hnone in Hin. by apply elem_of_nil in Hin.
Qed.

(** X18. Every row stays under its primary key: a table in
    which each row is stored under its [id] is so again after [addSite],
    [updateSite], [updateSiteFileStats] and [removeSite], so that
    [getSite(id)] returns a row with that [id]. *)
Theorem rows_stay_under_their_id (l : Ledger) :
  keyed l ->
  (forall uuid now input l' s,
     addSite (Some l) uuid now input = inr (l', s) -> keyed l')
  /\ (forall now k updates l',
        fst (updateSite (Some l) now k updates) = Some l' -> keyed l')
  /\ (forall now k fileCount fileSize l',
        fst (updateSiteFileStats (Some l) now k fileCount fileSize) = Some l' ->
        keyed l')
  /\ (forall k l', fst (removeSite (Some l) k) = Some l' -> keyed l')
  /\ (forall k s, getSite (Some l) k = Some s -> id s = k).
Proof.
  intros Hkeyed.
  assert (Hupd : forall now k updates l',
            fst (updateSite (Some l) now k updates) = Some l' -> keyed l').
  { intros now k updates l'. unfold updateSite, getSite.
    destruct (sites l !! k) as [row|] eqn:Hrow; cbn [fst].
    - intros [= <-] j s. cbn [sites]. rewrite lookup_alter.
      destruct (decide (k = j)) as [<-|Hj]; [|by apply Hkeyed].
      rewrite Hrow. intros [= <-]. cbn [id set_columns]. by apply Hkeyed.
    - by intros [= <-]. }
  split; [|split; [exact Hupd|split; [|split]]].
  - intros uuid now input l' s (Hfree & -> & Hid & _)%addSite_inr j s'.
    cbn [sites]. intros [[<- <-]|[_ H]]%lookup_insert_Some; [done|by apply Hkeyed].
  - intros now k fileCount fileSize l'. apply Hupd.
  - intros k l' [= <-] j s. cbn [sites]. intros [_ H]%lookup_delete_Some.
    by apply Hkeyed.
  - intros k s H. by apply Hkeyed.
Qed.

Lemma catalog_b_keyed : keyed catalog_b.
Proof.
  intros k s. unfold catalog_b. cbn [sites].
  intros [<- <-]%lookup_singleton_Some. reflexivity.
Qed.

Lemma rows_stay_under_their_id_witness :
  getSite (Some catalog_b) "a1" = Some alpha /\ id alpha = "a1".
Proof.
  split; [reflexivity|].
  exact (proj2 (proj2 (proj2 (proj2 (rows_stay_under_their_id catalog_b
                                       catalog_b_keyed)))) "a1" alpha eq_refl).
Defined.

End CatalogOpsFacts.
(** ** ledger.js: peers and synchronisation *)

Section SyncFacts.
Import Base64 CRStore Ledger Sync.
Context {Store : Type}.
Variable crsql_insert : Store -> Change -> option Store.
Variable crsql_select : Store -> Z -> list Change.
Variable crsql_version : Store -> Z.

Lemma peers_get_update peerId other f (ps : list (string * PeerConn)) :
  peers_get peerId (peers_update other f ps)
  = if String.eqb other peerId then f <$> peers_get peerId ps
    else peers_get peerId ps.
Proof.
  induction ps as [|[k p] ps IH]; cbn [peers_update map peers_get].
  - by destruct (String.eqb other peerId).
  - fold (peers_update other f ps). rewrite IH.
    destruct (String.eqb_spec k other) as [->|Hko].
    + cbn [peers_get]. destruct (String.eqb_spec other peerId) as [->|Hop]; done.
    + cbn [peers_get]. destruct (String.eqb_spec k peerId) as [->|Hkp]; [|done].
      destruct (String.eqb_spec other peerId) as [->|Hop]; done.
Qed.

Lemma peers_update_keys other f (ps : list (string * PeerConn)) :
  map fst (peers_update other f ps) = map fst ps.
Proof.
  induction ps as [|[k p] ps IH]; [done|].
  cbn [peers_update map]. fold (peers_update other f ps). rewrite IH.
  by destruct (String.eqb k other).
Qed.

Lemma peers_get_None peerId (ps : list (string * PeerConn)) :
  peers_get peerId ps = None <-> peerId ∉ map fst ps.
Proof.
  induction ps as [|[k p] ps IH]; cbn [peers_get map fst].
  - split; [intros _; apply not_elem_of_nil|done].
  - rewrite not_elem_of_cons. destruct (String.eqb_spec k peerId) as [->|Hk].
    + split; [done|]. by intros [? _].
    + rewrite IH. split; [by intros ?; split|by intros [_ ?]].
Qed.

Lemma peers_get_delete peerId other (ps : list (string * PeerConn)) :
  peers_get peerId (peers_delete other ps)
  = if String.eqb other peerId then None else peers_get peerId ps.
Proof.
  induction ps as [|[k p] ps IH]; unfold peers_delete.
  - by destruct (String.eqb other peerId).
  - rewrite filter_cons. fold (peers_delete other ps). cbn [fst].
    destruct (decide (k <> other)) as [Hk|Hk].
    + cbn [peers_get]. rewrite IH.
      destruct (String.eqb_spec k peerId) as [->|Hkp]; [|done].
      destruct (String.eqb_spec other peerId) as [->|Hop]; done.
    + apply dec_stable in Hk. subst k. rewrite IH. cbn [peers_get].
      destruct (String.eqb_spec other peerId) as [->|Hop]; done.
Qed.


Lemma peers_delete_keys other (ps : list (string * PeerConn)) :
  NoDup (map fst ps) -> NoDup (map fst (peers_delete other ps)).
Proof.
  induction ps as [|[k p] ps IH]; [done|].
  cbn [map fst]. intros [Hk Hnd]%NoDup_cons. unfold peers_delete.
  rewrite filter_cons. fold (peers_delete other ps).
  destruct (decide (fst (k, p) <> other)); [|by apply IH].
  cbn [map fst]. apply NoDup_cons. split; [|by apply IH].
  intros (kp & Hkp & Hin)%list_elem_of_fmap. apply Hk.
  apply list_elem_of_filter in Hin as [_ Hin].
  apply list_elem_of_fmap. by exists kp.
Qed.

Lemma sendToPeer_peers peerId message (n : Node Store) :
  peers (fst (sendToPeer peerId message n)) = peers n.
Proof.
  unfold sendToPeer. destruct (peers_get peerId (peers n)) as [p|]; [|done].
  by destruct (is_open p).
Qed.

Lemma open_ids_get (ps : list (string * PeerConn)) peerId :
  NoDup (map fst ps) ->
  peerId ∈ open_ids ps
  <-> exists p, peers_get peerId ps = Some p /\ is_open p = true.
Proof.
  unfold open_ids. induction ps as [|[k p] ps IH]; cbn [map fst peers_get].
  - intros _. split; [by intros ?%elem_of_nil|by intros (? & ? & _)].
  - intros [Hk Hnd]%NoDup_cons. rewrite filter_cons. cbn [snd].
    destruct (String.eqb_spec k peerId) as [->|Hkp].
    + assert (Hnot : peerId ∉ map fst (filter (fun kp => is_open (snd kp) = true) ps)).
      { intros (kp & Hkp & Hin)%list_elem_of_fmap. apply Hk.
        apply list_elem_of_filter in Hin as [_ Hin].
        apply list_elem_of_fmap. by exists kp. }
      destruct (decide (is_open p = true)) as [Ho|Ho].
      * cbn [map fst]. split; [by exists p|]. intros _. by left.
      * split; [done|]. intros (q & [= <-] & Hq). done.
    + destruct (decide (is_open p = true)) as [Ho|Ho].
      * cbn [map fst]. rewrite elem_of_cons, (IH Hnd). split; [|by right].
        by intros [->|H].
      * by apply IH.
Qed.

(** The loop of [broadcastChanges]: the message on the channel of every
    open peer of [todo], and the version in their connection objects. *)
Lemma broadcastLoop_spec message version (todo : list (string * PeerConn)) :
  forall n : Node Store,
    let n' := broadcastLoop message version todo n in
    wire n' = wire n ++ map (fun peerId => (peerId, message)) (open_ids todo)
    /\ map fst (peers n') = map fst (peers n)
    /\ (forall peerId,
          peers_get peerId (peers n')
          = if bool_decide (peerId ∈ open_ids todo)
            then synced version <$> peers_get peerId (peers n)
            else peers_get peerId (peers n))
    /\ database n' = database n /\ webrtc n' = webrtc n
    /\ connected n' = connected n
    /\ lastBroadcastVersion n' = lastBroadcastVersion n
    /\ emitted n' = emitted n /\ customCalls n' = customCalls n.
Proof.
  unfold open_ids.
  induction todo as [|[k p] todo IH]; intros n; cbn [broadcastLoop].
  - cbn [filter map]. rewrite app_nil_r. repeat split.
  - rewrite filter_cons. cbn [snd]. destruct (is_open p) eqn:Ho.
    + rewrite decide_True by done. cbn [map fst].
      destruct (IH (setLastSynced k version (dc_send k message n)))
        as (Hw & Hk & Hg & Hrest).
      cbv zeta in *. rewrite Hw, Hk. cbn [setLastSynced with_peers dc_send wire peers].
      rewrite <- app_assoc, peers_update_keys. split; [done|]. split; [done|].
      split; [|exact Hrest].
      intros peerId. rewrite Hg. cbn [setLastSynced with_peers dc_send wire peers].
      rewrite peers_get_update.
      destruct (String.eqb_spec k peerId) as [->|Hkp].
      * rewrite (bool_decide_eq_true_2 (peerId ∈ peerId :: _)) by (by left).
        destruct (bool_decide _); [|done].
        by destruct (peers_get peerId (peers n)).
      * destruct (bool_decide (peerId ∈ map fst _)) eqn:E.
        -- apply bool_decide_eq_true in E.
           by rewrite bool_decide_eq_true_2 by (by right).
        -- apply bool_decide_eq_false in E.
           rewrite bool_decide_eq_false_2; [done|].
           intros [->|H]%elem_of_cons; done.
    + rewrite decide_False by (by intros [=]). apply IH.
Qed.


(** X19. [broadcastLocalChanges] does nothing without a
    manager or while the ledger is not connected, and sends nothing when
    no change is above [lastBroadcastVersion]. Otherwise it sends one
    [changes] message with all those changes and the current version on
    the channel of every peer whose channel is open, and on no other;
    these peers get the version as [lastSyncedVersion], and
    [lastBroadcastVersion] becomes the version whether or not a channel
    was open. *)
Theorem broadcast_reaches_open_peers (n : Node Store) :
  NoDup (map fst (peers n)) ->
  let n' := broadcastLocalChanges crsql_select crsql_version n in
  let rows := crsql_select (db (database n)) (lastBroadcastVersion n) in
  let version := crsql_version (db (database n)) in
  (webrtc n = false \/ connected n = false -> n' = n)
  /\ (webrtc n = true -> connected n = true -> rows = [] ->
      wire n' = wire n /\ peers n' = peers n
      /\ lastBroadcastVersion n' = lastBroadcastVersion n)
  /\ (webrtc n = true -> connected n = true -> rows <> [] ->
      wire n' = wire n ++ map (fun peerId =>
                                 (peerId, Changes (map encode_change rows) version))
                              (open_ids (peers n))
      /\ lastBroadcastVersion n' = version
      /\ forall peerId p,
           peers_get peerId (peers n) = Some p ->
           peers_get peerId (peers n')
           = Some (if is_open p then synced version p else p)).
Proof.
  intros Hnd n' rows version. unfold n', broadcastLocalChanges.
  split; [|split].
  - intros [-> | ->]; [done|]. by rewrite orb_true_r.
  - intros -> -> Hrows. cbn [negb orb getChanges refreshVersion db].
    fold rows. rewrite Hrows. done.
  - intros -> -> Hrows. cbn [negb orb getChanges refreshVersion db].
    fold rows. fold version.
    destruct rows as [|r rows']; [done|]. cbn [map length Nat.ltb Nat.leb].
    unfold broadcastChanges. cbn [getVersion dbVersion].
    match goal with |- context [broadcastLoop ?m ?v ?t ?x] =>
      destruct (broadcastLoop_spec m v t x) as (Hw & _ & Hg & _) end.
    cbv zeta in Hw, Hg. cbn [wire peers lastBroadcastVersion].
    split; [exact Hw|]. split; [done|].
    intros peerId p Hp. rewrite Hg. cbn [with_database peers]. rewrite Hp.
    destruct (is_open p) eqn:Ho.
    + rewrite bool_decide_eq_true_2; [done|].
      apply open_ids_get; [done|]. by exists p.
    + rewrite bool_decide_eq_false_2; [done|].
      intros (q & Hq & Hoq)%open_ids_get; [|done]. congruence.
Qed.


Lemma receiveChanges_cases (changes : list WireChange)
    (version : Z) (fromPeerId : string) (n : Node Store) :
  handleChannelMessage crsql_insert crsql_select crsql_version
    (SyncResponse changes version) fromPeerId n
  = handleChannelMessage crsql_insert crsql_select crsql_version
      (Changes changes version) fromPeerId n
  /\ let r := handleChannelMessage crsql_insert crsql_select crsql_version
                (Changes changes version) fromPeerId n in
     wire (fst r) = wire n
     /\ match snd r with
        | Some e =>
            changes <> []
            /\ snd (applyLoop crsql_insert (db (database n)) changes) = Some e
            /\ peers (fst r) = peers n
            /\ emitted (fst r) = emitted n
            /\ dbVersion (database (fst r)) = dbVersion (database n)
            /\ db (database (fst r))
               = fst (applyLoop crsql_insert (db (database n)) changes)
        | None =>
            peers (fst r) = peers_update fromPeerId (synced version) (peers n)
            /\ (changes = [] ->
                database (fst r) = database n /\ emitted (fst r) = emitted n)
            /\ (changes <> [] ->
                emitted (fst r) = emitted n ++ [EvSync (length changes) fromPeerId]
                /\ db (database (fst r))
                   = fst (applyLoop crsql_insert (db (database n)) changes)
                /\ dbVersion (database (fst r))
                   = crsql_version (db (database (fst r))))
        end.
Proof.
  split; [reflexivity|]. cbn [handleChannelMessage]. unfold receiveChanges.
  destruct changes as [|c cs].
  - cbn. done.
  - cbn [length Nat.ltb Nat.leb]. unfold onChangesReceived, applyChanges.
    destruct (applyLoop crsql_insert (db (database n)) (c :: cs)) as [store [e|]];
      cbn -[applyLoop]; done.
Qed.

(** X20. A [changes] or [sync-response] message without
    change records is not applied and emits no [sync] event, and its
    version becomes the [lastSyncedVersion] of the sender. With records,
    when [applyChanges] throws, the call rejects: the connection objects
    are what they were, no [sync] event is emitted and [dbVersion] is
    not refreshed, while the store is as the loop left it. When
    [applyChanges] returns, the sender gets the version and [sync] is
    emitted with the number of records. Nothing is sent in any case. *)
Theorem received_changes_and_lastSyncedVersion (changes : list WireChange)
    (version : Z) (fromPeerId : string) (n : Node Store) :
  handleChannelMessage crsql_insert crsql_select crsql_version
    (SyncResponse changes version) fromPeerId n
  = handleChannelMessage crsql_insert crsql_select crsql_version
      (Changes changes version) fromPeerId n
  /\ let r := handleChannelMessage crsql_insert crsql_select crsql_version
                (Changes changes version) fromPeerId n in
     wire (fst r) = wire n
     /\ match snd r with
        | Some e =>
            changes <> []
            /\ snd (applyLoop crsql_insert (db (database n)) changes) = Some e
            /\ peers (fst r) = peers n
            /\ emitted (fst r) = emitted n
            /\ dbVersion (database (fst r)) = dbVersion (database n)
            /\ db (database (fst r))
               = fst (applyLoop crsql_insert (db (database n)) changes)
        | None =>
            peers (fst r) = peers_update fromPeerId (synced version) (peers n)
            /\ (changes = [] ->
                database (fst r) = database n /\ emitted (fst r) = emitted n)
            /\ (changes <> [] ->
                emitted (fst r) = emitted n ++ [EvSync (length changes) fromPeerId]
                /\ db (database (fst r))
                   = fst (applyLoop crsql_insert (db (database n)) changes)
                /\ dbVersion (database (fst r))
                   = crsql_version (db (database (fst r))))
        end.
Proof. apply receiveChanges_cases. Qed.


Lemma sent_to_new peerId (pre : list (string * ChannelMessage))
    (msgs : list ChannelMessage) (n : Node Store) :
  wire n = pre ++ map (fun m => (peerId, m)) msgs ->
  sent_to peerId (length pre) n = msgs.
Proof.
  intros H. unfold sent_to. rewrite H, drop_app_length. clear H.
  induction msgs as [|m msgs IH]; [done|].
  cbn [map]. rewrite filter_cons_True by done. cbn [map snd]. by rewrite IH.
Qed.

(** Records that [getChanges] has encoded do not make the loop of
    [applyChanges] throw on the decoding. *)
Lemma applyLoop_encoded_decodes (rows : list Change) :
  forall store,
    snd (applyLoop crsql_insert store (map encode_change rows))
    <> Some InvalidCharacter.
Proof.
  induction rows as [|c rows IH]; intros store; [done|].
  cbn [map applyLoop]. rewrite decode_encode_change.
  destruct (crsql_insert store c); [apply IH|done].
Qed.

(** X21. The records that [getChanges] returns decode to
    the rows the SELECT has found, in the same order: the base64 fields
    [pk] and [site_id] give the bytes back and the other fields travel
    as they are. [getChanges] refreshes [dbVersion] and leaves the store
    as it was. *)
Theorem changes_decode_to_the_rows (this : CRSQLiteDB Store) (sinceVersion : Z) :
  let r := getChanges crsql_select crsql_version this sinceVersion in
  mapM decode_change (snd r) = Some (crsql_select (db this) sinceVersion)
  /\ db (fst r) = db this
  /\ dbVersion (fst r) = crsql_version (db this).
Proof.
  cbn [getChanges refreshVersion fst snd db dbVersion]. split; [|done].
  apply mapM_Some. induction (crsql_select (db this) sinceVersion) as [|c cs IH];
    [constructor|].
  cbn [map]. constructor; [apply decode_encode_change|exact IH].
Qed.

(** X22. When the channel from a node to a peer opens, the
    node sends a [sync-request] with its own [dbVersion]; the peer, whose
    channel to the node is open, answers with one [sync-response] that
    carries its changes above that version and its current version.
    Every record of the answer has a [db_version] above the version of
    the node that asked. Handling the answer does not throw on the
    decoding, and when it does not throw at all the peer's version is the
    [lastSyncedVersion] of the channel. *)
Theorem handshake_asks_above_own_version (a b : Node Store) (idA idB : string)
    (pa pb : PeerConn) :
  select_is_above crsql_select ->
  peers_get idB (peers a) = Some pa ->
  peers_get idA (peers b) = Some pb -> is_open pb = true ->
  let a1 := channelOpen idB a in
  let request := SyncRequest (dbVersion (database a)) in
  let b1 := fst (handleChannelMessage crsql_insert crsql_select crsql_version
                   request idA b) in
  let rows := crsql_select (db (database b)) (dbVersion (database a)) in
  let response :=
    SyncResponse (map encode_change rows) (crsql_version (db (database b))) in
  let a2 := handleChannelMessage crsql_insert crsql_select crsql_version
              response idB a1 in
  sent_to idB (length (wire a)) a1 = [request]
  /\ sent_to idA (length (wire b)) b1 = [response]
  /\ Forall (fun c => (dbVersion (database a) < w_db_version c)%Z) (carried response)
  /\ snd a2 <> Some InvalidCharacter
  /\ (snd a2 = None ->
      exists p, peers_get idB (peers (fst a2)) = Some p
                /\ lastSyncedVersion p = crsql_version (db (database b))
                /\ is_open p = true).
Proof.
  intros Hsel Hpa Hpb Hopen a1 request b1 rows response a2.
  assert (Hget1 : peers_get idB (peers a1)
                  = Some (mkPeerConn (Some Open) true (lastSyncedVersion pa))).
  { unfold a1, channelOpen. rewrite sendToPeer_peers.
    cbn [emit with_peers peers]. by rewrite peers_get_update, String.eqb_refl, Hpa. }
  split; [|split; [|split; [|split]]].
  - apply (sent_to_new idB (wire a) [request]).
    unfold a1, channelOpen, sendToPeer. cbn [emit with_peers peers].
    rewrite peers_get_update, String.eqb_refl, Hpa. reflexivity.
  - apply (sent_to_new idA (wire b) [response]).
    unfold b1, request. cbn [handleChannelMessage getChanges refreshVersion db].
    unfold sendToPeer. cbn [with_database peers]. rewrite Hpb, Hopen. reflexivity.
  - cbn [carried response]. apply Forall_forall.
    intros w (c & -> & Hc)%list_elem_of_fmap. cbn [encode_change w_db_version].
    by apply (Hsel (db (database b))).
  - pose proof (receiveChanges_cases (map encode_change rows)
                  (crsql_version (db (database b))) idB a1) as [_ [_ H]].
    cbv zeta in H.
    change (handleChannelMessage crsql_insert crsql_select crsql_version
              (Changes (map encode_change rows) (crsql_version (db (database b))))
              idB a1) with a2 in H.
    destruct (snd a2) as [e|]; [|done].
    destruct H as (_ & He & _). intros [= ->].
    by apply (applyLoop_encoded_decodes rows (db (database a1))).
  - intros Hnone.
    pose proof (receiveChanges_cases (map encode_change rows)
                  (crsql_version (db (database b))) idB a1) as [_ [_ H]].
    cbv zeta in H.
    change (handleChannelMessage crsql_insert crsql_select crsql_version
              (Changes (map encode_change rows) (crsql_version (db (database b))))
              idB a1) with a2 in H.
    rewrite Hnone in H.
    destruct H as (Hpeers & _).
    exists (synced (crsql_version (db (database b)))
              (mkPeerConn (Some Open) true (lastSyncedVersion pa))).
    split; [|done]. by rewrite Hpeers, peers_get_update, String.eqb_refl, Hget1.
Qed.

Lemma handleChannelMessage_keys message fromPeerId (n : Node Store) :
  map fst (peers (fst (handleChannelMessage crsql_insert crsql_select crsql_version
                         message fromPeerId n)))
  = map fst (peers n).
Proof.
  destruct message as [v|cs v|cs v| | |ch data|ty]; cbn [handleChannelMessage fst].
  - unfold getChanges. cbn [fst]. by rewrite sendToPeer_peers.
  - unfold receiveChanges, onChangesReceived.
    destruct (0 <? length cs)%nat;
      [destruct (applyChanges _ _ _ _) as [d [e|]]|];
      cbn [fst setLastSynced with_peers peers emit with_database];
      by rewrite ?peers_update_keys.
  - unfold receiveChanges, onChangesReceived.
    destruct (0 <? length cs)%nat;
      [destruct (applyChanges _ _ _ _) as [d [e|]]|];
      cbn [fst setLastSynced with_peers peers emit with_database];
      by rewrite ?peers_update_keys.
  - by rewrite sendToPeer_peers.
  - done.
  - done.
  - done.
Qed.

Lemma broadcastLocalChanges_keys (n : Node Store) :
  map fst (peers (broadcastLocalChanges crsql_select crsql_version n))
  = map fst (peers n).
Proof.
  unfold broadcastLocalChanges.
  destruct (negb (webrtc n) || negb (connected n)); [done|].
  cbn [getChanges].
  destruct (0 <? length _)%nat; [|done].
  cbn [peers]. unfold broadcastChanges.
  match goal with |- context [broadcastLoop ?m ?v ?t ?x] =>
    destruct (broadcastLoop_spec m v t x) as (_ & Hk & _) end.
  exact Hk.
Qed.

Lemma not_connected_without_entry peerId (n : Node Store) :
  peers_get peerId (peers n) = None -> peerId ∉ getConnectedPeers n.
Proof.
  intros Hnone%peers_get_None (kp & Hk & Hin)%list_elem_of_fmap.
  apply Hnone. apply list_elem_of_filter in Hin as [_ Hin].
  apply list_elem_of_fmap. by exists kp.
Qed.

(** X23. The map of peers keeps one entry per peer id through
    every operation. [createPeerConnection] for a peer that has an entry
    changes nothing; a new peer is not ready, has no open channel and is
    sent nothing. After [removePeer] the peer has no entry, is not among
    the connected peers and [sendToPeer] returns [false] without sending;
    the entries of the other peers are what they were. *)
Theorem one_entry_per_peer (n : Node Store) (peerId : string) (initiator : bool)
    (message : ChannelMessage) :
  NoDup (map fst (peers n)) ->
  NoDup (map fst (peers (createPeerConnection peerId initiator n)))
  /\ NoDup (map fst (peers (removePeer peerId n)))
  /\ NoDup (map fst (peers (channelOpen peerId n)))
  /\ NoDup (map fst (peers (channelClose peerId n)))
  /\ NoDup (map fst (peers (fst (handleChannelMessage crsql_insert crsql_select
                                   crsql_version message peerId n))))
  /\ NoDup (map fst (peers (broadcastLocalChanges crsql_select crsql_version n)))
  /\ (is_Some (peers_get peerId (peers n)) ->
      createPeerConnection peerId initiator n = n)
  /\ (peers_get peerId (peers n) = None ->
      let n' := createPeerConnection peerId initiator n in
      sendToPeer peerId message n' = (n', false)
      /\ (peerId ∉ getConnectedPeers n'))
  /\ (let n' := removePeer peerId n in
      peers_get peerId (peers n') = None
      /\ sendToPeer peerId message n' = (n', false)
      /\ (peerId ∉ getConnectedPeers n')
      /\ (forall other, other <> peerId ->
            peers_get other (peers n') = peers_get other (peers n))).
Proof.
  intros Hnd.
  assert (Hremoved : peers_get peerId (peers (removePeer peerId n)) = None).
  { unfold removePeer. destruct (peers_get peerId (peers n)) eqn:E; [|done].
    cbn [with_peers peers]. by rewrite peers_get_delete, String.eqb_refl. }
  split; [|split; [|split; [|split; [|split; [|split; [|split; [|split]]]]]]].
  - unfold createPeerConnection.
    destruct (peers_get peerId (peers n)) eqn:E; [done|].
    cbn [with_peers peers]. rewrite map_app. apply NoDup_app.
    split; [done|]. split; [|apply NoDup_singleton].
    intros k Hk ->%list_elem_of_singleton. by apply peers_get_None in E.
  - unfold removePeer. destruct (peers_get peerId (peers n)); [|done].
    by apply peers_delete_keys.
  - unfold channelOpen. rewrite sendToPeer_peers. cbn [emit with_peers peers].
    by rewrite peers_update_keys.
  - unfold channelClose. cbn [with_peers peers]. by rewrite peers_update_keys.
  - by rewrite handleChannelMessage_keys.
  - by rewrite broadcastLocalChanges_keys.
  - intros [p Hp]. unfold createPeerConnection. by rewrite Hp.
  - intros Hnone n'.
    assert (Hget : peers_get peerId (peers n')
                   = Some (mkPeerConn (if initiator then Some Connecting else None)
                             false 0)).
    { unfold n', createPeerConnection. rewrite Hnone. cbn [with_peers peers].
      clear -Hnone. induction (peers n) as [|[k p] ps IH]; cbn [app peers_get].
      - by rewrite String.eqb_refl.
      - cbn [peers_get] in Hnone. destruct (String.eqb k peerId); [done|]. auto. }
    split.
    + unfold sendToPeer. rewrite Hget. by destruct initiator.
    + intros ([k p] & Hk & Hin)%list_elem_of_fmap. cbn [fst] in Hk. subst k.
      apply list_elem_of_filter in Hin as [Hready Hin].
      unfold n', createPeerConnection in Hin. rewrite Hnone in Hin.
      cbn [with_peers peers] in Hin. apply elem_of_app in Hin as [Hin|Hin].
      * apply peers_get_None in Hnone. apply Hnone.
        apply list_elem_of_fmap. by exists (peerId, p).
      * apply list_elem_of_singleton in Hin. injection Hin as ->. done.
  - intros n'. split; [exact Hremoved|]. split; [|split].
    + unfold sendToPeer. fold n' in Hremoved. by rewrite Hremoved.
    + by apply not_connected_without_entry.
    + intros other Hother. unfold n', removePeer.
      destruct (peers_get peerId (peers n)) eqn:E; [|done].
      cbn [with_peers peers]. rewrite peers_get_delete.
      by destruct (String.eqb_spec peerId other) as [->|_].
Qed.

End SyncFacts.

Section SyncExamples.
Import Base64 CRStore Ledger Sync Scenarios SyncScenarios.

Lemma select_changes_above : select_is_above select_changes.
Proof.
  intros store since c. unfold select_changes.
  rewrite merge_sort_Permutation. by intros [H _]%list_elem_of_filter.
Qed.

Lemma node_a_keys : NoDup (map fst (peers node_a)).
Proof. compute_done. Qed.

Lemma broadcast_reaches_open_peers_witness :
  map fst (wire (broadcastLocalChanges select_changes crsql_db_version node_a)) = ["b"]
  /\ lastBroadcastVersion (broadcastLocalChanges select_changes crsql_db_version node_a)
     = crsql_db_version (db (database node_a)).
Proof.
  destruct (proj2 (proj2 (broadcast_reaches_open_peers select_changes
                            crsql_db_version node_a node_a_keys)) eq_refl eq_refl)
    as (Hw & Hv & _).
  - compute_done.
  - rewrite Hw, Hv. split; reflexivity.
Defined.

(** B, at version 1, asks A, at version 2: the answer carries the one
    record of A above version 1, the new name of the site. *)
Lemma handshake_asks_above_own_version_witness :
  dbVersion (database node_b) = 1%Z
  /\ sent_to "a" 0 (channelOpen "a" node_b) = [SyncRequest 1]
  /\ sent_to "b" 0 (fst (handleChannelMessage insert select_changes crsql_db_version
                           (SyncRequest 1) "b" node_a))
     = [SyncResponse (map encode_change (select_changes (db (database node_a)) 1)) 2]
  /\ map (fun c => (w_cid c, w_val c, w_db_version c))
         (map encode_change (select_changes (db (database node_a)) 1))
     = [("name", VText "Alpha 2", 2%Z)]
  /\ Forall (fun c => (1 < w_db_version c)%Z)
       (map encode_change (select_changes (db (database node_a)) 1))
  /\ snd (handleChannelMessage insert select_changes crsql_db_version
            (SyncResponse (map encode_change (select_changes (db (database node_a)) 1)) 2)
            "a" (channelOpen "a" node_b)) = None
  /\ exists p,
       peers_get "a"
         (peers (fst (handleChannelMessage insert select_changes crsql_db_version
                        (SyncResponse
                           (map encode_change (select_changes (db (database node_a)) 1)) 2)
                        "a" (channelOpen "a" node_b)))) = Some p
       /\ lastSyncedVersion p = 2%Z /\ is_open p = true.
Proof.
  split; [reflexivity|].
  destruct (handshake_asks_above_own_version insert select_changes crsql_db_version
              node_b node_a "b" "a" (mkPeerConn (Some Open) true 0)
              (mkPeerConn (Some Open) true 0) select_changes_above
              eq_refl eq_refl eq_refl) as (H1 & H2 & H3 & _ & H5).
  split; [exact H1|]. split; [exact H2|]. split; [by vm_compute|].
  split; [exact H3|].
  assert (Hnone : snd (handleChannelMessage insert select_changes crsql_db_version
            (SyncResponse (map encode_change (select_changes (db (database node_a)) 1)) 2)
            "a" (channelOpen "a" node_b)) = None) by (by vm_compute).
  split; [exact Hnone|]. exact (H5 Hnone).
Defined.

Lemma one_entry_per_peer_witness :
  peers_get "b" (peers (removePeer "b" node_a)) = None
  /\ sendToPeer "b" Ping (removePeer "b" node_a) = (removePeer "b" node_a, false).
Proof.
  destruct (one_entry_per_peer insert select_changes crsql_db_version node_a "b" true
              Ping node_a_keys) as (_ & _ & _ & _ & _ & _ & _ & _ & H1 & H2 & _).
  split; [exact H1|exact H2].
Defined.

End SyncExamples.
(** ** ledger.js: the signaling client over time *)

Section SignalingRunFacts.
Import Signaling SignalingRun.

Lemma delay_within (n : Z) :
  (1 <= n <= 10)%Z ->
  (baseDelay <= Z.min (baseDelay * 2 ^ (n - 1)) maxDelay <= maxDelay)%Z.
Proof.
  intros Hn. unfold baseDelay, maxDelay.
  assert (1 <= 2 ^ (n - 1))%Z.
  { change 1%Z with (2 ^ 0)%Z at 1. apply Z.pow_le_mono_r; lia. }
  lia.
Qed.

Lemma step_schedule (call : Call) (c : Client) :
  (0 <= reconnectAttempts c <= 10)%Z ->
  (0 <= reconnectAttempts (fst (step call c)) <= 10)%Z
  /\ Forall within_schedule (snd (step call c))
  /\ (call <> SocketOpen ->
      (reconnectAttempts (fst (step call c))
       = reconnectAttempts c + Z.of_nat (length (timeouts (snd (step call c)))))%Z).
Proof.
  intros Hc. destruct call; cbn [step].
  - cbn. split; [done|]. split; [constructor|]. intros _. lia.
  - unfold onOpen. cbn [fst snd reconnectAttempts]. split; [lia|]. split; [|done].
    destruct (isInitialConnect c); repeat constructor.
  - unfold onError. cbn [fst snd]. split; [done|].
    destruct (isInitialConnect c); cbn; (split; [repeat constructor|intros _; lia]).
  - unfold handleDisconnect, maxReconnectAttempts.
    destruct (negb (shouldReconnect c)).
    { cbn. split; [done|]. split; [repeat constructor|]. intros _. lia. }
    destruct (reconnectAttempts c <? 10)%Z eqn:E.
    + apply Z.ltb_lt in E. cbn [fst snd reconnectAttempts]. split; [lia|]. split.
      * constructor; [cbn; unfold maxReconnectAttempts; lia|].
        constructor; [|constructor]. cbn [within_schedule].
        apply delay_within. lia.
      * intros _. cbn. lia.
    + cbn. split; [done|]. split; [repeat constructor|]. intros _. lia.
  - destruct (shouldReconnect c); cbn;
      (split; [done|]; split; [constructor|]; intros _; lia).
  - cbn. split; [done|]. split; [constructor|]. intros _. lia.
Qed.

Lemma timeouts_app (a b : list Effect) : timeouts (a ++ b) = timeouts a ++ timeouts b.
Proof. unfold timeouts. apply omap_app. Qed.

(** X24. Whatever happens to a client, in whatever
    order, [reconnectAttempts] stays between 0 and 10, every timer it
    sets is between one and thirty seconds and every attempt it announces
    is numbered from 1 to 10. As long as no socket opens, each timer set
    adds one to [reconnectAttempts], so that at most ten reconnections
    are scheduled in a row. *)
Theorem reconnection_stays_within_schedule (calls : list Call) (c : Client) :
  (0 <= reconnectAttempts c <= 10)%Z ->
  (0 <= reconnectAttempts (fst (run calls c)) <= 10)%Z
  /\ Forall within_schedule (snd (run calls c))
  /\ (SocketOpen ∉ calls ->
      (reconnectAttempts (fst (run calls c))
       = reconnectAttempts c + Z.of_nat (length (timeouts (snd (run calls c)))))%Z
      /\ (length (timeouts (snd (run calls c))) <= 10)%nat).
Proof.
  revert c. induction calls as [|call calls IH]; intros c Hc.
  - cbn. split; [done|]. split; [constructor|]. intros _. lia.
  - cbn [run]. destruct (step_schedule call c Hc) as (H1 & H2 & H3).
    destruct (step call c) as [c1 effects]. cbn [fst snd] in H1, H2, H3.
    destruct (IH c1 H1) as (H4 & H5 & H6).
    destruct (run calls c1) as [c2 more]. cbn [fst snd] in *.
    split; [done|]. split; [by apply Forall_app|].
    intros Hno. rewrite not_elem_of_cons in Hno. destruct Hno as [Hne Hno].
    destruct (H6 Hno) as [H7 _]. specialize (H3 (not_eq_sym Hne)).
    rewrite timeouts_app, length_app. lia.
Qed.

Lemma reconnection_stays_within_schedule_witness :
  Forall within_schedule
    (snd (run [SocketOpen; SocketClose; TimerFires; SocketError; SocketClose]
            new_client)).
Proof.
  apply (reconnection_stays_within_schedule
           [SocketOpen; SocketClose; TimerFires; SocketError; SocketClose] new_client).
  cbn. lia.
Defined.

(** X25. After [disconnect()], and until [connect()]
    is called again, nothing starts a reconnection: whatever the sockets
    and the timers that are still pending do, [shouldReconnect] stays
    false, no timer is set and no attempt is announced. *)
Theorem disconnect_stops_reconnection (calls : list Call) (c : Client) :
  CallConnect ∉ calls ->
  shouldReconnect (fst (run calls (disconnect c))) = false
  /\ Forall (fun e => reconnects e = false) (snd (run calls (disconnect c))).
Proof.
  generalize (disconnect c) (eq_refl : shouldReconnect (disconnect c) = false).
  clear c. induction calls as [|call calls IH]; intros c Hc Hno.
  - cbn. split; [done|constructor].
  - rewrite not_elem_of_cons in Hno. destruct Hno as [Hne Hno].
    cbn [run].
    assert (Hstep : shouldReconnect (fst (step call c)) = false
                    /\ Forall (fun e => reconnects e = false) (snd (step call c))).
    { destruct call; [done|..]; cbn [step];
        unfold onOpen, onError, handleDisconnect; rewrite ?Hc;
        cbn [negb fst snd shouldReconnect disconnect];
        (split; [done|]); destruct (isInitialConnect c); repeat constructor. }
    destruct (step call c) as [c1 effects]. cbn [fst snd] in Hstep.
    destruct Hstep as [Hc1 He].
    destruct (IH c1 Hc1 Hno) as [H1 H2].
    destruct (run calls c1) as [c2 more]. cbn [fst snd] in *.
    split; [done|]. by apply Forall_app.
Qed.

Lemma disconnect_stops_reconnection_witness :
  snd (run [SocketClose; TimerFires; SocketClose] (disconnect new_client))
  = [Emit Disconnected; Emit Disconnected]
  /\ Forall (fun e => reconnects e = false)
       (snd (run [SocketClose; TimerFires; SocketClose] (disconnect new_client))).
Proof.
  split; [reflexivity|].
  apply (disconnect_stops_reconnection [SocketClose; TimerFires; SocketClose]
           new_client).
  compute_done.
Defined.

End SignalingRunFacts.
(** ** The service worker, continued *)

Section ServiceWorkerMore.
Import Persistence StoreOps ServiceWorker Scenarios ServiceWorkerScenarios.

(** A record found under the key of a site and path is a record of that
    site, when the ids have no slash. *)
Lemma getFile_of_site (db : list FileRec) (siteId path : string) (f : FileRec) :
  consistent db -> Forall (fun f => slash_free (f_siteId f) = true) db ->
  slash_free siteId = true ->
  getFile db siteId path = Some f -> f ∈ db /\ f_siteId f = siteId.
Proof.
  intros Hc Hfree Hs [Hin Hk]%getFile_elem_of. split; [done|].
  rewrite (Hc f Hin) in Hk. rewrite Forall_forall in Hfree.
  by apply file_key_inj in Hk as [? _]; [|apply Hfree|].
Qed.

(** X26. A request is answered with status 200 only under
    [/local/{siteId}/], and the blob served is then the content of a file
    stored for that very site: no path reaches a file of another site. *)
Theorem local_request_serves_own_site (db : list FileRec) (pathname : string) :
  consistent db -> Forall (fun f => slash_free (f_siteId f) = true) db ->
  status (handleLocalRequest db pathname) = 200%Z ->
  exists siteId rest file,
    pathParts pathname = "local" :: siteId :: rest
    /\ file ∈ db /\ f_siteId file = siteId
    /\ body (handleLocalRequest db pathname) = Blob (f_content file).
Proof.
  intros Hc Hfree. unfold handleLocalRequest.
  pose proof (pathParts_slash_free pathname) as Hparts.
  destruct (pathParts pathname) as [|first [|siteId rest]]; [done|done|].
  destruct (String.eqb_spec first "local") as [->|Hne]; [|done].
  cbn [negb].
  assert (Hs : slash_free siteId = true).
  { apply Forall_cons in Hparts as [_ Hparts]. by apply Forall_cons in Hparts as [? _]. }
  set (filePath0 := or_else (String.concat "/" rest) "index.html").
  set (filePath := if endsWith "/" filePath0 then filePath0 +:+ "index.html"
                   else filePath0).
  assert (Hget : forall path f, getFile db siteId path = Some f ->
                                f ∈ db /\ f_siteId f = siteId)
    by (intros path f; by apply getFile_of_site).
  destruct (getFile db siteId filePath) as [file|] eqn:Hdirect.
  { intros _. exists siteId, rest, file. destruct (Hget _ _ Hdirect). done. }
  destruct (if String.eqb filePath "index.html" || String.eqb filePath ""
            then find is_root_index (getFilesForSite db siteId) else None)
    as [file|] eqn:Hroot.
  { intros _. exists siteId, rest, file.
    destruct (String.eqb filePath "index.html" || String.eqb filePath ""); [|done].
    apply find_some in Hroot as [Hin _].
    apply list_elem_of_In, list_elem_of_filter in Hin as [Hsite Hin]. done. }
  destruct (if negb (includes dot filePath)
            then getFile db siteId (filePath +:+ ".html") else None)
    as [file|] eqn:Hext.
  { intros _. exists siteId, rest, file.
    destruct (negb (includes dot filePath)); [|done].
    destruct (Hget _ _ Hext). done. }
  destruct (getFile db siteId (filePath +:+ "/index.html")) as [file|] eqn:Hidx.
  { intros _. exists siteId, rest, file. destruct (Hget _ _ Hidx). done. }
  done.
Qed.

Lemma site_s_slash_free : Forall (fun f => slash_free (f_siteId f) = true) site_s.
Proof. by repeat constructor. Qed.

Lemma local_request_serves_own_site_witness :
  exists siteId rest file,
    pathParts "/local/s/about" = "local" :: siteId :: rest
    /\ file ∈ site_s /\ f_siteId file = siteId
    /\ body (handleLocalRequest site_s "/local/s/about") = Blob (f_content file).
Proof.
  apply (local_request_serves_own_site site_s "/local/s/about"
           site_s_consistent site_s_slash_free).
  reflexivity.
Defined.


(** X27. The worker looks a file up under the path name of
    the request's URL as [new URL] gives it, which it does not decode.
    When that path name is the string [/local/{siteId}/{path}], the site
    id not empty and without slash and no segment of [path] empty, and a
    file is stored under [siteId] and [path], the parts of the path name
    are [local], the site id and the segments of [path], the branch for a
    path that ends with a slash is not taken, and the answer is that
    file, with its bytes, its content type and its size. *)
Theorem stored_file_is_served_at_its_path (db : list FileRec)
    (pathname siteId path : string) (file : FileRec) :
  pathname = "/local/" +:+ siteId +:+ "/" +:+ path ->
  getFile db siteId path = Some file ->
  siteId <> "" -> slash_free siteId = true ->
  Forall (fun p => p <> "") (split slash path) ->
  pathParts pathname = "local" :: siteId :: split slash path
  /\ String.concat "/" (split slash path) = path
  /\ endsWith "/" path = false
  /\ handleLocalRequest db pathname = served file.
Proof.
  intros -> Hget Hne Hfree Hclean.
  assert (Hparts : pathParts ("/local/" +:+ siteId +:+ "/" +:+ path)
                   = "local" :: siteId :: split slash path).
  { unfold pathParts.
    change ("/local/" +:+ siteId +:+ "/" +:+ path)
      with (String slash ("local" +:+ String slash (siteId +:+ String slash path))).
    cbn [split]. rewrite Ascii.eqb_refl.
    rewrite (split_prefix "local") by reflexivity.
    rewrite (split_prefix siteId) by done.
    rewrite filter_cons_False by (by intros H; apply H).
    rewrite filter_cons_True by done. rewrite filter_cons_True by done.
    f_equal. f_equal. clear -Hclean.
    induction Hclean as [|p ps Hp _ IH]; [done|].
    by rewrite filter_cons_True, IH. }
  split; [exact Hparts|]. split; [apply concat_split|].
  split; [by apply clean_path_no_trailing_slash|].
  unfold handleLocalRequest. rewrite Hparts. cbn [String.eqb Ascii.eqb Bool.eqb negb].
  rewrite concat_split.
  assert (Hpath : or_else path "index.html" = path).
  { unfold or_else. destruct (String.eqb_spec path "") as [->|]; [|done].
    cbn in Hclean. by apply Forall_cons in Hclean as [? _]. }
  rewrite Hpath, (clean_path_no_trailing_slash path Hclean), Hget. reflexivity.
Qed.

Lemma stored_file_is_served_at_its_path_witness :
  pathParts "/local/s/assets/app.js" = ["local"; "s"; "assets"; "app.js"]
  /\ handleLocalRequest site_s "/local/s/assets/app.js" = served app_js.
Proof.
  destruct (stored_file_is_served_at_its_path site_s "/local/s/assets/app.js"
              "s" "assets/app.js" app_js) as (Hparts & _ & _ & Hserved).
  - reflexivity.
  - reflexivity.
  - discriminate.
  - reflexivity.
  - repeat (constructor; [discriminate|]). constructor.
  - split; [exact Hparts|exact Hserved].
Defined.

(** The path name is not decoded: a file stored under a path with a space
    is not found under the path name in which the URL parser has escaped
    the space, and the request gets the 404 page. *)
Example escaped_pathname_is_looked_up_as_it_is :
  getFile [spaced_page] "s" "a b.html" = Some spaced_page
  /\ pathParts "/local/s/a%20b.html" = ["local"; "s"; "a%20b.html"]
  /\ status (handleLocalRequest [spaced_page] "/local/s/a%20b.html") = 404%Z.
Proof. repeat split; compute_done. Qed.

End ServiceWorkerMore.
(** ** From the rows of [execO] to the site objects *)

Section QueryFacts.
Import QueryResult.
Context {V : Type}.

Lemma obj_set_fresh {A} (k : string) (v : A) (o : Obj A) :
  k ∉ map fst o -> obj_set k v o = o ++ [(k, v)].
Proof.
  induction o as [|[k' v'] o IH]; [done|].
  cbn [map fst obj_set app]. intros [Hk Ho]%not_elem_of_cons.
  destruct (String.eqb_spec k' k) as [->|_]; [done|]. by rewrite IH.
Qed.

Lemma obj_get_keys (o : Obj V) :
  NoDup (map fst o) ->
  map (fun col => obj_get o col) (map fst o) = map (fun kv => Some (snd kv)) o.
Proof.
  induction o as [|[k v] o IH]; [done|].
  cbn [map fst snd obj_get]. intros [Hk Hnd]%NoDup_cons.
  rewrite String.eqb_refl. f_equal. rewrite <- (IH Hnd).
  apply map_ext_in. intros col Hcol.
  destruct (String.eqb_spec k col) as [->|_]; [|done].
  by apply list_elem_of_In in Hcol.
Qed.

Lemma assign_defined (o : Obj V) :
  forall (done : Obj V) (before : list (option V)),
    NoDup (map fst (done ++ o)) -> length before = length done ->
    assign (map fst o) (length before)
      (before ++ map (fun kv => Some (snd kv)) o) (defined done)
    = defined (done ++ o).
Proof.
  induction o as [|[k v] o IH]; intros done before Hnd Hlen.
  - cbn [map assign]. by rewrite app_nil_r.
  - cbn [map fst snd assign].
    rewrite lookup_app_r, Nat.sub_diag by lia. cbn [lookup list_lookup mjoin].
    rewrite obj_set_fresh.
    + pose proof (IH (done ++ [(k, v)]) (before ++ [Some v])) as IH'.
      rewrite <- !app_assoc in IH'. cbn [app] in IH'.
      rewrite !length_app in IH'. cbn [length] in IH'.
      rewrite Nat.add_1_r in IH'.
      unfold defined in IH' |- *. rewrite (map_app _ done [(k, v)]) in IH'.
      cbn [map fst snd] in IH'. cbn [option_join].
      rewrite map_app in Hnd. cbn [map fst] in Hnd.
      rewrite map_app in IH'. cbn [map fst] in IH'.
      apply IH'; [done|lia].
    + rewrite map_app in Hnd. apply NoDup_app in Hnd as (_ & Hdis & _).
      unfold defined. rewrite map_map. cbn [fst].
      intros Hin. apply (Hdis k Hin). cbn. by left.
Qed.

(** X28. [rowsToSites] gives back, as objects, the rows
    that [query] has turned into columns and arrays: one object for each
    row, with the same properties in the same order and the same
    values, when the rows have the properties of the first one. Without
    rows the result has no column and [rowsToSites] returns the empty
    array, so that [sites[0] || null] is [null]. *)
Theorem rows_come_back_as_objects (objRows : list (Obj V)) :
  Forall (fun row => NoDup (map fst row)
                     /\ map fst row = map fst (default [] (head objRows))) objRows ->
  rowsToSites (query objRows) = map defined objRows
  /\ (objRows = [] -> first_or_null (rowsToSites (query objRows)) = None).
Proof.
  intros Hrows. split; [|by intros ->].
  destruct objRows as [|first others]; [done|].
  unfold default in Hrows. cbn [head from_option id] in Hrows.
  unfold rowsToSites, query.
  cbn [columns rows]. rewrite map_map. apply map_ext_in.
  intros row Hrow. rewrite Forall_forall in Hrows.
  destruct (Hrows row (proj2 (list_elem_of_In _ _) Hrow)) as [Hnd Hkeys].
  rewrite <- Hkeys, (obj_get_keys row Hnd).
  apply (assign_defined row [] []); done.
Qed.

End QueryFacts.

Section QueryExamples.
Import QueryResult.

Lemma rows_come_back_as_objects_witness :
  rowsToSites (query [[("id", 1%Z); ("name", 2%Z)]; [("id", 3%Z); ("name", 4%Z)]])
  = [[("id", Some 1%Z); ("name", Some 2%Z)]; [("id", Some 3%Z); ("name", Some 4%Z)]].
Proof.
  apply (rows_come_back_as_objects
           [[("id", 1%Z); ("name", 2%Z)]; [("id", 3%Z); ("name", 4%Z)]]).
  repeat (constructor; [split; [compute_done|reflexivity]|]). constructor.
Defined.

End QueryExamples.
(** ** ledger.js: the node id *)

Section NodeIdFacts.
Import Transfer StoreOps NodeId.

(** The two digits of a byte. *)
Lemma hex_byte (b : byte) :
  exists c1 c2,
    padStart 2 "0" (toString16 b) = String c1 (String c2 "")
    /\ (hex_value c1 * 16 + hex_value c2)%N = Byte.to_N b
    /\ is_hex c1 = true /\ is_hex c2 = true.
Proof. destruct b; eexists _, _; (split; [reflexivity|]); by vm_compute. Qed.

Lemma is_hex_free (c : ascii) :
  is_hex c = true -> Ascii.eqb c ":" = false /\ Ascii.eqb c "/" = false.
Proof.
  unfold is_hex. intros H.
  split; apply Ascii.eqb_neq; intros ->; by vm_compute in H.
Qed.

Lemma siteIdHex_cons (b : byte) (bytes : list byte) :
  siteIdHex (b :: bytes) = padStart 2 "0" (toString16 b) +:+ siteIdHex bytes.
Proof.
  unfold siteIdHex. cbn [map String.concat].
  destruct (map _ bytes) as [|x xs] eqn:E; [|done].
  cbn [String.concat]. by rewrite append_empty_r.
Qed.

(** X29. The node id is two hexadecimal digits for each byte
    of the site id, in lower case: it has twice the length, holds
    neither a colon nor a slash, and two site ids with the same text are
    the same bytes. *)
Theorem node_id_is_hexadecimal (siteIdBytes : list byte) :
  String.length (siteIdHex siteIdBytes) = (2 * length siteIdBytes)%nat
  /\ colon_free (siteIdHex siteIdBytes) = true
  /\ slash_free (siteIdHex siteIdBytes) = true
  /\ (forall other, siteIdHex other = siteIdHex siteIdBytes -> other = siteIdBytes).
Proof.
  induction siteIdBytes as [|b bytes (Hlen & Hcolon & Hslash & Hinj)].
  - split; [done|]. split; [done|]. split; [done|].
    intros [|o other]; [done|]. rewrite siteIdHex_cons.
    destruct (hex_byte o) as (c1 & c2 & -> & _). done.
  - rewrite siteIdHex_cons.
    destruct (hex_byte b) as (c1 & c2 & -> & Hval & H1 & H2).
    destruct (is_hex_free c1 H1) as [Hc1 Hs1].
    destruct (is_hex_free c2 H2) as [Hc2 Hs2].
    change (String c1 (String c2 "") +:+ siteIdHex bytes)
      with (String c1 (String c2 (siteIdHex bytes))).
    split; [cbn [String.length length]; lia|].
    split; [cbn [colon_free]; by rewrite Hc1, Hc2|].
    split; [cbn [slash_free]; by rewrite Hs1, Hs2|].
    intros [|o other]; [done|]. rewrite siteIdHex_cons.
    destruct (hex_byte o) as (d1 & d2 & -> & Hval' & _).
    change (String d1 (String d2 "") +:+ siteIdHex other)
      with (String d1 (String d2 (siteIdHex other))).
    intros [= -> -> Hrest]. f_equal; [|by apply Hinj].
    apply to_N_inj. by rewrite <- Hval, <- Hval'.
Qed.

End NodeIdFacts.
(** ** app.js: a site and its files *)

Section AppFacts.
Import Persistence StoreOps Catalog CatalogOps ServiceWorker App Scenarios.
Variable guessContentType : string -> string.

(** A record written under a key that is free is one record more. *)
Lemma put_new (P : FileRec -> Prop) `{!forall x, Decision (P x)} f db :
  find (fun g => String.eqb (f_key g) (f_key f)) db = None ->
  length (filter P (put f db))
  = ((if decide (P f) then 1 else 0) + length (filter P db))%nat
  /\ totalSize (filter P (put f db))
     = ((if decide (P f) then f_size f else 0) + totalSize (filter P db))%N.
Proof.
  induction db as [|g db IH]; intros Hfree.
  - cbn [put]. rewrite filter_cons, filter_nil.
    destruct (decide (P f)); [rewrite totalSize_cons|]; cbn; split; lia.
  - cbn [find] in Hfree. destruct (String.eqb (f_key g) (f_key f)) eqn:E; [done|].
    apply String.eqb_neq in E. cbn [put].
    destruct (String.compare (f_key f) (f_key g)) eqn:Hcmp.
    + apply String.compare_eq_iff in Hcmp. congruence.
    + rewrite (filter_cons _ f). destruct (decide (P f));
        [rewrite totalSize_cons|]; cbn [length]; split; lia.
    + rewrite !(filter_cons _ g). destruct (IH Hfree) as [IH1 IH2].
      destruct (decide (P g)); [rewrite !totalSize_cons|];
        cbn [length]; rewrite ?IH1, ?IH2; split; lia.
Qed.

Lemma puts_new (P : FileRec -> Prop) `{!forall x, Decision (P x)}
    {A} (mk : A -> FileRec) (fs : list A) :
  forall db,
    (forall a, a ∈ fs -> find (fun g => String.eqb (f_key g) (f_key (mk a))) db = None) ->
    NoDup (map (fun a => f_key (mk a)) fs) ->
    (forall a, a ∈ fs -> P (mk a)) ->
    length (filter P (fold_left (fun db a => put (mk a) db) fs db))
    = (length fs + length (filter P db))%nat
    /\ totalSize (filter P (fold_left (fun db a => put (mk a) db) fs db))
       = (fold_right (fun a t => f_size (mk a) + t) 0 fs + totalSize (filter P db))%N.
Proof.
  induction fs as [|a fs IH]; intros db Hfree Hnd HP; [done|].
  cbn [map] in Hnd. apply NoDup_cons in Hnd as [Ha Hnd].
  cbn [fold_left fold_right length].
  destruct (IH (put (mk a) db)) as [IH1 IH2].
  - intros b Hb. rewrite find_put_other; [apply Hfree; by right|].
    intros Hk. apply Ha. apply list_elem_of_fmap. by exists b.
  - done.
  - intros b Hb. apply HP. by right.
  - destruct (put_new P (mk a) db (Hfree a (list_elem_of_here _ _))) as [H1 H2].
    rewrite decide_True in H1 by (apply HP; by left).
    rewrite decide_True in H2 by (apply HP; by left).
    rewrite IH1, IH2, H1, H2. split; lia.
Qed.

Lemma pendingSize_sum (files : list PendingFile) :
  pendingSize files
  = Z.of_N (fold_right (fun a t => N.of_nat (length (pf_bytes a)) + t)%N 0%N files).
Proof.
  unfold pendingSize.
  assert (H : forall z, fold_left (fun total file =>
                          (total + Z.of_nat (length (pf_bytes file)))%Z) files z
                        = (z + Z.of_N (fold_right (fun a t =>
                             N.of_nat (length (pf_bytes a)) + t)%N 0%N files))%Z).
  { induction files as [|f files IH]; intros z; cbn [fold_left fold_right]; [lia|].
    rewrite IH. lia. }
  rewrite H. lia.
Qed.


Lemma storePending_fold db siteId now (files : list PendingFile) :
  storePending guessContentType db siteId now files
  = fold_left (fun db a => put (stored_pending guessContentType siteId now a) db)
              files db.
Proof. reflexivity. Qed.

(** X30. When [handleAddSite] adds a site with files of
    distinct paths under a fresh id, every file is in the content store
    under that id with its bytes, and the row of the site in the catalog
    tells the truth about the store: [file_count] is the number of files
    stored for the site and [file_size] the sum of their sizes. Without a
    name or without files the call changes nothing. *)
Theorem added_site_counts_its_files (l : Ledger) (db : list FileRec)
    (uuid added updated : string) (now : PendingFile -> Z)
    (siteName description : string) (pendingFiles : list PendingFile) :
  siteName <> "" -> pendingFiles <> [] ->
  sites l !! uuid = None ->
  getFilesForSite db uuid = [] ->
  (forall file, file ∈ pendingFiles -> getFile db uuid (pf_path file) = None) ->
  NoDup (map pf_path pendingFiles) ->
  let r := handleAddSite guessContentType (Some l) db uuid added updated now
             siteName description pendingFiles in
  snd r = storePending guessContentType db uuid now pendingFiles
  /\ (exists row,
        getSite (fst r) uuid = Some row
        /\ owner_id row = nodeId l /\ name row = siteName
        /\ file_count row = Z.of_nat (length (getFilesForSite (snd r) uuid))
        /\ file_size row = Z.of_N (getSiteStorageSize (snd r) uuid))
  /\ (forall file, file ∈ pendingFiles ->
        getFile (snd r) uuid (pf_path file)
        = Some (stored_pending guessContentType uuid now file))
  /\ handleAddSite guessContentType (Some l) db uuid added updated now
       "" description pendingFiles = (Some l, db)
  /\ handleAddSite guessContentType (Some l) db uuid added updated now
       siteName description [] = (Some l, db).
Proof.
  intros Hname Hfiles Hfresh Hempty Hfree Hnd r.
  assert (Hr : r = (fst (updateSiteFileStats
                           (Some (mkLedger (nodeId l)
                              (<[uuid := mkSite uuid siteName "" description ""
                                           (nodeId l) "" 0 0 added added]> (sites l))))
                           updated uuid (Z.of_nat (length pendingFiles))
                           (pendingSize pendingFiles)),
                     storePending guessContentType db uuid now pendingFiles)).
  { unfold r, handleAddSite.
    destruct (String.eqb_spec siteName "") as [|_]; [done|].
    destruct pendingFiles as [|f fs]; [done|]. cbn [length Nat.eqb orb].
    unfold addSite. cbn [id]. rewrite Hfresh.
    cbn [i_name i_url i_description i_thumbnail i_contentHash i_fileCount i_fileSize].
    rewrite !or_string_some. reflexivity. }
  set (mk := stored_pending guessContentType uuid now).
  assert (Hkeys : NoDup (map (fun a => f_key (mk a)) pendingFiles)).
  { change (map (fun a => f_key (mk a)) pendingFiles)
      with (map (fun a => file_key uuid (pf_path a)) pendingFiles).
    rewrite <- (map_map pf_path (file_key uuid)).
    apply NoDup_fmap_2_strong; [|done]. intros x y _ _. apply file_key_path_inj. }
  destruct (puts_new (fun f => f_siteId f = uuid) mk pendingFiles db)
    as [Hcount Hsize]; [by apply Hfree|done|done|].
  unfold mk in Hcount, Hsize. rewrite <- storePending_fold in Hcount, Hsize.
  fold (getFilesForSite db uuid) in Hcount, Hsize.
  fold (getFilesForSite (storePending guessContentType db uuid now pendingFiles) uuid)
    in Hcount, Hsize.
  rewrite Hempty in Hcount, Hsize. cbn [length] in Hcount.
  rewrite Hr. cbn [fst snd]. split; [done|]. split; [|split; [|split]].
  - rewrite (updateSiteFileStats_row _ updated uuid _ _
               (mkSite uuid siteName "" description "" (nodeId l) "" 0 0 added added))
      by apply lookup_insert_eq.
    cbn [fst]. eexists. split; [apply lookup_insert_eq|].
    cbn [owner_id name file_count file_size]. split; [done|]. split; [done|].
    split; [by rewrite Hcount, Nat.add_0_r|].
    unfold getSiteStorageSize. rewrite Hsize, pendingSize_sum.
    change (totalSize []) with 0%N. rewrite N.add_0_r. reflexivity.
  - intros file Hfile. unfold getFile. rewrite storePending_fold, puts_find.
    rewrite (find_unique _ _ (mk file)); [done| | |].
    + apply elem_of_rev_iff, list_elem_of_fmap. by exists file.
    + apply String.eqb_refl.
    + intros g Hg Hk. apply elem_of_rev_iff, list_elem_of_fmap in Hg as (f' & -> & Hf').
      apply String.eqb_eq in Hk. cbn [mk stored_pending f_key] in Hk.
      apply file_key_path_inj in Hk.
      assert (f' = file); [|by subst].
      clear -Hnd Hfile Hf' Hk. induction pendingFiles as [|a fs IH]; [by apply elem_of_nil in Hfile|].
      cbn [map] in Hnd. apply NoDup_cons in Hnd as [Ha Hnd].
      apply elem_of_cons in Hfile as [->|Hfile], Hf' as [->|Hf']; auto.
      * destruct Ha. rewrite <- Hk. apply list_elem_of_fmap. by exists f'.
      * destruct Ha. rewrite Hk. apply list_elem_of_fmap. by exists file.
  - reflexivity.
  - unfold handleAddSite. by rewrite orb_true_r.
Qed.

End AppFacts.

Section AppExamples.
Import Persistence StoreOps Catalog CatalogOps App Scenarios.

Lemma added_site_counts_its_files_witness :
  exists row,
    getSite (fst (handleAddSite (fun _ => "text/plain") (Some catalog_b) site_s
                    "b7" "t1" "t2" (fun _ => 5%Z) "Beta" ""
                    [mkPending "index.html" "text/html" [x68]])) "b7" = Some row
    /\ file_count row = 1%Z /\ file_size row = 1%Z.
Proof.
  destruct (added_site_counts_its_files (fun _ => "text/plain") catalog_b site_s
              "b7" "t1" "t2" (fun _ => 5%Z) "Beta" ""
              [mkPending "index.html" "text/html" [x68]])
    as (_ & (row & Hrow & _ & _ & Hcount & Hsize) & _).
  - discriminate.
  - discriminate.
  - reflexivity.
  - reflexivity.
  - intros file ->%list_elem_of_singleton. reflexivity.
  - compute_done.
  - exists row. split; [exact Hrow|]. split; [exact Hcount|exact Hsize].
Defined.

End AppExamples.
